(** * SSEClient (front/src/lib/sse-client.ts): frame decoder, message
      dispatch, request construction and connection life cycle.

    JavaScript strings are modelled by [string]; the operations the client
    uses on them ([split], [replace(/\r$/, "")], [startsWith], [indexOf],
    [slice], [join]) act on single characters and are written out below.
    The built-ins [JSON.parse], [JSON.stringify] and the wall clock
    ([new Date().toISOString()]) belong to the platform: they are section
    variables of the development.  Consumer callbacks are observers: each
    optional call [this.options.onX?.(..)] is recorded in a log, returns
    normally and does not call back into the client. *)

From Stdlib Require Import Floats Ascii String.
From stdpp Require Import gmap strings list pretty.

#[local] Set Warnings "-register-all".
#[local] Arguments String.append !_ _ / : simpl nomatch.

(** ** JavaScript string primitives used by the client *)

Module JSString.

Definition LF : ascii := "010"%char.
Definition CR : ascii := "013"%char.

(** [s.split("\n")]: the segments between line feeds; never empty. *)
Fixpoint split_lf (s : string) : list string :=
  match s with
  | EmptyString => [""]
  | String c rest =>
      if Ascii.eqb c LF then "" :: split_lf rest
      else match split_lf rest with
           | [] => [String c ""]
           | seg :: segs => String c seg :: segs
           end
  end.

(** [s.replace(/\r$/, "")]: without the [m] flag [$] only matches at the
    end of the input, so at most the last character is removed. *)
Fixpoint strip_cr (s : string) : string :=
  match s with
  | EmptyString => ""
  | String c rest =>
      match rest with
      | EmptyString => if Ascii.eqb c CR then "" else s
      | String _ _ => String c (strip_cr rest)
      end
  end.

(** [s.startsWith(c)] for a one-character pattern. *)
Definition startsWith (s : string) (c : ascii) : bool :=
  match s with
  | EmptyString => false
  | String d _ => Ascii.eqb d c
  end.

(** [s.indexOf(c)]; [None] stands for the result [-1]. *)
Fixpoint indexOf (s : string) (c : ascii) : option nat :=
  match s with
  | EmptyString => None
  | String d rest =>
      if Ascii.eqb d c then Some 0
      else match indexOf rest c with
           | Some i => Some (S i)
           | None => None
           end
  end.

(** [s.slice(0, n)] for [0 <= n]. *)
Fixpoint slice_to (s : string) (n : nat) {struct n} : string :=
  match n with
  | 0 => ""
  | S n' =>
      match s with
      | EmptyString => ""
      | String c rest => String c (slice_to rest n')
      end
  end.

(** [s.slice(n)] for [0 <= n]. *)
Fixpoint slice_from (s : string) (n : nat) {struct n} : string :=
  match n with
  | 0 => s
  | S n' =>
      match s with
      | EmptyString => ""
      | String _ rest => slice_from rest n'
      end
  end.

(** [lines.join("\n")]. *)
Fixpoint join_lf (lines : list string) : string :=
  match lines with
  | [] => ""
  | [l] => l
  | l :: ls => l +:+ String LF (join_lf ls)
  end.

(** The character [c] does not occur in [s]. *)
Fixpoint lacks (c : ascii) (s : string) : bool :=
  match s with
  | EmptyString => true
  | String d rest => negb (Ascii.eqb d c) && lacks c rest
  end.

(** The last character of [s] is [c]. *)
Fixpoint endsWith (s : string) (c : ascii) : bool :=
  match s with
  | EmptyString => false
  | String d EmptyString => Ascii.eqb d c
  | String _ rest => endsWith rest c
  end.

(** The chunks of a stream put end to end. *)
Fixpoint concat_chunks (chunks : list string) : string :=
  match chunks with
  | [] => ""
  | c :: rest => c +:+ concat_chunks rest
  end.

(** A stream whose lines all end in the terminator [eol]. *)
Fixpoint terminate_lines (eol : string) (lines : list string) : string :=
  match lines with
  | [] => ""
  | l :: rest => l +:+ eol +:+ terminate_lines eol rest
  end.

Definition eol_LF : string := String LF "".
Definition eol_CRLF : string := String CR (String LF "").

(** The double quote, for writing JSON documents. *)
Definition dq : string := String "034" "".

End JSString.
Import JSString.

(** ** JavaScript values as far as the client inspects them *)

(** What [JSON.parse] can return.  An object is the ordered list of its own
    properties; numbers are IEEE 754 doubles. *)
Inductive JSValue : Type :=
| JNull
| JBool (b : bool)
| JNum (n : float)
| JStr (s : string)
| JArr (items : list JSValue)
| JObj (props : list (string * JSValue)).

(** Truthiness, as tested by [||] and [!]. *)
Definition truthy (v : JSValue) : bool :=
  match v with
  | JNull => false
  | JBool b => b
  | JNum n => negb (PrimFloat.eqb n 0%float) && PrimFloat.eqb n n
  | JStr s => negb (String.eqb s "")
  | JArr _ | JObj _ => true
  end.

(** [typeof v === "object"]; it holds of [null] and of arrays too. *)
Definition typeof_object (v : JSValue) : bool :=
  match v with
  | JNull | JArr _ | JObj _ => true
  | JBool _ | JNum _ | JStr _ => false
  end.

Fixpoint assoc (key : string) (props : list (string * JSValue)) : option JSValue :=
  match props with
  | [] => None
  | (k, v) :: rest => if String.eqb k key then Some v else assoc key rest
  end.

(** [v?.key] for a name that is neither an array index nor a built-in
    ([type], [timestamp]); [None] stands for [undefined]. *)
Definition get_prop (v : JSValue) (key : string) : option JSValue :=
  match v with
  | JObj props => assoc key props
  | _ => None
  end.

(** [x || d] where [x] may be [undefined]. *)
Definition or_default (x : option JSValue) (d : JSValue) : JSValue :=
  match x with
  | Some v => if truthy v then v else d
  | None => d
  end.

(** ** Frames and messages *)

Record SSEMessage : Type := mkMessage {
  msg_event : string;
  msg_type : JSValue;
  msg_data : JSValue;
  msg_timestamp : JSValue
}.

Record SSEEventBuffer : Type := mkBuffer {
  buf_event : string;
  buf_data : list string;
  buf_id : option string
}.

(** [{ event: "message", data: [] }] *)
Definition empty_buffer : SSEEventBuffer :=
  {| buf_event := "message"; buf_data := []; buf_id := None |}.

Module Decoder.

Section Platform.

(** [JSON.parse]; [None] when it throws. *)
Variable JSON_parse : string -> option JSValue.
(** The [n]-th reading of [new Date().toISOString()]. *)
Variable clock : nat -> string.

(** [dispatchMessage]: the message handed to [onMessage], the buffer after
    the reset and the number of clock readings taken so far. *)
Definition dispatchMessage (buffer : SSEEventBuffer) (tick : nat)
  : SSEMessage * SSEEventBuffer * nat :=
  let rawData := join_lf (buf_data buffer) in
  let parsedData :=
    match JSON_parse rawData with
    | Some v => v
    | None => JStr rawData
    end in
  let event := if String.eqb (buf_event buffer) "" then "message" else buf_event buffer in
  let type :=
    if typeof_object parsedData
    then or_default (get_prop parsedData "type") (JStr "message")
    else JStr "message" in
  let timestamp :=
    if typeof_object parsedData then get_prop parsedData "timestamp" else None in
  let reset := {| buf_event := "message"; buf_data := []; buf_id := None |} in
  match timestamp with
  | Some t =>
      if truthy t
      then (mkMessage event type parsedData t, reset, tick)
      else (mkMessage event type parsedData (JStr (clock tick)), reset, S tick)
  | None => (mkMessage event type parsedData (JStr (clock tick)), reset, S tick)
  end.

(** [parseLine]: the buffer after the line, the clock readings taken and
    the messages handed to [onMessage]. *)
Definition parseLine (line : string) (buffer : SSEEventBuffer) (tick : nat)
  : SSEEventBuffer * nat * list SSEMessage :=
  let normalized := strip_cr line in
  if String.eqb normalized "" then
    if 0 <? length (buf_data buffer) then
      let '(m, buffer', tick') := dispatchMessage buffer tick in
      (buffer', tick', [m])
    else (buffer, tick, [])
  else if startsWith normalized ":" then (buffer, tick, [])
  else
    match indexOf normalized ":" with
    | None => (buffer, tick, [])
    | Some colonIndex =>
        let field := slice_to normalized colonIndex in
        let value := slice_from normalized (colonIndex + 1) in
        let value := if startsWith value " " then slice_from value 1 else value in
        if String.eqb field "event" then
          ({| buf_event := value; buf_data := buf_data buffer; buf_id := buf_id buffer |},
           tick, [])
        else if String.eqb field "data" then
          ({| buf_event := buf_event buffer; buf_data := buf_data buffer ++ [value];
              buf_id := buf_id buffer |}, tick, [])
        else if String.eqb field "id" then
          ({| buf_event := buf_event buffer; buf_data := buf_data buffer;
              buf_id := Some value |}, tick, [])
        else (buffer, tick, [])
    end.

(** [for (const line of lines) this.parseLine(line, buffer)] *)
Fixpoint parseLines (lines : list string) (buffer : SSEEventBuffer) (tick : nat)
  : SSEEventBuffer * nat * list SSEMessage :=
  match lines with
  | [] => (buffer, tick, [])
  | line :: rest =>
      let '(buffer1, tick1, out1) := parseLine line buffer tick in
      let '(buffer2, tick2, out2) := parseLines rest buffer1 tick1 in
      (buffer2, tick2, out1 ++ out2)
  end.

(** The locals of the read loop: [buffer] and [partial]. *)
Record Reader : Type := mkReader {
  rd_buffer : SSEEventBuffer;
  rd_partial : string
}.

Definition new_reader : Reader :=
  {| rd_buffer := empty_buffer; rd_partial := "" |}.

(** One turn of the read loop on a decoded chunk:
    [partial += text; lines = partial.split("\n");
     partial = lines.pop() || ""; for (line of lines) parseLine(..)]. *)
Definition read_chunk (text : string) (r : Reader) (tick : nat)
  : Reader * nat * list SSEMessage :=
  let partial := rd_partial r +:+ text in
  let lines := split_lf partial in
  let partial' := List.last lines "" in
  let lines' := List.removelast lines in
  let '(buffer', tick', out) := parseLines lines' (rd_buffer r) tick in
  ({| rd_buffer := buffer'; rd_partial := partial' |}, tick', out).

(** The read loop over successive chunks. *)
Fixpoint read_chunks (chunks : list string) (r : Reader) (tick : nat)
  : Reader * nat * list SSEMessage :=
  match chunks with
  | [] => (r, tick, [])
  | text :: rest =>
      let '(r1, tick1, out1) := read_chunk text r tick in
      let '(r2, tick2, out2) := read_chunks rest r1 tick1 in
      (r2, tick2, out1 ++ out2)
  end.

End Platform.

End Decoder.
Import Decoder.

(** ** Request construction *)

Module Client.

Inductive Method : Type := GET | POST.

(** [body?: Record<string, unknown> | string] *)
Inductive Body : Type :=
| BodyString (s : string)
| BodyRecord (v : JSValue).

(** The configuration fields of [SSEClientOptions]; an absent field is
    [None].  The four callbacks are the observers of the trace below. *)
Record SSEClientOptions : Type := mkOptions {
  url : string;
  method : option Method;
  body : option Body;
  headers : option (gmap string string);
  autoReconnect : option bool;
  reconnectDelay : option Z;
  maxReconnectAttempts : option Z
}.

(** The [RequestInit] passed to [fetch]; its [signal] is the connection. *)
Record RequestInit : Type := mkRequestInit {
  ri_method : Method;
  ri_headers : gmap string string;
  ri_body : option string
}.

(** Truthiness of [body] in [method === "POST" && body]. *)
Definition body_truthy (b : option Body) : bool :=
  match b with
  | None => false
  | Some (BodyString s) => negb (String.eqb s "")
  | Some (BodyRecord _) => true
  end.

Definition is_POST (m : Method) : bool :=
  match m with POST => true | GET => false end.

Section Request.

(** [JSON.stringify] on a record body. *)
Variable JSON_stringify : JSValue -> string.

(** [{ Accept: "text/event-stream", "Cache-Control": "no-cache", ...headers }]:
    the entries of [headers] are written after the two fixed ones. *)
Definition spread_headers (headers : option (gmap string string)) : gmap string string :=
  default ∅ headers ∪
    <["Accept" := "text/event-stream"]> (<["Cache-Control" := "no-cache"]> ∅).

(** Lines 60-76 of [connect]: [requestHeaders] and [requestInit]. *)
Definition build_request (opts : SSEClientOptions) : RequestInit :=
  let method := default GET (method opts) in
  let requestHeaders := spread_headers (headers opts) in
  if is_POST method && body_truthy (body opts) then
    {| ri_method := method;
       ri_headers := <["Content-Type" := "application/json"]> requestHeaders;
       ri_body :=
         match body opts with
         | Some (BodyString s) => Some s
         | Some (BodyRecord v) => Some (JSON_stringify v)
         | None => None
         end |}
  else
    {| ri_method := method; ri_headers := requestHeaders; ri_body := None |}.

End Request.

(** ** Connection life cycle *)

(** What the [catch] block receives. *)
Inductive Failure : Type :=
| HttpStatus (status : nat) (statusText : string)  (** [HTTP ${status}: ${statusText}] *)
| NoResponseBody                                   (** ["No response body"] *)
| Thrown (reason : string).                        (** whatever [fetch] or [read] threw *)

(** What the client does to its surroundings, in order. *)
Inductive Effect : Type :=
| OnOpen
| OnMessage (m : SSEMessage)
| OnError (f : Failure)
| OnClose
| Fetch (k : nat) (target : string) (init : RequestInit)
| Abort (k : nat)
| SetTimeout (t : nat) (delay : Z)
| ClearTimeout (t : nat).

(** Where one run of [performConnect] stands. *)
Inductive Phase : Type :=
| Fetching                (** suspended at [await fetch(..)] *)
| Reading (r : Reader)    (** suspended at [await reader.read()] *)
| Settled.                (** the function has returned *)

(** One call of [connect]: its [signal], the options it destructured and
    the progress of its [performConnect]. *)
Record Conn : Type := mkConn {
  c_aborted : bool;
  c_phase : Phase;
  c_autoReconnect : bool;
  c_reconnectDelay : Z;
  c_maxReconnectAttempts : Z
}.

(** The private fields of the [SSEClient], followed by what surrounds it:
    the connections started so far, the timeouts that have not yet elapsed,
    the clock readings taken and the effects performed. *)
Record World : Type := mkWorld {
  abortController : option nat;
  reconnectTimeout : option nat;
  reconnectAttempts : nat;
  options : SSEClientOptions;
  conns : gmap nat Conn;
  timers : gmap nat Z;
  conn_count : nat;
  timer_count : nat;
  ticks : nat;
  trace : list Effect
}.

Definition set_abortController (v : option nat) (w : World) : World :=
  mkWorld v (reconnectTimeout w) (reconnectAttempts w) (options w) (conns w)
    (timers w) (conn_count w) (timer_count w) (ticks w) (trace w).

Definition set_reconnectTimeout (v : option nat) (w : World) : World :=
  mkWorld (abortController w) v (reconnectAttempts w) (options w) (conns w)
    (timers w) (conn_count w) (timer_count w) (ticks w) (trace w).

Definition set_reconnectAttempts (v : nat) (w : World) : World :=
  mkWorld (abortController w) (reconnectTimeout w) v (options w) (conns w)
    (timers w) (conn_count w) (timer_count w) (ticks w) (trace w).

Definition set_conns (v : gmap nat Conn) (w : World) : World :=
  mkWorld (abortController w) (reconnectTimeout w) (reconnectAttempts w) (options w) v
    (timers w) (conn_count w) (timer_count w) (ticks w) (trace w).

Definition set_timers (v : gmap nat Z) (w : World) : World :=
  mkWorld (abortController w) (reconnectTimeout w) (reconnectAttempts w) (options w)
    (conns w) v (conn_count w) (timer_count w) (ticks w) (trace w).

Definition set_conn_count (v : nat) (w : World) : World :=
  mkWorld (abortController w) (reconnectTimeout w) (reconnectAttempts w) (options w)
    (conns w) (timers w) v (timer_count w) (ticks w) (trace w).

Definition set_timer_count (v : nat) (w : World) : World :=
  mkWorld (abortController w) (reconnectTimeout w) (reconnectAttempts w) (options w)
    (conns w) (timers w) (conn_count w) v (ticks w) (trace w).

Definition set_ticks (v : nat) (w : World) : World :=
  mkWorld (abortController w) (reconnectTimeout w) (reconnectAttempts w) (options w)
    (conns w) (timers w) (conn_count w) (timer_count w) v (trace w).

Definition emit (es : list Effect) (w : World) : World :=
  mkWorld (abortController w) (reconnectTimeout w) (reconnectAttempts w) (options w)
    (conns w) (timers w) (conn_count w) (timer_count w) (ticks w) (trace w ++ es).

(** [new SSEClient(options)].  Timeout handles are positive, as those of
    [setTimeout] are, so that a remembered handle is always truthy. *)
Definition new_client (opts : SSEClientOptions) : World :=
  mkWorld None None 0 opts ∅ ∅ 0 1 0 [].

Definition aborted_conn (c : Conn) : Conn :=
  mkConn true (c_phase c) (c_autoReconnect c) (c_reconnectDelay c)
    (c_maxReconnectAttempts c).

Definition with_phase (ph : Phase) (c : Conn) : Conn :=
  mkConn (c_aborted c) ph (c_autoReconnect c) (c_reconnectDelay c)
    (c_maxReconnectAttempts c).

(** [controller.abort()]: the signal of connection [k] becomes aborted. *)
Definition abort_signal (k : nat) (w : World) : World :=
  emit [Abort k] (set_conns (alter aborted_conn k (conns w)) w).

(** The progress of connection [k] becomes [ph]. *)
Definition set_phase (k : nat) (ph : Phase) (w : World) : World :=
  set_conns (alter (with_phase ph) k (conns w)) w.

(** What the platform reports to a suspended [performConnect]. *)
Record Response : Type := mkResponse {
  ok : bool;
  status : nat;
  statusText : string;
  has_body : bool
}.

Inductive FetchOutcome : Type :=
| Resolved (resp : Response)
| Rejected (reason : string).

Inductive ReadOutcome : Type :=
| Chunk (text : string)     (** [{ done: false, value }], decoded *)
| Done                      (** [{ done: true }] *)
| Failed (reason : string). (** the read rejects *)

(** What can happen to a client: calls by its owner, a timeout that
    elapses, and the settling of the promise a connection awaits.  The
    code does not look at the signal when a promise resolves, so nothing
    is assumed here about what the platform delivers to a connection whose
    signal is aborted. *)
Inductive Event : Type :=
| Connect
| Disconnect (resetAttempts : bool)
| TimerFires (t : nat)
| FetchSettles (k : nat) (o : FetchOutcome)
| ReadSettles (k : nat) (o : ReadOutcome).

(** The connection a call of [connect] starts: its signal is not aborted
    and it holds the options as destructured, with their defaults. *)
Definition fresh_conn (opts : SSEClientOptions) : Conn :=
  {| c_aborted := false;
     c_phase := Fetching;
     c_autoReconnect := default false (autoReconnect opts);
     c_reconnectDelay := default 3000%Z (reconnectDelay opts);
     c_maxReconnectAttempts := default 5%Z (maxReconnectAttempts opts) |}.

Section LifeCycle.

Variable JSON_parse : string -> option JSValue.
Variable JSON_stringify : JSValue -> string.
Variable clock : nat -> string.

(** [disconnect(resetAttempts)] *)
Definition disconnect (resetAttempts : bool) (w : World) : World :=
  let w1 :=
    match abortController w with
    | Some k => set_abortController None (abort_signal k w)
    | None => w
    end in
  let w2 :=
    match reconnectTimeout w1 with
    | Some t =>
        set_reconnectTimeout None
          (emit [ClearTimeout t] (set_timers (delete t (timers w1)) w1))
    | None => w1
    end in
  if resetAttempts then set_reconnectAttempts 0 w2 else w2.

(** [connect()] up to the first [await] of [performConnect]. *)
Definition connect (w : World) : World :=
  let w1 := disconnect false w in
  let k := conn_count w1 in
  let opts := options w1 in
  emit [Fetch k (url opts) (build_request JSON_stringify opts)]
    (set_conns (<[k := fresh_conn opts]> (conns w1))
       (set_conn_count (S k) (set_abortController (Some k) w1))).

(** The [catch] block of connection [k], whose options are in [c]. *)
Definition on_catch (k : nat) (c : Conn) (f : Failure) (w : World) : World :=
  let w0 := set_phase k Settled w in
  if c_aborted c then w0
  else
    let w1 := emit [OnError f] w0 in
    if c_autoReconnect c then
      if (c_maxReconnectAttempts c =? 0)%Z
         || (Z.of_nat (reconnectAttempts w1) <? c_maxReconnectAttempts c)%Z
      then
        let t := timer_count w1 in
        set_reconnectTimeout (Some t)
          (emit [SetTimeout t (c_reconnectDelay c)]
             (set_timers (<[t := c_reconnectDelay c]> (timers w1))
                (set_timer_count (S t)
                   (set_reconnectAttempts (S (reconnectAttempts w1)) w1))))
      else w1
    else w1.

(** [performConnect] resumes after [await fetch(..)]. *)
Definition on_fetch (k : nat) (c : Conn) (o : FetchOutcome) (w : World) : World :=
  match o with
  | Rejected reason => on_catch k c (Thrown reason) w
  | Resolved resp =>
      if negb (ok resp) then on_catch k c (HttpStatus (status resp) (statusText resp)) w
      else if negb (has_body resp) then on_catch k c NoResponseBody w
      else
        emit [OnOpen]
          (set_phase k (Reading new_reader) (set_reconnectAttempts 0 w))
  end.

(** [performConnect] resumes after [await reader.read()]. *)
Definition on_read (k : nat) (c : Conn) (r : Reader) (o : ReadOutcome) (w : World) : World :=
  match o with
  | Failed reason => on_catch k c (Thrown reason) w
  | Done => set_phase k Settled (emit [OnClose] w)
  | Chunk text =>
      let '(r', tick', out) := read_chunk JSON_parse clock text r (ticks w) in
      set_phase k (Reading r') (set_ticks tick' (emit (map OnMessage out) w))
  end.

(** One event.  A promise settles only for the connection that awaits it
    and a timeout elapses only while pending; anything else changes
    nothing. *)
Definition step (w : World) (e : Event) : World :=
  match e with
  | Connect => connect w
  | Disconnect resetAttempts => disconnect resetAttempts w
  | TimerFires t =>
      match timers w !! t with
      | Some _ => connect (set_timers (delete t (timers w)) w)
      | None => w
      end
  | FetchSettles k o =>
      match conns w !! k with
      | Some c =>
          match c_phase c with
          | Fetching => on_fetch k c o w
          | _ => w
          end
      | None => w
      end
  | ReadSettles k o =>
      match conns w !! k with
      | Some c =>
          match c_phase c with
          | Reading r => on_read k c r o w
          | _ => w
          end
      | None => w
      end
  end.

Definition run (es : list Event) (w : World) : World := fold_left step es w.

(** The effects performed between [w] and a later world [w']. *)
Definition emitted (w w' : World) : list Effect :=
  drop (length (trace w)) (trace w').

(** Connection [k] has been started and its [performConnect] has neither
    returned nor been cancelled. *)
Definition in_flight (w : World) (k : nat) : Prop :=
  exists c, conns w !! k = Some c /\ c_aborted c = false /\ c_phase c <> Settled.

(** The connection an event is addressed to. *)
Definition addressee (e : Event) : option nat :=
  match e with
  | FetchSettles k _ | ReadSettles k _ => Some k
  | _ => None
  end.

(** A fetch outcome that sends [performConnect] to its [catch] block. *)
Definition fetch_fails (o : FetchOutcome) : bool :=
  match o with
  | Rejected _ => true
  | Resolved resp => negb (ok resp) || negb (has_body resp)
  end.

(** The events that end in the [catch] block of connection [k], given
    where the connection stands. *)
Definition is_failure (ph : Phase) (k : nat) (e : Event) : bool :=
  match ph, e with
  | Fetching, FetchSettles k' o => Nat.eqb k k' && fetch_fails o
  | Reading _, ReadSettles k' (Failed _) => Nat.eqb k k'
  | _, _ => false
  end.


(** A failure of the open in progress, or of the read loop. *)
Inductive Fault : Type :=
| FetchFault (o : FetchOutcome)
| ReadFault (reason : string).

Definition fault_event (k : nat) (f : Fault) : Event :=
  match f with
  | FetchFault o => FetchSettles k o
  | ReadFault reason => ReadSettles k (Failed reason)
  end.

(** The fault can strike a connection that stands at [ph]. *)
Definition fault_at (ph : Phase) (f : Fault) : bool :=
  match ph, f with
  | Fetching, FetchFault o => fetch_fails o
  | Reading _, ReadFault _ => true
  | _, _ => false
  end.

(** Consecutive failures: the connection of the abort controller fails in
    the way given and, when that scheduled a retry, the timeout elapses
    and reopens the connection. *)
Fixpoint fail_repeatedly (fs : list Fault) (w : World) : World :=
  match fs with
  | [] => w
  | f :: rest =>
      match abortController w with
      | Some k =>
          let w1 := step w (fault_event k f) in
          match reconnectTimeout w1 with
          | Some t => fail_repeatedly rest (step w1 (TimerFires t))
          | None => w1
          end
      | None => w
      end
  end.

End LifeCycle.

End Client.
Import Client.

(** ** Sample values of the platform functions

    [JSON.parse] on the documents used in the examples below; every other
    text of the examples ([not-json], [A], [B], ...) is not JSON. *)

Definition doc_a1 : string := "{" +:+ dq +:+ "a" +:+ dq +:+ ":1}".
Definition doc_typed : string :=
  "{" +:+ dq +:+ "type" +:+ dq +:+ ":" +:+ dq +:+ "x" +:+ dq +:+ ","
      +:+ dq +:+ "timestamp" +:+ dq +:+ ":" +:+ dq +:+ "T" +:+ dq +:+ "}".
Definition doc_empty_fields : string :=
  "{" +:+ dq +:+ "type" +:+ dq +:+ ":" +:+ dq +:+ dq +:+ ","
      +:+ dq +:+ "timestamp" +:+ dq +:+ ":" +:+ dq +:+ dq +:+ "}".

Definition sample_parse (s : string) : option JSValue :=
  if String.eqb s doc_a1 then Some (JObj [("a", JNum 1%float)])
  else if String.eqb s doc_typed then
    Some (JObj [("type", JStr "x"); ("timestamp", JStr "T")])
  else if String.eqb s doc_empty_fields then
    Some (JObj [("type", JStr ""); ("timestamp", JStr "")])
  else None.

Definition sample_clock (n : nat) : string :=
  match n with
  | 0 => "2024-01-01T00:00:00.000Z"
  | 1 => "2024-01-01T00:00:01.000Z"
  | _ => "2024-01-01T00:00:02.000Z"
  end.

(** [JSON.stringify] on the record bodies of the examples: the empty
    record and the record of [doc_a1]. *)
Definition sample_stringify (v : JSValue) : string :=
  match v with
  | JObj [] => "{}"
  | _ => doc_a1
  end.

(** Sample frames, options, responses and client states. *)

Definition frame_AB : SSEEventBuffer := mkBuffer "message" ["A"; "B"] None.

Definition typed_props : list (string * JSValue) :=
  [("type", JStr "x"); ("timestamp", JStr "T")].

Definition post_options : SSEClientOptions :=
  mkOptions "/stream" (Some POST) (Some (BodyRecord (JObj [])))
    (Some {["X-Token" := "t"]}) (Some true) None (Some 2%Z).

Definition ok_response : Response := mkResponse true 200 "OK" true.
Definition bad_response : Response := mkResponse false 503 "Service Unavailable" true.

Definition opened : World :=
  run sample_parse sample_stringify sample_clock
    [Connect; FetchSettles 0 (Resolved ok_response)] (new_client post_options).

Definition connecting : World :=
  run sample_parse sample_stringify sample_clock [Connect] (new_client post_options).

(** ** Invariants of the life cycle *)

(** Connection identifiers are handed out in order; every pending timeout
    is the one the client remembers; a connection in flight is the one of
    the client's abort controller; nothing is in flight while a retry is
    pending. *)
Record consistent (w : World) : Prop := mkConsistent {
  cons_conn_ids : forall k c, conns w !! k = Some c -> k < conn_count w;
  cons_timer_known : forall t d, timers w !! t = Some d -> reconnectTimeout w = Some t;
  cons_in_flight : forall k c,
    conns w !! k = Some c -> c_aborted c = false -> c_phase c <> Settled ->
    abortController w = Some k;
  cons_retry_idle : forall t d k c,
    timers w !! t = Some d -> conns w !! k = Some c ->
    c_aborted c = false -> c_phase c = Settled
}.

(** Nothing is in flight and no retry is pending. *)
Definition quiet (w : World) : Prop :=
  abortController w = None /\ reconnectTimeout w = None /\ timers w = ∅
  /\ forall k c, conns w !! k = Some c -> c_aborted c = false -> c_phase c = Settled.

(** The client waits on connection [k], opened with automatic reconnection
    and attempt ceiling [N]; no retry is pending and [a] attempts are
    counted. *)
Record armed (N a : nat) (w : World) (k : nat) (c : Conn) : Prop := mkArmed {
  armed_options_auto : default false (autoReconnect (options w)) = true;
  armed_options_max : default 5%Z (maxReconnectAttempts (options w)) = Z.of_nat N;
  armed_controller : abortController w = Some k;
  armed_conn : conns w !! k = Some c;
  armed_live : c_aborted c = false;
  armed_auto : c_autoReconnect c = true;
  armed_max : c_maxReconnectAttempts c = Z.of_nat N;
  armed_no_timer : timers w = ∅;
  armed_no_timeout : reconnectTimeout w = None;
  armed_attempts : reconnectAttempts w = a
}.

(** The condition under which a failure is retried: automatic reconnection
    is enabled and the ceiling is zero or the attempt count is below it. *)
Definition retry_allowed (c : Conn) (attempts : nat) : Prop :=
  c_autoReconnect c = true
  /\ (c_maxReconnectAttempts c = 0
      \/ Z.of_nat attempts < c_maxReconnectAttempts c)%Z.

(** The effects of a trace that report an error, and those that schedule
    a retry. *)
Definition is_OnError (e : Effect) : bool :=
  match e with OnError _ => true | _ => false end.

Definition is_SetTimeout (e : Effect) : bool :=
  match e with SetTimeout _ _ => true | _ => false end.

(** The number of retries scheduled in a trace. *)
Definition retries (tr : list Effect) : nat :=
  length (List.filter is_SetTimeout tr).

(** ** The rest of the client, and the code that uses it *)

(** *** Inputs and observations of the decoder *)

(** The line counts as empty, and the line sets the [id] field. *)
Definition is_blank (line : string) : bool := String.eqb (strip_cr line) "".

Definition is_id_line (line : string) : bool :=
  match indexOf (strip_cr line) ":" with
  | Some i => String.eqb (slice_to (strip_cr line) i) "id"
  | None => false
  end.

(** The lines of one frame on the wire: the event name, the data lines and
    the empty line that ends the frame. *)
Definition frame_lines (ev : string) (ds : list string) : list string :=
  ("event: " +:+ ev) :: map (fun d => "data: " +:+ d) ds ++ [""].

Definition frame_text (ev : string) (ds : list string) : string :=
  terminate_lines eol_LF (frame_lines ev ds).

Fixpoint frames_text (frames : list (string * list string)) : string :=
  match frames with
  | [] => ""
  | (ev, ds) :: rest => frame_text ev ds +:+ frames_text rest
  end.

(** A text that can stand on a line of its own. *)
Definition line_safe (s : string) : Prop :=
  lacks LF s = true /\ endsWith s CR = false.

(** Two frames that differ at most in the recorded [id]. *)
Definition same_frame (b b' : SSEEventBuffer) : Prop :=
  buf_event b = buf_event b' /\ buf_data b = buf_data b'.

Section Dispatching.

Variable JSON_parse : string -> option JSValue.
Variable clock : nat -> string.

(** [dispatchMessage] on one frame after the other, each from its event
    name and data lines. *)
Fixpoint dispatch_frames (frames : list (string * list string)) (tick : nat)
  : nat * list SSEMessage :=
  match frames with
  | [] => (tick, [])
  | (ev, ds) :: rest =>
      let '(m, _, tick1) := dispatchMessage JSON_parse clock (mkBuffer ev ds None) tick in
      let '(tick2, out) := dispatch_frames rest tick1 in
      (tick2, m :: out)
  end.

End Dispatching.

(** *** [updateOptions] *)

(** A [Partial<SSEClientOptions>], as far as the request and the retry
    rule go: per key, [None] when the key is absent, otherwise the value it
    holds ([undefined] for an optional field being the inner [None]; a [url]
    that is present is a text).  The four callbacks are no part of it: the
    code reads them from [this.options] at the moment it calls them, so
    replacing a callback is felt at once. *)
Record OptionsPatch : Type := mkPatch {
  p_url : option string;
  p_method : option (option Method);
  p_body : option (option Body);
  p_headers : option (option (gmap string string));
  p_autoReconnect : option (option bool);
  p_reconnectDelay : option (option Z);
  p_maxReconnectAttempts : option (option Z)
}.

(** [{ ...options, ...newOptions }] *)
Definition merge_options (o : SSEClientOptions) (p : OptionsPatch) : SSEClientOptions :=
  {| url := default (url o) (p_url p);
     method := default (method o) (p_method p);
     body := default (body o) (p_body p);
     headers := default (headers o) (p_headers p);
     autoReconnect := default (autoReconnect o) (p_autoReconnect p);
     reconnectDelay := default (reconnectDelay o) (p_reconnectDelay p);
     maxReconnectAttempts := default (maxReconnectAttempts o) (p_maxReconnectAttempts p) |}.

Definition set_options (v : SSEClientOptions) (w : World) : World :=
  mkWorld (abortController w) (reconnectTimeout w) (reconnectAttempts w) v (conns w)
    (timers w) (conn_count w) (timer_count w) (ticks w) (trace w).

(** [updateOptions(newOptions)] *)
Definition updateOptions (newOptions : OptionsPatch) (w : World) : World :=
  set_options (merge_options (options w) newOptions) w.

(** The events whose handling reads [this.options]: [connect], directly or
    from the retry timeout. *)
Definition reads_options (e : Event) : bool :=
  match e with
  | Connect | TimerFires _ => true
  | _ => false
  end.

Definition is_Connect (e : Event) : bool :=
  match e with Connect => true | _ => false end.

Definition is_Fetch (e : Effect) : bool :=
  match e with Fetch _ _ _ => true | _ => false end.

Definition is_OnMessage (e : Effect) : bool :=
  match e with OnMessage _ => true | _ => false end.

(** No retry is pending and every connection is cancelled or has returned:
    nothing can make the client act but a call of its owner. *)
Definition idle (w : World) : Prop :=
  timers w = ∅
  /\ forall k c, conns w !! k = Some c -> c_aborted c = true \/ c_phase c = Settled.

(** The effects an idle client can still have: aborting and clearing on
    [disconnect], and the callbacks of what the platform still delivers to
    a cancelled connection. *)
Definition harmless (e : Effect) : bool :=
  negb (is_Fetch e) && negb (is_SetTimeout e) && negb (is_OnError e).

(** The messages handed to [onMessage] in a trace, in order. *)
Fixpoint delivered (tr : list Effect) : list SSEMessage :=
  match tr with
  | [] => []
  | OnMessage m :: rest => m :: delivered rest
  | _ :: rest => delivered rest
  end.

(** *** The shared store (store/useSSEStore.ts)

    The three records keyed by subscription are object literals: a finite
    map of own properties, over what every object literal inherits from
    [Object.prototype]. *)

Module Store.

Record StreamState : Type := mkState {
  messages : gmap string (list SSEMessage);
  isConnected : gmap string bool;
  errors : gmap string (option string)
}.

(** [{ messages: {}, isConnected: {}, errors: {} }] *)
Definition initial : StreamState := mkState ∅ ∅ ∅.

(** The names of the members of [Object.prototype]: reading one of them
    from an object literal that has no own property of that name gives the
    inherited member, a function or an object. *)
Definition prototype_members : list string :=
  ["constructor"; "__proto__"; "hasOwnProperty"; "isPrototypeOf";
   "propertyIsEnumerable"; "toLocaleString"; "toString"; "valueOf";
   "__defineGetter__"; "__defineSetter__"; "__lookupGetter__"; "__lookupSetter__"].

Definition inherited (key : string) : bool :=
  existsb (String.eqb key) prototype_members.

#[global] Arguments inherited : simpl never.

(** What [state.messages[key]] reads. *)
Inductive Slot : Type :=
| Own (l : list SSEMessage)   (** the own property *)
| Member                      (** the inherited member of that name *)
| Undefined.                  (** [undefined] *)

Definition read_messages (key : string) (st : StreamState) : Slot :=
  match messages st !! key with
  | Some l => Own l
  | None => if inherited key then Member else Undefined
  end.

(** The messages held under the key as an own property, none when there
    is no such property. *)
Definition messages_of (key : string) (st : StreamState) : list SSEMessage :=
  default [] (messages st !! key).

(** The key can be added to: it names no member of [Object.prototype], or
    it is an own property already. *)
Definition writable (key : string) (st : StreamState) : Prop :=
  inherited key = false \/ is_Some (messages st !! key).

(** [addMessage]: [None] when [[...(state.messages[key] || []), message]]
    throws a TypeError, the inherited member being truthy and not
    iterable; no state is set then. *)
Definition addMessage (key : string) (message : SSEMessage) (st : StreamState)
  : option StreamState :=
  match read_messages key st with
  | Own l =>
      Some (mkState (<[key := l ++ [message]]> (messages st)) (isConnected st) (errors st))
  | Undefined =>
      Some (mkState (<[key := [] ++ [message]]> (messages st)) (isConnected st) (errors st))
  | Member => None
  end.

Definition setConnected (key : string) (connected : bool) (st : StreamState) : StreamState :=
  mkState (messages st) (<[key := connected]> (isConnected st)) (errors st).

Definition setError (key : string) (error : option string) (st : StreamState) : StreamState :=
  mkState (messages st) (isConnected st) (<[key := error]> (errors st)).

Definition clearMessages (key : string) (st : StreamState) : StreamState :=
  mkState (<[key := []]> (messages st)) (isConnected st) (errors st).

Inductive Action : Type :=
| AddMessage (key : string) (message : SSEMessage)
| SetConnected (key : string) (connected : bool)
| SetError (key : string) (error : option string)
| ClearMessages (key : string).

(** [addMessage] throws. *)
Definition add_throws (key : string) (st : StreamState) : bool :=
  match read_messages key st with
  | Member => true
  | _ => false
  end.

(** The store after an action; an action that throws leaves it as it
    was. *)
Definition act (st : StreamState) (a : Action) : StreamState :=
  match a with
  | AddMessage key message => default st (addMessage key message st)
  | SetConnected key connected => setConnected key connected st
  | SetError key error => setError key error st
  | ClearMessages key => clearMessages key st
  end.

Definition key_of (a : Action) : string :=
  match a with
  | AddMessage key _ | SetConnected key _ | SetError key _ | ClearMessages key => key
  end.

(** The messages a key should hold after the actions, given those it held
    before: those added to it since it was last cleared. *)
Fixpoint history (key : string) (acts : list Action) (before : list SSEMessage)
  : list SSEMessage :=
  match acts with
  | [] => before
  | AddMessage k m :: rest =>
      history key rest (if String.eqb k key then before ++ [m] else before)
  | ClearMessages k :: rest =>
      history key rest (if String.eqb k key then [] else before)
  | _ :: rest => history key rest before
  end.

End Store.

(** *** The hook ([useSSE]) *)

Module Hook.

(** [array.slice(start)] for an integer [start]: a negative [start] counts
    from the end. *)
Definition slice {A} (start : Z) (l : list A) : list A :=
  let len := Z.of_nat (length l) in
  let k := if (start <? 0)%Z then Z.max (len + start) 0 else Z.min start len in
  drop (Z.to_nat k) l.

(** The updater of [setLocalMessages] in [pushMessage]. *)
Definition push_local (maxMessages : Z) (prev : list SSEMessage) (message : SSEMessage)
  : list SSEMessage :=
  let updated := prev ++ [message] in
  if (maxMessages <? Z.of_nat (length updated))%Z
  then slice (- maxMessages) updated
  else updated.

(** The options of the hook that decide where messages go. *)
Record Config : Type := mkConfig {
  storeKey : option string;
  storeMessages : bool;
  maxMessages : Z
}.

(** [storeKey] when it is truthy. *)
Definition store_key (cfg : Config) : option string :=
  match storeKey cfg with
  | Some key => if String.eqb key "" then None else Some key
  | None => None
  end.

(** The store and the local state of one use of the hook. *)
Record State : Type := mkHook {
  store : Store.StreamState;
  localMessages : list SSEMessage;
  localIsConnected : bool;
  localError : option string
}.

Definition initial : State := mkHook Store.initial [] false None.

(** [pushMessage]: [None] when [addMessage] throws, which leaves the
    function before [setLocalMessages]. *)
Definition pushMessage (cfg : Config) (message : SSEMessage) (st : State) : option State :=
  if negb (storeMessages cfg) then Some st
  else
    match store_key cfg with
    | Some key =>
        match Store.addMessage key message (store st) with
        | Some store' =>
            Some (mkHook store' (push_local (maxMessages cfg) (localMessages st) message)
                    (localIsConnected st) (localError st))
        | None => None
        end
    | None =>
        Some (mkHook (store st) (push_local (maxMessages cfg) (localMessages st) message)
                (localIsConnected st) (localError st))
    end.

(** The store key names a member of [Object.prototype]. *)
Definition blocked (cfg : Config) : bool :=
  match store_key cfg with
  | Some key => Store.inherited key
  | None => false
  end.

Definition updateConnected (cfg : Config) (connected : bool) (st : State) : State :=
  mkHook
    (match store_key cfg with
     | Some key => Store.setConnected key connected (store st)
     | None => store st
     end)
    (localMessages st) connected (localError st).

Definition updateError (cfg : Config) (errMsg : option string) (st : State) : State :=
  mkHook
    (match store_key cfg with
     | Some key => Store.setError key errMsg (store st)
     | None => store st
     end)
    (localMessages st) (localIsConnected st) errMsg.

(** [error.message] of what the client hands to [onError]. *)
Definition failure_message (f : Failure) : string :=
  match f with
  | HttpStatus status statusText => "HTTP " +:+ pretty status +:+ ": " +:+ statusText
  | NoResponseBody => "No response body"
  | Thrown reason => reason
  end.

(** The four callbacks the hook registers with its client, applied to what
    the client does; a callback that throws leaves the state as it was. *)
Definition observe (cfg : Config) (st : State) (e : Effect) : State :=
  match e with
  | OnOpen => updateError cfg None (updateConnected cfg true st)
  | OnMessage m => default st (pushMessage cfg m st)
  | OnError f => updateError cfg (Some (failure_message f)) (updateConnected cfg false st)
  | OnClose => updateConnected cfg false st
  | _ => st
  end.

Definition observe_all (cfg : Config) (tr : list Effect) (st : State) : State :=
  fold_left (observe cfg) tr st.

(** What the hook returns as [messages]. *)
Inductive View : Type :=
| Messages (l : list SSEMessage)
| InheritedMember.   (** the member of [Object.prototype] the store key names *)

(** [storeKey ? storeMessagesArr || [] : localMessages] *)
Definition view_messages (cfg : Config) (st : State) : View :=
  match store_key cfg with
  | Some key =>
      match Store.read_messages key (store st) with
      | Store.Own l => Messages l
      | Store.Undefined => Messages []
      | Store.Member => InheritedMember
      end
  | None => Messages (localMessages st)
  end.

(** The last [n] elements of a list. *)
Definition last_n {A} (n : nat) (l : list A) : list A := drop (length l - n) l.

End Hook.

(** *** The streaming card ([StreamingCard]) *)

Module Cards.

(** [endpoint.replace(/\//g, "-")] *)
Fixpoint replace_slashes (s : string) : string :=
  match s with
  | EmptyString => ""
  | String c rest =>
      String (if Ascii.eqb c "/" then "-"%char else c) (replace_slashes rest)
  end.

(** [`stream-${endpoint.replace(/\//g, "-")}`] *)
Definition storeKey (endpoint : string) : string :=
  "stream-" +:+ replace_slashes endpoint.

(** Two endpoints that agree but for slashes in the place of dashes. *)
Fixpoint alike (s t : string) : bool :=
  match s, t with
  | EmptyString, EmptyString => true
  | String c s', String d t' =>
      (Ascii.eqb c d
       || ((Ascii.eqb c "/" || Ascii.eqb c "-") && (Ascii.eqb d "/" || Ascii.eqb d "-")))
      && alike s' t'
  | _, _ => false
  end.

End Cards.

(** *** The reconnect action of the hook, seen from its client *)

Section HookActions.

Variable JSON_stringify : JSValue -> string.

(** [reconnect] of a hook that holds its client, whose url is the hook's:
    [disconnect()], then [connect()] when the hook is enabled and has a
    url. *)
Definition hook_reconnect (enabled : bool) (w : World) : World :=
  let w1 := disconnect true w in
  if enabled && negb (String.eqb (url (options w1)) "")
  then connect JSON_stringify w1
  else w1.

End HookActions.

(** *** What consumers can rely on in a message *)

(** The event name is not empty, the kind is truthy and, when no clock
    reading is the empty text, so is the timestamp. *)
Definition well_formed (clock : nat -> string) (m : SSEMessage) : Prop :=
  msg_event m <> ""
  /\ truthy (msg_type m) = true
  /\ ((forall n, clock n <> "") -> truthy (msg_timestamp m) = true).

(** *** Causes of effects and uniform configuration *)

(** The options a connection holds. *)
Definition conn_options (c : Conn) : bool * Z * Z :=
  (c_autoReconnect c, c_reconnectDelay c, c_maxReconnectAttempts c).

Section Causes.

Variable JSON_stringify : JSValue -> string.

(** What must hold of the state [w] and the event [e] handled in it for the
    handling to perform the effect: a callback comes from the connection
    the event is addressed to, standing where the code invokes it; a
    request is issued by [connect] with the client's options; aborting and
    clearing act on the client's own handles. *)
Definition justified (w : World) (e : Event) (eff : Effect) : Prop :=
  match eff with
  | OnOpen =>
      exists k c, addressee e = Some k /\ conns w !! k = Some c /\ c_phase c = Fetching
  | OnMessage _ | OnClose =>
      exists k c r, addressee e = Some k /\ conns w !! k = Some c /\ c_phase c = Reading r
  | OnError _ =>
      exists k c, addressee e = Some k /\ conns w !! k = Some c
                  /\ c_aborted c = false /\ c_phase c <> Settled
  | SetTimeout t d =>
      exists k c, addressee e = Some k /\ conns w !! k = Some c
                  /\ c_aborted c = false /\ c_phase c <> Settled
                  /\ t = timer_count w /\ d = c_reconnectDelay c
                  /\ retry_allowed c (reconnectAttempts w)
  | Fetch k target init =>
      reads_options e = true /\ k = conn_count w /\ target = url (options w)
      /\ init = build_request JSON_stringify (options w)
  | Abort k => addressee e = None /\ abortController w = Some k
  | ClearTimeout t => addressee e = None /\ reconnectTimeout w = Some t
  end.

(** The client was created with [opts] and has used nothing else: its
    connections hold them, its requests and retry delays come from them,
    and the attempt count respects a non-zero ceiling. *)
Record configured (opts : SSEClientOptions) (w : World) : Prop := mkConfigured {
  cfg_options : options w = opts;
  cfg_conns : forall k c,
    conns w !! k = Some c -> conn_options c = conn_options (fresh_conn opts);
  cfg_attempts :
    (default 5 (maxReconnectAttempts opts) <> 0 ->
     Z.of_nat (reconnectAttempts w) <= Z.max 0 (default 5 (maxReconnectAttempts opts)))%Z;
  cfg_trace : forall eff, eff ∈ trace w ->
    match eff with
    | Fetch _ target init =>
        target = url opts /\ init = build_request JSON_stringify opts
    | SetTimeout _ d => d = default 3000%Z (reconnectDelay opts)
    | _ => True
    end
}.

End Causes.

(** *** Order of callbacks *)

(** Some connection is in its read loop. *)
Definition some_reading (w : World) : Prop :=
  exists k c r, conns w !! k = Some c /\ c_phase c = Reading r.

(** Every message and every close callback of the trace comes after an
    open callback. *)
Definition opened_first (tr : list Effect) : Prop :=
  forall pre eff post,
    tr = pre ++ eff :: post -> (is_OnMessage eff = true \/ eff = OnClose) ->
    OnOpen ∈ pre.

(** *** The chat card ([ChatCard]) *)

Module Chat.

Section Rendering.

(** [String(v)] for a truthy value that is not a string, as [join] applies
    it. *)
Variable to_text : JSValue -> string.

(** [m.data?.type === kind] *)
Definition has_type (kind : string) (m : SSEMessage) : bool :=
  match get_prop (msg_data m) "type" with
  | Some (JStr s) => String.eqb s kind
  | _ => false
  end.

(** The text that [join("")] adds for [m.data.delta || ""]. *)
Definition delta_text (m : SSEMessage) : string :=
  match or_default (get_prop (msg_data m) "delta") (JStr "") with
  | JStr s => s
  | v => to_text v
  end.

(** [messages.filter(chat_delta).map(delta || "").join("")] *)
Definition assistant (messages : list SSEMessage) : string :=
  concat_chunks (map delta_text (List.filter (has_type "chat_delta") messages)).

End Rendering.

End Chat.

(** *** More sample values *)

Definition plain_options : SSEClientOptions :=
  mkOptions "/stream" None None None None None None.

Definition plain_connecting : World :=
  run sample_parse sample_stringify sample_clock [Connect] (new_client plain_options).

Definition streamed : World :=
  run sample_parse sample_stringify sample_clock
    [Connect; FetchSettles 0 (Resolved ok_response);
     ReadSettles 0 (Chunk ("data: hello" +:+ eol_LF +:+ eol_LF))]
    (new_client plain_options).

Definition hello_message : SSEMessage :=
  mkMessage "message" (JStr "message") (JStr "hello") (JStr (sample_clock 0)).

Definition text_message (text : string) : SSEMessage :=
  mkMessage "message" (JStr "message") (JStr text) (JStr (sample_clock 0)).

Definition delta_message (text : string) : SSEMessage :=
  mkMessage "message" (JStr "chat_delta")
    (JObj [("type", JStr "chat_delta"); ("delta", JStr text)]) (JStr (sample_clock 0)).

Definition no_retry_patch : OptionsPatch :=
  mkPatch None None None None (Some (Some false)) None None.

Definition chat_config : Hook.Config := Hook.mkConfig (Some "llm-chat") true 1.
Definition local_config : Hook.Config := Hook.mkConfig None true 2.
Definition uncapped_config : Hook.Config := Hook.mkConfig None true 0.

Definition three_messages : list Effect :=
  [OnOpen; OnMessage (text_message "a"); OnMessage (text_message "b");
   OnMessage (text_message "c"); OnClose].

(** * Properties *)

(** ** Strings *)

Section StringFacts.

Lemma split_lf_nonempty s : split_lf s <> [].
Proof.
  destruct s as [|c s]; simpl; [discriminate|].
  destruct (Ascii.eqb c LF); [discriminate|].
  destruct (split_lf s); discriminate.
Qed.

Lemma strip_cr_snoc s : strip_cr (s +:+ String CR "") = s.
Proof.
  induction s as [|c s IH]; simpl; [reflexivity|].
  rewrite IH. destruct s; reflexivity.
Qed.

Lemma strip_cr_id s : endsWith s CR = false -> strip_cr s = s.
Proof.
  induction s as [|c s IH]; simpl; [reflexivity|].
  destruct s as [|d s'].
  - intros ->. reflexivity.
  - intros H. f_equal. apply IH, H.
Qed.

Lemma split_lf_line l rest :
  lacks LF l = true ->
  split_lf (l +:+ String LF rest) = l :: split_lf rest.
Proof.
  induction l as [|c l IH]; simpl; intros H.
  - reflexivity.
  - apply andb_prop in H as [Hc Hl].
    apply negb_true_iff in Hc. rewrite Hc, (IH Hl). reflexivity.
Qed.

Lemma lacks_app c s t : lacks c (s +:+ t) = lacks c s && lacks c t.
Proof.
  induction s as [|d s IH]; simpl; [reflexivity|].
  rewrite IH. apply andb_assoc.
Qed.

Lemma append_assoc (s t u : string) : (s +:+ t) +:+ u = s +:+ (t +:+ u).
Proof. induction s as [|c s IH]; cbn; [reflexivity|]. f_equal. apply IH. Qed.

Lemma append_nil_r (s : string) : s +:+ "" = s.
Proof. induction s as [|c s IH]; cbn; [reflexivity|]. f_equal. apply IH. Qed.

(** Splitting a text that arrives in two pieces: the complete lines of the
    first piece, then the split of its unfinished tail followed by the
    second piece. *)
Lemma split_lf_app s t :
  split_lf (s +:+ t) =
  removelast (split_lf s) ++ split_lf (List.last (split_lf s) "" +:+ t).
Proof.
  induction s as [|c s IH]; [reflexivity|].
  cbn [String.append split_lf].
  destruct (Ascii.eqb c LF) eqn:Hc.
  - rewrite IH. pose proof (split_lf_nonempty s) as Hne.
    destruct (split_lf s) as [|seg segs]; [contradiction|]. reflexivity.
  - rewrite IH. pose proof (split_lf_nonempty s) as Hne.
    destruct (split_lf s) as [|seg segs]; [contradiction|].
    destruct segs as [|seg2 segs].
    + cbn [removelast List.last app String.append split_lf]. rewrite Hc.
      reflexivity.
    + reflexivity.
Qed.

Lemma indexOf_split f rest :
  lacks ":" f = true ->
  indexOf (f +:+ String ":" rest) ":" = Some (String.length f).
Proof.
  induction f as [|c f IH]; simpl; intros H; [reflexivity|].
  apply andb_prop in H as [Hc Hf]. apply negb_true_iff in Hc.
  rewrite Hc, (IH Hf). reflexivity.
Qed.

Lemma slice_to_split f rest : slice_to (f +:+ rest) (String.length f) = f.
Proof. induction f as [|c f IH]; cbn; [reflexivity|]. f_equal. apply IH. Qed.

Lemma slice_from_split f rest : slice_from (f +:+ rest) (String.length f) = rest.
Proof. induction f as [|c f IH]; cbn; [reflexivity|]. apply IH. Qed.

Lemma indexOf_none s : lacks ":" s = true -> indexOf s ":" = None.
Proof.
  induction s as [|c s IH]; simpl; intros H; [reflexivity|].
  apply andb_prop in H as [Hc Hs]. apply negb_true_iff in Hc.
  rewrite Hc, (IH Hs). reflexivity.
Qed.

End StringFacts.

(** ** The frame decoder *)

Section DecoderFacts.

Variable JSON_parse : string -> option JSValue.
Variable clock : nat -> string.

#[local] Abbreviation dispatchMessage := (dispatchMessage JSON_parse clock).
#[local] Abbreviation parseLine := (parseLine JSON_parse clock).
#[local] Abbreviation parseLines := (parseLines JSON_parse clock).
#[local] Abbreviation read_chunk := (read_chunk JSON_parse clock).
#[local] Abbreviation read_chunks := (read_chunks JSON_parse clock).

(** The payload of the message built from the joined data lines. *)
Lemma dispatchMessage_data buffer tick :
  msg_data (dispatchMessage buffer tick).1.1 =
  match JSON_parse (join_lf (buf_data buffer)) with
  | Some v => v
  | None => JStr (join_lf (buf_data buffer))
  end.
Proof.
  unfold Decoder.dispatchMessage.
  destruct (JSON_parse _) as [v|]; simpl.
  - destruct (typeof_object v); simpl; [|reflexivity].
    destruct (get_prop v "timestamp") as [t|]; [destruct (truthy t)|]; reflexivity.
  - reflexivity.
Qed.

(** Dispatching always leaves the reset frame behind. *)
Lemma dispatchMessage_resets buffer tick :
  (dispatchMessage buffer tick).1.2 = empty_buffer.
Proof.
  unfold Decoder.dispatchMessage.
  destruct (JSON_parse _) as [v|]; simpl.
  - destruct (typeof_object v); simpl; [|reflexivity].
    destruct (get_prop v "timestamp") as [t|]; [destruct (truthy t)|]; reflexivity.
  - reflexivity.
Qed.

Lemma parseLine_blank line buffer tick :
  strip_cr line = "" ->
  parseLine line buffer tick =
  if 0 <? length (buf_data buffer)
  then let '(m, buffer', tick') := dispatchMessage buffer tick in (buffer', tick', [m])
  else (buffer, tick, []).
Proof. intros H. unfold Decoder.parseLine. rewrite H. reflexivity. Qed.

(** C6: on an empty line a message is finalized and the frame reset exactly
    when the frame holds at least one data line; otherwise the line is
    ignored and the frame is unchanged.  The payload of the finalized
    message is built from the data lines joined by line feeds in order of
    appearance: lines [A] then [B] give the text [A], line feed, [B]. *)
Theorem blank_line_finalizes (line : string) (buffer : SSEEventBuffer) (tick : nat) :
  strip_cr line = "" ->
  ((parseLine line buffer tick).2 <> [] <-> buf_data buffer <> [])
  /\ (buf_data buffer <> [] ->
      exists m tick',
        parseLine line buffer tick = (empty_buffer, tick', [m])
        /\ msg_data m =
           match JSON_parse (join_lf (buf_data buffer)) with
           | Some v => v
           | None => JStr (join_lf (buf_data buffer))
           end)
  /\ (buf_data buffer = [] -> parseLine line buffer tick = (buffer, tick, []))
  /\ join_lf ["A"; "B"] = "A" +:+ String LF "B".
Proof.
  intros Hblank. rewrite (parseLine_blank _ _ _ Hblank).
  pose proof (dispatchMessage_data buffer tick) as Hdata.
  pose proof (dispatchMessage_resets buffer tick) as Hreset.
  destruct (dispatchMessage buffer tick) as [[m b'] t'] eqn:Hd.
  simpl in Hdata, Hreset. subst b'.
  destruct (buf_data buffer) as [|d ds] eqn:Hbuf; simpl.
  - repeat split; try congruence; intros H; contradiction.
  - repeat split; try congruence; try discriminate.
    intros _. exists m, t'. split; [reflexivity | exact Hdata].
Qed.

(** The message does not depend on the recorded [id]. *)
Lemma dispatchMessage_ignores_id ev data i j tick :
  (dispatchMessage (mkBuffer ev data i) tick).1.1 =
  (dispatchMessage (mkBuffer ev data j) tick).1.1.
Proof. reflexivity. Qed.

Lemma startsWith_field field rest :
  field <> "" -> lacks ":" field = true ->
  startsWith (field +:+ String ":" rest) ":" = false.
Proof.
  destruct field as [|c f]; [congruence|]. simpl. intros _ H.
  apply andb_prop in H as [Hc _]. apply negb_true_iff in Hc. exact Hc.
Qed.

Lemma append_not_empty (f : string) c rest : f +:+ String c rest <> "".
Proof. destruct f; discriminate. Qed.

(** How a field line acts on the frame, for the value the code extracts. *)
Lemma parseLine_field line field rest buffer tick :
  strip_cr line = field +:+ String ":" rest ->
  field <> "" -> lacks ":" field = true ->
  parseLine line buffer tick =
  let value := if startsWith rest " " then slice_from rest 1 else rest in
  if String.eqb field "event" then
    (mkBuffer value (buf_data buffer) (buf_id buffer), tick, [])
  else if String.eqb field "data" then
    (mkBuffer (buf_event buffer) (buf_data buffer ++ [value]) (buf_id buffer), tick, [])
  else if String.eqb field "id" then
    (mkBuffer (buf_event buffer) (buf_data buffer) (Some value), tick, [])
  else (buffer, tick, []).
Proof.
  intros Hline Hne Hlacks. unfold Decoder.parseLine. rewrite Hline.
  destruct (String.eqb_spec (field +:+ String ":" rest) "") as [He|_].
  { exfalso. exact (append_not_empty _ _ _ He). }
  rewrite (startsWith_field _ _ Hne Hlacks), (indexOf_split _ _ Hlacks).
  rewrite slice_to_split.
  replace (String.length field + 1) with (String.length (field +:+ ":")).
  2:{ clear. induction field as [|c f IH]; simpl; [reflexivity|]. now rewrite IH. }
  replace (field +:+ String ":" rest) with ((field +:+ ":") +:+ rest).
  2:{ rewrite append_assoc. reflexivity. }
  rewrite slice_from_split. reflexivity.
Qed.

(** C8: a line that is not empty once its carriage return is removed is
    ignored when it begins with a colon and when it holds no colon;
    otherwise it is split at its first colon, the value loses at most one
    leading space, and the field acts on the frame: [event] replaces the
    event name, [data] is appended after the earlier data lines, [id] is
    recorded (and no message depends on it), any other name changes
    nothing.  No case emits a message or fails. *)
Theorem field_line_updates_frame (line : string) (buffer : SSEEventBuffer) (tick : nat) :
  strip_cr line <> "" ->
  (startsWith (strip_cr line) ":" = true ->
     parseLine line buffer tick = (buffer, tick, []))
  /\ (lacks ":" (strip_cr line) = true ->
     parseLine line buffer tick = (buffer, tick, []))
  /\ (forall field rest,
        strip_cr line = field +:+ String ":" rest ->
        field <> "" -> lacks ":" field = true ->
        exists value,
          ((exists v, rest = String " " v /\ value = v)
           \/ (startsWith rest " " = false /\ value = rest))
          /\ (field = "event" ->
              parseLine line buffer tick =
              (mkBuffer value (buf_data buffer) (buf_id buffer), tick, []))
          /\ (field = "data" ->
              parseLine line buffer tick =
              (mkBuffer (buf_event buffer) (buf_data buffer ++ [value]) (buf_id buffer),
               tick, []))
          /\ (field = "id" ->
              parseLine line buffer tick =
              (mkBuffer (buf_event buffer) (buf_data buffer) (Some value), tick, []))
          /\ (field <> "event" -> field <> "data" -> field <> "id" ->
              parseLine line buffer tick = (buffer, tick, [])))
  /\ (forall ev data i j t,
        (dispatchMessage (mkBuffer ev data i) t).1.1 =
        (dispatchMessage (mkBuffer ev data j) t).1.1).
Proof.
  intros Hne. repeat split.
  - intros Hcolon. unfold Decoder.parseLine.
    destruct (String.eqb_spec (strip_cr line) ""); [contradiction|].
    rewrite Hcolon. reflexivity.
  - intros Hlacks. unfold Decoder.parseLine.
    destruct (String.eqb_spec (strip_cr line) ""); [contradiction|].
    rewrite (indexOf_none _ Hlacks).
    destruct (startsWith (strip_cr line) ":"); reflexivity.
  - intros field rest Hline Hfield Hlacks.
    pose proof (parseLine_field line field rest buffer tick Hline Hfield Hlacks) as Hp.
    cbv zeta in Hp.
    exists (if startsWith rest " " then slice_from rest 1 else rest).
    split; [|repeat split].
    + destruct rest as [|c r]; [right; split; reflexivity|].
      simpl. destruct (Ascii.eqb_spec c " ") as [->|Hc].
      * left. exists r. split; reflexivity.
      * right. split; reflexivity.
    + intros ->. exact Hp.
    + intros ->. exact Hp.
    + intros ->. exact Hp.
    + intros H1 H2 H3. rewrite Hp.
      apply String.eqb_neq in H1, H2, H3. rewrite H1, H2, H3. reflexivity.
Qed.

(** C7 (as amended): finalization always yields a message and the reset
    frame.  When the joined data is not JSON the payload is the raw joined
    text, the kind is [message] and the timestamp is a fresh clock reading.
    When it parses to an object, the payload is that object; the kind is
    the object's [type] field when that field is truthy and [message]
    otherwise; the timestamp is the object's [timestamp] field, verbatim
    and without reading the clock, when that field is truthy, and a fresh
    clock reading otherwise.  Any other parsed value is the payload of a
    message of kind [message] with a fresh clock reading. *)
Theorem finalize_message (buffer : SSEEventBuffer) (tick : nat) :
  let raw := join_lf (buf_data buffer) in
  let event := if String.eqb (buf_event buffer) "" then "message" else buf_event buffer in
  (exists m tick', dispatchMessage buffer tick = (m, empty_buffer, tick'))
  /\ (JSON_parse raw = None ->
      dispatchMessage buffer tick =
      (mkMessage event (JStr "message") (JStr raw) (JStr (clock tick)),
       empty_buffer, S tick))
  /\ (forall props, JSON_parse raw = Some (JObj props) ->
      exists kind stamp tick',
        dispatchMessage buffer tick =
        (mkMessage event kind (JObj props) stamp, empty_buffer, tick')
        /\ (forall v, assoc "type" props = Some v -> truthy v = true -> kind = v)
        /\ ((forall v, assoc "type" props = Some v -> truthy v = false) ->
            kind = JStr "message")
        /\ (forall t, assoc "timestamp" props = Some t -> truthy t = true ->
            stamp = t /\ tick' = tick)
        /\ ((forall t, assoc "timestamp" props = Some t -> truthy t = false) ->
            stamp = JStr (clock tick) /\ tick' = S tick))
  /\ (forall v, JSON_parse raw = Some v -> (forall props, v <> JObj props) ->
      dispatchMessage buffer tick =
      (mkMessage event (JStr "message") v (JStr (clock tick)), empty_buffer, S tick)).
Proof.
  cbv zeta. split; [|split; [|split]]; cycle 3.
  { intros v Hparse Hv. unfold Decoder.dispatchMessage. rewrite Hparse.
    destruct v; try reflexivity. exfalso. eapply Hv. reflexivity. }
  - pose proof (dispatchMessage_resets buffer tick) as H.
    destruct (dispatchMessage buffer tick) as [[m b] t]. simpl in H. subst b.
    exists m, t. reflexivity.
  - intros Hparse. unfold Decoder.dispatchMessage. rewrite Hparse. reflexivity.
  - intros props Hparse. unfold Decoder.dispatchMessage. rewrite Hparse.
    cbn [typeof_object get_prop].
    assert (Hkind :
      (forall v, assoc "type" props = Some v -> truthy v = true ->
                 or_default (assoc "type" props) (JStr "message") = v)
      /\ ((forall v, assoc "type" props = Some v -> truthy v = false) ->
          or_default (assoc "type" props) (JStr "message") = JStr "message")).
    { split.
      - intros v Hv Htrue. rewrite Hv. simpl. rewrite Htrue. reflexivity.
      - intros Hfalsy. destruct (assoc "type" props) as [v|]; [|reflexivity].
        simpl. rewrite (Hfalsy v eq_refl). reflexivity. }
    destruct Hkind as [Hk1 Hk2].
    destruct (assoc "timestamp" props) as [t|] eqn:Hts; [destruct (truthy t) eqn:Ht|];
      (eexists _, _, _; split; [reflexivity|]);
      (split; [exact Hk1|]); (split; [exact Hk2|]); split.
    + intros t' [= <-] _. split; reflexivity.
    + intros Hfalsy. specialize (Hfalsy t eq_refl). congruence.
    + intros t' [= <-] Ht'. congruence.
    + intros _. split; reflexivity.
    + intros t' [=].
    + intros _. split; reflexivity.
Qed.

Lemma parseLines_app l1 l2 buffer tick :
  parseLines (l1 ++ l2) buffer tick =
  let '(b1, t1, o1) := parseLines l1 buffer tick in
  let '(b2, t2, o2) := parseLines l2 b1 t1 in
  (b2, t2, o1 ++ o2).
Proof.
  revert buffer tick. induction l1 as [|l l1 IH]; intros buffer tick; simpl.
  - destruct (parseLines l2 buffer tick) as [[b t] o]. reflexivity.
  - destruct (parseLine l buffer tick) as [[b1 t1] o1].
    rewrite IH.
    destruct (parseLines l1 b1 t1) as [[b2 t2] o2].
    destruct (parseLines l2 b2 t2) as [[b3 t3] o3].
    rewrite app_assoc. reflexivity.
Qed.

Lemma removelast_app_nonempty {A} (l1 l2 : list A) :
  l2 <> [] -> removelast (l1 ++ l2) = l1 ++ removelast l2.
Proof. intros H. apply removelast_app, H. Qed.

Lemma last_app_nonempty {A} (l1 l2 : list A) d :
  l2 <> [] -> List.last (l1 ++ l2) d = List.last l2 d.
Proof.
  intros H. induction l1 as [|x l1 IH]; [reflexivity|].
  simpl. rewrite IH. destruct (l1 ++ l2) eqn:E; [|reflexivity].
  apply app_eq_nil in E as [_ E]. contradiction.
Qed.

(** Two chunks in a row act as their concatenation in one chunk. *)
Lemma read_chunk_app a b r tick :
  read_chunk (a +:+ b) r tick =
  let '(r1, t1, o1) := read_chunk a r tick in
  let '(r2, t2, o2) := read_chunk b r1 t1 in
  (r2, t2, o1 ++ o2).
Proof.
  unfold Decoder.read_chunk.
  rewrite <- append_assoc, split_lf_app.
  pose proof (split_lf_nonempty (List.last (split_lf (rd_partial r +:+ a)) "" +:+ b)) as Hne.
  rewrite (removelast_app_nonempty _ _ Hne), (last_app_nonempty _ _ _ Hne).
  rewrite parseLines_app.
  destruct (parseLines (removelast (split_lf (rd_partial r +:+ a))) (rd_buffer r) tick)
    as [[b1 t1] o1].
  cbn [rd_buffer rd_partial].
  destruct (parseLines _ b1 t1) as [[b2 t2] o2]. reflexivity.
Qed.

Lemma split_lf_lacks s : lacks LF s = true -> split_lf s = [s].
Proof.
  induction s as [|c s IH]; simpl; intros H; [reflexivity|].
  apply andb_prop in H as [Hc Hs]. apply negb_true_iff in Hc.
  rewrite Hc, (IH Hs). reflexivity.
Qed.

Lemma split_lf_last_lacks s : lacks LF (List.last (split_lf s) "") = true.
Proof.
  induction s as [|c s IH]; [reflexivity|].
  cbn [split_lf]. pose proof (split_lf_nonempty s) as Hne.
  destruct (Ascii.eqb c LF) eqn:Hc.
  - destruct (split_lf s) as [|x xs]; [contradiction|]. exact IH.
  - destruct (split_lf s) as [|x xs]; [contradiction|].
    destruct xs as [|y ys]; [|exact IH].
    simpl in *. rewrite Hc, IH. reflexivity.
Qed.

(** An empty chunk changes nothing once the carry-over holds no line feed. *)
Lemma read_chunk_empty r tick :
  lacks LF (rd_partial r) = true -> read_chunk "" r tick = (r, tick, []).
Proof.
  intros H. unfold Decoder.read_chunk.
  rewrite append_nil_r, (split_lf_lacks _ H). simpl. destruct r; reflexivity.
Qed.

Lemma read_chunk_partial_lacks text r tick :
  lacks LF (rd_partial (read_chunk text r tick).1.1) = true.
Proof.
  unfold Decoder.read_chunk.
  destruct (parseLines _ _ _) as [[b t] o]. simpl. apply split_lf_last_lacks.
Qed.

Lemma read_chunks_concat chunks r tick :
  lacks LF (rd_partial r) = true ->
  read_chunks chunks r tick = read_chunk (concat_chunks chunks) r tick.
Proof.
  revert r tick. induction chunks as [|c cs IH]; intros r tick Hr.
  - simpl. symmetry. apply read_chunk_empty, Hr.
  - cbn [Decoder.read_chunks concat_chunks]. rewrite read_chunk_app.
    pose proof (read_chunk_partial_lacks c r tick) as H1.
    destruct (read_chunk c r tick) as [[r1 t1] o1]. simpl in H1.
    rewrite (IH r1 t1 H1). reflexivity.
Qed.

(** C1: whatever the partition of a text into chunks, feeding the chunks
    one after the other to a reader that starts with an empty carry-over
    yields the same messages, in the same order, as feeding the whole text
    in one chunk; the frame, the carry-over and the number of clock
    readings left behind agree as well. *)
Theorem chunk_boundary_invariance (chunks : list string) (buffer : SSEEventBuffer) (tick : nat) :
  read_chunks chunks (mkReader buffer "") tick =
  read_chunk (concat_chunks chunks) (mkReader buffer "") tick.
Proof. apply read_chunks_concat. reflexivity. Qed.

Lemma parseLine_normalized l1 l2 buffer tick :
  strip_cr l1 = strip_cr l2 -> parseLine l1 buffer tick = parseLine l2 buffer tick.
Proof. intros H. unfold Decoder.parseLine. rewrite H. reflexivity. Qed.

Lemma split_terminated_LF lines :
  Forall (fun l => lacks LF l = true) lines ->
  split_lf (terminate_lines eol_LF lines) = lines ++ [""].
Proof.
  induction 1 as [|l ls Hl _ IH]; [reflexivity|].
  cbn [terminate_lines].
  change (l +:+ eol_LF +:+ terminate_lines eol_LF ls)
    with (l +:+ String LF (terminate_lines eol_LF ls)).
  rewrite (split_lf_line _ _ Hl), IH. reflexivity.
Qed.

Lemma split_terminated_CRLF lines :
  Forall (fun l => lacks LF l = true) lines ->
  split_lf (terminate_lines eol_CRLF lines) =
  map (fun l => l +:+ String CR "") lines ++ [""].
Proof.
  induction 1 as [|l ls Hl _ IH]; [reflexivity|].
  cbn [terminate_lines map].
  assert (E : l +:+ eol_CRLF +:+ terminate_lines eol_CRLF ls =
              (l +:+ String CR "") +:+ String LF (terminate_lines eol_CRLF ls)).
  { rewrite append_assoc. reflexivity. }
  rewrite E, split_lf_line.
  - rewrite IH. reflexivity.
  - rewrite lacks_app, Hl. reflexivity.
Qed.

Lemma parseLines_CR lines buffer tick :
  Forall (fun l => endsWith l CR = false) lines ->
  parseLines (map (fun l => l +:+ String CR "") lines) buffer tick =
  parseLines lines buffer tick.
Proof.
  intros H. revert buffer tick. induction H as [|l ls Hl _ IH]; intros buffer tick.
  - reflexivity.
  - cbn [map Decoder.parseLines].
    rewrite (parseLine_normalized (l +:+ String CR "") l).
    2:{ rewrite strip_cr_snoc, (strip_cr_id _ Hl). reflexivity. }
    destruct (parseLine l buffer tick) as [[b1 t1] o1]. rewrite IH. reflexivity.
Qed.

(** C10: a carriage return at the end of a line is removed, and only one,
    before the line is interpreted, and the interpretation depends on
    nothing else of the line.  Hence a stream of lines (none containing a
    line feed or ending in a carriage return of its own) decodes to the
    same messages, frame and carry-over whether every line ends in CR LF
    or in LF. *)
Theorem crlf_decodes_as_lf :
  (forall l, strip_cr (l +:+ String CR "") = l)
  /\ (forall l1 l2 buffer tick,
        strip_cr l1 = strip_cr l2 ->
        parseLine l1 buffer tick = parseLine l2 buffer tick)
  /\ (forall lines buffer tick,
        Forall (fun l => lacks LF l = true /\ endsWith l CR = false) lines ->
        read_chunk (terminate_lines eol_CRLF lines) (mkReader buffer "") tick =
        read_chunk (terminate_lines eol_LF lines) (mkReader buffer "") tick).
Proof.
  split; [exact strip_cr_snoc|]. split; [exact parseLine_normalized|].
  intros lines buffer tick H.
  assert (Hlf : Forall (fun l => lacks LF l = true) lines).
  { eapply Forall_impl; [exact H|]. intros l [Hl _]. exact Hl. }
  assert (Hcr : Forall (fun l => endsWith l CR = false) lines).
  { eapply Forall_impl; [exact H|]. intros l [_ Hl]. exact Hl. }
  unfold Decoder.read_chunk. cbn [rd_partial rd_buffer String.append].
  rewrite (split_terminated_CRLF _ Hlf), (split_terminated_LF _ Hlf).
  rewrite !removelast_last, !last_last.
  rewrite (parseLines_CR _ _ _ Hcr). reflexivity.
Qed.

End DecoderFacts.

(** ** Request construction and the life cycle *)

Section ClientFacts.

Variable JSON_parse : string -> option JSValue.
Variable JSON_stringify : JSValue -> string.
Variable clock : nat -> string.

#[local] Abbreviation build_request := (build_request JSON_stringify).
#[local] Abbreviation connect := (connect JSON_stringify).
#[local] Abbreviation step := (step JSON_parse JSON_stringify clock).
#[local] Abbreviation run := (run JSON_parse JSON_stringify clock).
#[local] Abbreviation fail_repeatedly := (fail_repeatedly JSON_parse JSON_stringify clock).

Lemma spread_headers_caller hs name value :
  hs !! name = Some value -> spread_headers (Some hs) !! name = Some value.
Proof. intros H. unfold spread_headers. simpl. apply lookup_union_Some_l, H. Qed.

Lemma spread_headers_default hs name :
  default ∅ hs !! name = None ->
  spread_headers hs !! name =
  (<["Accept" := "text/event-stream"]> (<["Cache-Control" := "no-cache"]> ∅)
     : gmap string string) !! name.
Proof. intros H. unfold spread_headers. apply lookup_union_r, H. Qed.

(** What [disconnect] leaves behind, field by field. *)
Lemma disconnect_spec b w :
  abortController (disconnect b w) = None
  /\ reconnectTimeout (disconnect b w) = None
  /\ reconnectAttempts (disconnect b w) = (if b then 0 else reconnectAttempts w)
  /\ options (disconnect b w) = options w
  /\ conn_count (disconnect b w) = conn_count w
  /\ timer_count (disconnect b w) = timer_count w
  /\ ticks (disconnect b w) = ticks w
  /\ conns (disconnect b w) =
     match abortController w with
     | Some k => alter aborted_conn k (conns w)
     | None => conns w
     end
  /\ timers (disconnect b w) =
     match reconnectTimeout w with
     | Some t => delete t (timers w)
     | None => timers w
     end
  /\ trace (disconnect b w) =
     trace w
     ++ match abortController w with Some k => [Abort k] | None => [] end
     ++ match reconnectTimeout w with Some t => [ClearTimeout t] | None => [] end.
Proof.
  destruct w as [[k|] [t|] ra op cs tm cc tc tk tr]; destruct b; cbn;
    rewrite <- ?app_assoc, ?app_nil_r; repeat split; reflexivity.
Qed.

Lemma connect_trace w :
  trace (connect w) =
  trace (disconnect false w) ++
  [Fetch (conn_count w) (url (options w)) (build_request (options w))].
Proof.
  destruct w as [[k|] [t|] ra op cs tm cc tc tk tr]; reflexivity.
Qed.

(** C3 (as amended): the request of every connection is the one built from
    the options.  It carries every caller-supplied header, and [Accept:
    text/event-stream] and [Cache-Control: no-cache] unless the caller
    supplies a header of that name, whose value is then the one sent.  For
    a POST with a body other than the empty string, a string body is
    passed through unchanged, a record body is JSON-encoded, and
    [Content-Type: application/json] is set in both cases, over any
    caller-supplied value. *)
Theorem request_construction (w : World) :
  let opts := options w in
  let req := build_request opts in
  (exists k, trace (connect w) =
             trace (disconnect false w) ++ [Fetch k (url opts) req])
  /\ (forall hs name value,
        headers opts = Some hs -> hs !! name = Some value ->
        name <> "Content-Type" \/ is_POST (ri_method req) && body_truthy (body opts) = false ->
        ri_headers req !! name = Some value)
  /\ (default ∅ (headers opts) !! "Accept" = None ->
      ri_headers req !! "Accept" = Some "text/event-stream")
  /\ (default ∅ (headers opts) !! "Cache-Control" = None ->
      ri_headers req !! "Cache-Control" = Some "no-cache")
  /\ (method opts = Some POST ->
      (forall s, body opts = Some (BodyString s) -> s <> "" ->
         ri_body req = Some s
         /\ ri_headers req !! "Content-Type" = Some "application/json")
      /\ (forall v, body opts = Some (BodyRecord v) ->
         ri_body req = Some (JSON_stringify v)
         /\ ri_headers req !! "Content-Type" = Some "application/json")).
Proof.
  cbv zeta. split; [|split; [|split; [|split]]].
  - exists (conn_count w). apply connect_trace.
  - intros hs name value Hhs Hname Hcase. unfold Client.build_request in *.
    rewrite Hhs.
    destruct (is_POST (default GET (method (options w))) && body_truthy (body (options w)))
      eqn:Hpost; cbn [ri_headers ri_method] in *.
    + destruct Hcase as [Hne|Hf]; [|congruence].
      rewrite lookup_insert_ne by congruence.
      apply spread_headers_caller, Hname.
    + apply spread_headers_caller, Hname.
  - intros Hnone. unfold Client.build_request.
    destruct (is_POST _ && body_truthy _); cbn [ri_headers].
    + rewrite lookup_insert_ne by discriminate.
      rewrite (spread_headers_default _ _ Hnone). reflexivity.
    + rewrite (spread_headers_default _ _ Hnone). reflexivity.
  - intros Hnone. unfold Client.build_request.
    destruct (is_POST _ && body_truthy _); cbn [ri_headers].
    + rewrite lookup_insert_ne by discriminate.
      rewrite (spread_headers_default _ _ Hnone). reflexivity.
    + rewrite (spread_headers_default _ _ Hnone). reflexivity.
  - intros Hpost. split.
    + intros s Hbody Hs. unfold Client.build_request. rewrite Hpost, Hbody.
      apply String.eqb_neq in Hs. cbn [default is_POST body_truthy andb]. rewrite Hs.
      cbn [negb ri_body ri_headers]. split; [reflexivity|]. apply lookup_insert_eq.
    + intros v Hbody. unfold Client.build_request. rewrite Hpost, Hbody.
      cbn [default is_POST body_truthy andb ri_body ri_headers].
      split; [reflexivity|]. apply lookup_insert_eq.
Qed.

Lemma step_read w k c r o :
  conns w !! k = Some c -> c_phase c = Reading r ->
  step w (ReadSettles k o) = on_read JSON_parse clock k c r o w.
Proof. intros Hk Hph. unfold Client.step. rewrite Hk, Hph. reflexivity. Qed.

Lemma step_fetch w k c o :
  conns w !! k = Some c -> c_phase c = Fetching ->
  step w (FetchSettles k o) = on_fetch k c o w.
Proof. intros Hk Hph. unfold Client.step. rewrite Hk, Hph. reflexivity. Qed.

Lemma step_settled w k c e :
  conns w !! k = Some c -> c_phase c = Settled -> addressee e = Some k ->
  step w e = w.
Proof.
  intros Hk Hph Ha. destruct e; try discriminate; simpl in Ha;
    injection Ha as ->; unfold Client.step; rewrite Hk, Hph; reflexivity.
Qed.

(** C9: when a read reports the end of the stream the loop ends: [onClose]
    is the only effect, no error is reported, no retry is scheduled, the
    attempt count and the client's handles are untouched, and nothing that
    is later addressed to that connection has any effect.  The
    auto-reconnect setting of the connection plays no part. *)
Theorem end_of_stream_closes (w : World) (k : nat) (c : Conn) (r : Reader) :
  conns w !! k = Some c -> c_phase c = Reading r ->
  let w' := step w (ReadSettles k Done) in
  emitted w w' = [OnClose]
  /\ conns w' !! k = Some (with_phase Settled c)
  /\ timers w' = timers w
  /\ reconnectTimeout w' = reconnectTimeout w
  /\ reconnectAttempts w' = reconnectAttempts w
  /\ abortController w' = abortController w
  /\ (forall e, addressee e = Some k -> step w' e = w').
Proof.
  intros Hk Hph. cbv zeta. rewrite (step_read _ _ _ _ _ Hk Hph).
  assert (Hk' : conns (on_read JSON_parse clock k c r Done w) !! k =
                Some (with_phase Settled c)).
  { simpl. rewrite lookup_alter_eq, Hk. reflexivity. }
  repeat split; try reflexivity.
  - unfold emitted. simpl. apply drop_app_length.
  - exact Hk'.
  - intros e He. eapply step_settled; [exact Hk'| reflexivity | exact He].
Qed.

(** *** The invariant *)

Lemma consistent_ext w w' :
  abortController w' = abortController w ->
  reconnectTimeout w' = reconnectTimeout w ->
  conns w' = conns w -> timers w' = timers w ->
  conn_count w' = conn_count w ->
  consistent w -> consistent w'.
Proof.
  intros Ha Hr Hc Ht Hn [H1 H2 H3 H4].
  split; rewrite ?Ha, ?Hr, ?Hc, ?Ht, ?Hn; assumption.
Qed.

Lemma consistent_new opts : consistent (new_client opts).
Proof. split; simpl; intros *; rewrite lookup_empty; discriminate. Qed.

Lemma lookup_alter_inv (f : Conn -> Conn) (m : gmap nat Conn) k k' c' :
  alter f k m !! k' = Some c' ->
  exists c0, m !! k' = Some c0 /\ ((k' = k /\ c' = f c0) \/ (k' <> k /\ c' = c0)).
Proof.
  intros H. apply lookup_alter_Some in H as [(-> & c0 & H0 & ->)|(Hne & H0)].
  - exists c0. split; [exact H0|]. left. split; reflexivity.
  - exists c'. split; [exact H0|]. right. split; [congruence|reflexivity].
Qed.

Lemma consistent_set_phase w k c ph :
  consistent w -> conns w !! k = Some c -> c_phase c <> Settled ->
  consistent (set_phase k ph w).
Proof.
  intros [H1 H2 H3 H4] Hk Hph. split; simpl.
  - intros k' c' H. apply lookup_alter_inv in H as (c0 & H0 & _). eauto.
  - exact H2.
  - intros k' c' H Hab Hns.
    apply lookup_alter_inv in H as (c0 & H0 & [(-> & ->)|(Hne & ->)]).
    + simpl in Hab. rewrite Hk in H0. injection H0 as <-. eauto.
    + eauto.
  - intros t d k' c' Ht H Hab.
    apply lookup_alter_inv in H as (c0 & H0 & [(-> & ->)|(Hne & ->)]).
    + simpl in Hab. rewrite Hk in H0. injection H0 as <-.
      exfalso. apply Hph. eauto.
    + eauto.
Qed.

Lemma timers_cleared w :
  consistent w ->
  match reconnectTimeout w with
  | Some t => delete t (timers w)
  | None => timers w
  end = ∅.
Proof.
  intros [_ H2 _ _]. apply map_empty. intros t.
  destruct (reconnectTimeout w) as [t0|] eqn:Hrt.
  - destruct (decide (t0 = t)) as [->|Hne]; [apply lookup_delete_eq|].
    rewrite lookup_delete_ne by exact Hne.
    destruct (timers w !! t) as [d|] eqn:Ht; [|reflexivity].
    specialize (H2 _ _ Ht). congruence.
  - destruct (timers w !! t) as [d|] eqn:Ht; [|reflexivity].
    specialize (H2 _ _ Ht). congruence.
Qed.

Lemma disconnect_quiet b w :
  consistent w -> consistent (disconnect b w) /\ quiet (disconnect b w).
Proof.
  intros Hw.
  destruct (disconnect_spec b w) as (Ha & Hr & _ & _ & Hn & _ & _ & Hc & Ht & _).
  rewrite (timers_cleared w Hw) in Ht.
  assert (Hq : forall k c, conns (disconnect b w) !! k = Some c ->
                           c_aborted c = false -> c_phase c = Settled).
  { intros k c H Hab. rewrite Hc in H. destruct Hw as [_ _ H3 _].
    assert (Hcase : c_phase c = Settled \/ c_phase c <> Settled).
    { destruct (c_phase c); [right|right|left]; congruence. }
    destruct Hcase as [Hs|Hns]; [exact Hs|exfalso].
    destruct (abortController w) as [k0|] eqn:Hac.
    - apply lookup_alter_inv in H as (c0 & H0 & [(-> & ->)|(Hne & ->)]).
      + discriminate.
      + specialize (H3 _ _ H0 Hab Hns). congruence.
    - specialize (H3 _ _ H Hab Hns). discriminate. }
  split; [split|repeat split]; try assumption.
  - rewrite Hn, Hc. destruct Hw as [H1 _ _ _]. intros k c H.
    destruct (abortController w); [apply lookup_alter_inv in H as (c0 & H0 & _)|]; eauto.
  - rewrite Ht. intros t d H. rewrite lookup_empty in H. discriminate.
  - intros k c H Hab Hns. exfalso. apply Hns. eauto.
  - rewrite Ht. intros t d k c H. rewrite lookup_empty in H. discriminate.
Qed.

Lemma connect_spec w :
  abortController (connect w) = Some (conn_count w)
  /\ reconnectTimeout (connect w) = None
  /\ reconnectAttempts (connect w) = reconnectAttempts w
  /\ options (connect w) = options w
  /\ conn_count (connect w) = S (conn_count w)
  /\ timer_count (connect w) = timer_count w
  /\ conns (connect w) = <[conn_count w := fresh_conn (options w)]> (conns (disconnect false w))
  /\ timers (connect w) = timers (disconnect false w).
Proof.
  destruct w as [[k|] [t|] ra op cs tm cc tc tk tr]; cbn; repeat split; reflexivity.
Qed.

Lemma connect_consistent w : consistent w -> consistent (connect w).
Proof.
  intros Hw. destruct (disconnect_quiet false w Hw) as [[H1 _ _ _] (_ & _ & Ht & Hq)].
  destruct (disconnect_spec false w) as (_ & _ & _ & _ & Hn & _).
  destruct (connect_spec w) as (Ha & Hr & _ & _ & Hn' & _ & Hc & Ht').
  rewrite Ht in Ht'. rewrite Hn in H1.
  split; rewrite ?Ha, ?Hr, ?Hn', ?Hc, ?Ht'.
  - intros k c H. apply lookup_insert_Some in H as [[<- _]|[_ H]]; [lia|].
    specialize (H1 _ _ H). lia.
  - intros t d H. rewrite lookup_empty in H. discriminate.
  - intros k c H Hab Hns. apply lookup_insert_Some in H as [[<- _]|[_ H]]; [reflexivity|].
    exfalso. apply Hns. eauto.
  - intros t d k c H. rewrite lookup_empty in H. discriminate.
Qed.

Lemma on_catch_consistent w k c f :
  consistent w -> conns w !! k = Some c -> c_phase c <> Settled ->
  consistent (on_catch k c f w).
Proof.
  intros Hw Hk Hph. pose proof (consistent_set_phase w k c Settled Hw Hk Hph) as Hs.
  unfold Client.on_catch.
  destruct (c_aborted c) eqn:Hab; [exact Hs|].
  destruct (c_autoReconnect c); [|eapply consistent_ext; [..|exact Hs]; reflexivity].
  destruct (_ || _); [|eapply consistent_ext; [..|exact Hs]; reflexivity].
  assert (Hnone : forall t, timers w !! t = None).
  { intros t. destruct (timers w !! t) as [d|] eqn:Ht; [|reflexivity].
    exfalso. apply Hph. destruct Hw as [_ _ _ H4]. eauto. }
  assert (Hidle : forall k' c', conns (set_phase k Settled w) !! k' = Some c' ->
                                c_aborted c' = false -> c_phase c' = Settled).
  { intros k' c' H Hab'. simpl in H.
    apply lookup_alter_inv in H as (c0 & H0 & [(-> & ->)|(Hne & ->)]); [reflexivity|].
    destruct (c_phase c0) eqn:Hp0; [exfalso|exfalso|reflexivity].
    all: destruct Hw as [_ _ H3 _];
      assert (abortController w = Some k') by (eapply H3; eauto; congruence);
      assert (abortController w = Some k) by (eapply H3; eauto);
      congruence. }
  destruct Hs as [H1 _ _ _]. split; cbn.
  - exact H1.
  - intros t d H. apply lookup_insert_Some in H as [[<- _]|[_ H]]; [reflexivity|].
    rewrite Hnone in H. discriminate.
  - intros k' c' H Hab' Hns. exfalso. apply Hns. eapply Hidle; eauto.
  - intros t d k' c' _ H Hab'. eapply Hidle; eauto.
Qed.

Lemma step_consistent w e : consistent w -> consistent (step w e).
Proof.
  intros Hw. destruct e as [|b|t|k o|k o]; simpl.
  - apply connect_consistent, Hw.
  - apply disconnect_quiet, Hw.
  - destruct (timers w !! t) as [d|] eqn:Ht; [|exact Hw].
    apply connect_consistent. destruct Hw as [H1 H2 H3 H4]. split; simpl.
    + exact H1.
    + intros t' d' H. apply lookup_delete_Some in H as [_ H]. eauto.
    + exact H3.
    + intros t' d' k c H. apply lookup_delete_Some in H as [_ H]. eauto.
  - destruct (conns w !! k) as [c|] eqn:Hk; [|exact Hw].
    destruct (c_phase c) eqn:Hph; try exact Hw.
    assert (Hns : c_phase c <> Settled) by congruence.
    unfold on_fetch. destruct o as [resp|reason].
    + destruct (negb (ok resp)); [apply on_catch_consistent; assumption|].
      destruct (negb (has_body resp)); [apply on_catch_consistent; assumption|].
      eapply consistent_ext;
        [..|exact (consistent_set_phase w k c (Reading new_reader) Hw Hk Hns)];
        reflexivity.
    + apply on_catch_consistent; assumption.
  - destruct (conns w !! k) as [c|] eqn:Hk; [|exact Hw].
    destruct (c_phase c) as [|r|] eqn:Hph; try exact Hw.
    assert (Hns : c_phase c <> Settled) by congruence.
    unfold on_read. destruct o as [text| |reason].
    + destruct (read_chunk _ _ _ _ _) as [[r' tick'] out].
      eapply consistent_ext;
        [..|exact (consistent_set_phase w k c (Reading r') Hw Hk Hns)];
        reflexivity.
    + eapply consistent_ext;
        [..|exact (consistent_set_phase w k c Settled Hw Hk Hns)];
        reflexivity.
    + apply on_catch_consistent; assumption.
Qed.

Lemma run_consistent es w : consistent w -> consistent (run es w).
Proof.
  revert w. induction es as [|e es IH]; intros w Hw; [exact Hw|].
  simpl. apply IH, step_consistent, Hw.
Qed.

Lemma reachable_consistent opts es : consistent (run es (new_client opts)).
Proof. apply run_consistent, consistent_new. Qed.

Lemma in_flight_controller w k :
  consistent w -> in_flight w k -> abortController w = Some k.
Proof. intros [_ _ H3 _] (c & Hk & Hab & Hph). eauto. Qed.

Lemma pending_timer_known w t :
  consistent w -> is_Some (timers w !! t) -> reconnectTimeout w = Some t.
Proof. intros [_ H2 _ _] [d Ht]. eauto. Qed.

Lemma quiet_not_in_flight w k : quiet w -> ~ in_flight w k.
Proof.
  intros (_ & _ & _ & Hq) (c & Hk & Hab & Hph). apply Hph. eauto.
Qed.

(** C5: in every state the client can reach, at most one connection is in
    flight, and it is the one of the abort controller; at most one retry
    timeout is pending, and it is the one the client remembers.  [connect]
    first performs [disconnect(false)]: after it only the new connection
    is in flight, no timeout is pending and the attempt count is kept.
    [disconnect] leaves nothing in flight and nothing pending, and clears
    the attempt count exactly when [resetAttempts] is true. *)
Theorem single_request_single_timer (opts : SSEClientOptions) (es : list Event) :
  let w := run es (new_client opts) in
  (forall k1 k2, in_flight w k1 -> in_flight w k2 -> k1 = k2)
  /\ (forall k, in_flight w k -> abortController w = Some k)
  /\ (forall t1 t2, is_Some (timers w !! t1) -> is_Some (timers w !! t2) -> t1 = t2)
  /\ (forall t, is_Some (timers w !! t) -> reconnectTimeout w = Some t)
  /\ (let w' := connect w in
      trace w' =
      trace (disconnect false w)
      ++ [Fetch (conn_count w) (url (options w)) (build_request (options w))]
      /\ conns w' = <[conn_count w := fresh_conn (options w)]> (conns (disconnect false w))
      /\ (forall k, in_flight w' k <-> k = conn_count w)
      /\ timers w' = ∅
      /\ reconnectAttempts w' = reconnectAttempts w)
  /\ (forall b, let w' := disconnect b w in
      (forall k, ~ in_flight w' k)
      /\ timers w' = ∅
      /\ abortController w' = None
      /\ reconnectTimeout w' = None
      /\ reconnectAttempts w' = if b then 0 else reconnectAttempts w).
Proof.
  cbv zeta. pose proof (reachable_consistent opts es) as Hw.
  set (w := run es (new_client opts)) in *.
  split; [|split; [|split; [|split; [|split]]]].
  - intros k1 k2 H1 H2.
    pose proof (in_flight_controller _ _ Hw H1).
    pose proof (in_flight_controller _ _ Hw H2). congruence.
  - intros k. apply in_flight_controller, Hw.
  - intros t1 t2 H1 H2.
    pose proof (pending_timer_known _ _ Hw H1).
    pose proof (pending_timer_known _ _ Hw H2). congruence.
  - intros t. apply pending_timer_known, Hw.
  - destruct (disconnect_quiet false w Hw) as [_ Hq].
    destruct (connect_spec w) as (_ & _ & Hra & _ & _ & _ & Hc & Ht).
    split; [apply connect_trace|]. split; [exact Hc|]. split; [|split].
    + intros k. split.
      * intros (c & Hk & Hab & Hph). rewrite Hc in Hk.
        apply lookup_insert_Some in Hk as [[<- _]|[_ Hk]]; [reflexivity|].
        exfalso. apply Hph. destruct Hq as (_ & _ & _ & Hq). eauto.
      * intros ->. exists (fresh_conn (options w)). rewrite Hc, lookup_insert_eq.
        repeat split. discriminate.
    + rewrite Ht. apply Hq.
    + exact Hra.
  - intros b. destruct (disconnect_quiet b w Hw) as [_ Hq].
    destruct (disconnect_spec b w) as (Ha & Hr & Hra & _).
    split; [intros k; apply quiet_not_in_flight, Hq|].
    split; [apply Hq|]. repeat split; assumption.
Qed.

(** *** Cancellation *)


Lemma emitted_app w w' es : trace w' = trace w ++ es -> emitted w w' = es.
Proof. intros H. unfold emitted. rewrite H. apply drop_app_length. Qed.





(** *** Reconnection *)

Lemma retry_allowed_test c attempts :
  retry_allowed c attempts <->
  c_autoReconnect c
  && ((c_maxReconnectAttempts c =? 0)%Z
      || (Z.of_nat attempts <? c_maxReconnectAttempts c)%Z) = true.
Proof.
  unfold retry_allowed.
  rewrite andb_true_iff, orb_true_iff, Z.eqb_eq, Z.ltb_lt. reflexivity.
Qed.

Lemma on_catch_retry w k c f :
  c_aborted c = false -> retry_allowed c (reconnectAttempts w) ->
  let w' := on_catch k c f w in
  trace w' = trace w ++ [OnError f; SetTimeout (timer_count w) (c_reconnectDelay c)]
  /\ timers w' = <[timer_count w := c_reconnectDelay c]> (timers w)
  /\ reconnectTimeout w' = Some (timer_count w)
  /\ reconnectAttempts w' = S (reconnectAttempts w)
  /\ abortController w' = abortController w
  /\ options w' = options w
  /\ conn_count w' = conn_count w
  /\ conns w' = alter (with_phase Settled) k (conns w).
Proof.
  intros Hab Hallowed. apply retry_allowed_test in Hallowed.
  apply andb_true_iff in Hallowed as [Hauto Hroom].
  cbv zeta. unfold Client.on_catch. rewrite Hab, Hauto. cbn.
  rewrite Hroom. cbn. rewrite <- app_assoc. repeat split; reflexivity.
Qed.

Lemma on_catch_stop w k c f :
  c_aborted c = false -> ~ retry_allowed c (reconnectAttempts w) ->
  let w' := on_catch k c f w in
  trace w' = trace w ++ [OnError f]
  /\ timers w' = timers w
  /\ reconnectTimeout w' = reconnectTimeout w
  /\ reconnectAttempts w' = reconnectAttempts w
  /\ abortController w' = abortController w
  /\ conns w' = alter (with_phase Settled) k (conns w).
Proof.
  intros Hab Hno. rewrite retry_allowed_test in Hno. apply not_true_is_false in Hno.
  cbv zeta. unfold Client.on_catch. rewrite Hab.
  destruct (c_autoReconnect c); cbn in *; [rewrite Hno|]; repeat split; reflexivity.
Qed.

Lemma failure_step w k c e :
  conns w !! k = Some c -> is_failure (c_phase c) k e = true ->
  exists f, step w e = on_catch k c f w.
Proof.
  intros Hk He. destruct (c_phase c) as [|r|] eqn:Hph; simpl in He.
  - destruct e as [| | |k' o|]; try discriminate.
    apply andb_true_iff in He as [Hkk Ho]. apply Nat.eqb_eq in Hkk. subst k'.
    rewrite (step_fetch _ _ _ _ Hk Hph). unfold on_fetch.
    destruct o as [resp|reason]; [|eauto]. simpl in Ho.
    destruct (negb (ok resp)); [eauto|].
    destruct (negb (has_body resp)); [eauto|discriminate].
  - destruct e as [| | | |k' o]; try discriminate.
    destruct o as [| |reason]; try discriminate.
    apply Nat.eqb_eq in He. subst k'.
    rewrite (step_read _ _ _ _ _ Hk Hph). simpl. eauto.
  - discriminate.
Qed.

Lemma fault_is_failure ph k f :
  fault_at ph f = true -> is_failure ph k (fault_event k f) = true.
Proof.
  destruct ph, f; simpl; try discriminate; rewrite Nat.eqb_refl; auto.
Qed.

(** One failure with room left, followed by the timeout: the client waits
    on a new connection with one more attempt counted. *)
Lemma retry_round N a w k c f :
  armed N a w k c -> a < N -> fault_at (c_phase c) f = true ->
  let w1 := step w (fault_event k f) in
  reconnectTimeout w1 = Some (timer_count w)
  /\ let w2 := step w1 (TimerFires (timer_count w)) in
     armed N (S a) w2 (conn_count w) (fresh_conn (options w))
     /\ options w2 = options w
     /\ exists es, trace w2 = trace w ++ es /\ retries es = 1.
Proof.
  intros [Hoa Hom Hac Hk Hlive Hauto Hmax Htm Hrt Hat] Hlt Hf. cbv zeta.
  destruct (failure_step w k c _ Hk (fault_is_failure _ k _ Hf)) as (fl & ->).
  assert (Hallowed : retry_allowed c (reconnectAttempts w)).
  { split; [exact Hauto|]. right. rewrite Hmax, Hat. lia. }
  destruct (on_catch_retry w k c fl Hlive Hallowed)
    as (Htr1 & Htm1 & Hrt1 & Hat1 & Hac1 & Hop1 & Hcc1 & Hc1).
  set (w1 := on_catch k c fl w) in *.
  split; [exact Hrt1|].
  unfold Client.step. rewrite Htm1, lookup_insert_eq.
  set (w1' := set_timers (delete (timer_count w) (<[timer_count w:=c_reconnectDelay c]> (timers w))) w1).
  destruct (connect_spec w1') as (Ha2 & Hr2 & Hat2 & Hop2 & _ & _ & Hc2 & Ht2).
  destruct (disconnect_spec false w1') as (_ & _ & _ & _ & _ & _ & _ & _ & Htd & Htrd).
  pose proof (connect_trace w1') as Htr2.
  change (options w1') with (options w1) in *.
  change (conn_count w1') with (conn_count w1) in *.
  change (reconnectAttempts w1') with (reconnectAttempts w1) in *.
  change (reconnectTimeout w1') with (reconnectTimeout w1) in *.
  change (abortController w1') with (abortController w1) in *.
  change (trace w1') with (trace w1) in *.
  change (timers w1') with
    (delete (timer_count w) (<[timer_count w:=c_reconnectDelay c]> (timers w))) in *.
  rewrite Hop1 in *. rewrite Hcc1 in *. rewrite Hrt1 in *. rewrite Hac1, Hac in *.
  split; [split|split].
  - rewrite Hop2. exact Hoa.
  - rewrite Hop2. exact Hom.
  - exact Ha2.
  - rewrite Hc2. apply lookup_insert_eq.
  - reflexivity.
  - exact Hoa.
  - exact Hom.
  - rewrite Ht2, Htd, Htm. apply map_empty. intros t.
    rewrite !lookup_delete, lookup_insert, lookup_empty.
    repeat case_decide; reflexivity.
  - exact Hr2.
  - rewrite Hat2, Hat1, Hat. reflexivity.
  - exact Hop2.
  - eexists. split.
    + rewrite Htr2, Htrd, Htr1, <- !app_assoc. reflexivity.
    + reflexivity.
Qed.

Lemma retries_app es1 es2 : retries (es1 ++ es2) = retries es1 + retries es2.
Proof. unfold retries. rewrite List.filter_app, length_app. reflexivity. Qed.

Lemma retry_rounds N fs :
  forall a w k c f0,
    armed N a w k c -> fault_at (c_phase c) f0 = true ->
    Forall (fun f => fault_at Fetching f = true) fs ->
    a + S (length fs) <= N ->
    let w' := fail_repeatedly (f0 :: fs) w in
    options w' = options w
    /\ (exists k', armed N (a + S (length fs)) w' k' (fresh_conn (options w)))
    /\ exists es, trace w' = trace w ++ es /\ retries es = S (length fs).
Proof.
  induction fs as [|f1 fs IH]; intros a w k c f0 Harmed Hf0 Hfs Hle; cbv zeta.
  - destruct (retry_round N a w k c f0 Harmed ltac:(simpl in Hle; lia) Hf0)
      as (Hrt & Ha & Hop & es & Htr & Hes).
    simpl. rewrite (armed_controller _ _ _ _ _ Harmed), Hrt.
    split; [exact Hop|]. split.
    + exists (conn_count w). replace (a + 1) with (S a) by lia. exact Ha.
    + exists es. split; assumption.
  - destruct (retry_round N a w k c f0 Harmed ltac:(simpl in Hle; lia) Hf0)
      as (Hrt & Ha & Hop & es & Htr & Hes).
    apply Forall_cons in Hfs as [Hf1 Hfs].
    change (fail_repeatedly (f0 :: f1 :: fs) w) with
      (match abortController w with
       | Some k =>
           let w1 := step w (fault_event k f0) in
           match reconnectTimeout w1 with
           | Some t => fail_repeatedly (f1 :: fs) (step w1 (TimerFires t))
           | None => w1
           end
       | None => w
       end).
    rewrite (armed_controller _ _ _ _ _ Harmed). cbv zeta. rewrite Hrt.
    set (w2 := step (step w (fault_event k f0)) (TimerFires (timer_count w))) in *.
    destruct (IH (S a) w2 (conn_count w) (fresh_conn (options w)) f1 Ha Hf1 Hfs
                ltac:(simpl in *; lia)) as (Hop' & (k' & Ha') & es' & Htr' & Hes').
    split; [congruence|]. split.
    + exists k'. rewrite Hop in Ha'.
      replace (a + S (length (f1 :: fs))) with (S a + S (length fs)) by (simpl; lia).
      exact Ha'.
    + exists (es ++ es'). split.
      * rewrite Htr', Htr, app_assoc. reflexivity.
      * rewrite retries_app, Hes, Hes'. reflexivity.
Qed.

(** C2: a failure of a connection that was not cancelled schedules a retry
    exactly when automatic reconnection is enabled and the ceiling is zero
    or the attempt count is below it; the retry is a timeout of the
    configured delay and the attempt count grows by one, and without a
    retry nothing but the error report happens.  With ceiling [N > 0],
    [N] consecutive failures each get their retry and the failure after
    them gets none.  A successful open sets the attempt count to zero
    and leaves the client as before the failures, so that the same
    holds again. *)
Theorem reconnection_policy :
  (forall w k c e,
     conns w !! k = Some c -> c_aborted c = false ->
     is_failure (c_phase c) k e = true ->
     let w' := step w e in
     ((exists t d, SetTimeout t d ∈ emitted w w') <->
      retry_allowed c (reconnectAttempts w))
     /\ (retry_allowed c (reconnectAttempts w) ->
         exists f,
           emitted w w' = [OnError f; SetTimeout (timer_count w) (c_reconnectDelay c)]
           /\ timers w' = <[timer_count w := c_reconnectDelay c]> (timers w)
           /\ reconnectTimeout w' = Some (timer_count w)
           /\ reconnectAttempts w' = S (reconnectAttempts w))
     /\ (~ retry_allowed c (reconnectAttempts w) ->
         exists f,
           emitted w w' = [OnError f]
           /\ timers w' = timers w
           /\ reconnectTimeout w' = reconnectTimeout w
           /\ reconnectAttempts w' = reconnectAttempts w))
  /\ (forall N w k c f0 fs,
        0 < N -> armed N 0 w k c ->
        fault_at (c_phase c) f0 = true ->
        Forall (fun f => fault_at Fetching f = true) fs ->
        length (f0 :: fs) = N ->
        let w' := fail_repeatedly (f0 :: fs) w in
        exists k',
          armed N N w' k' (fresh_conn (options w))
          /\ (exists es, trace w' = trace w ++ es /\ retries es = N)
          /\ forall f, fault_at Fetching f = true ->
               let w'' := step w' (fault_event k' f) in
               (exists failure, emitted w' w'' = [OnError failure])
               /\ timers w'' = ∅
               /\ reconnectTimeout w'' = None
               /\ reconnectAttempts w'' = N)
  /\ (forall w k c resp,
        conns w !! k = Some c -> c_phase c = Fetching ->
        ok resp = true -> has_body resp = true ->
        let w' := step w (FetchSettles k (Resolved resp)) in
        reconnectAttempts w' = 0
        /\ emitted w w' = [OnOpen]
        /\ forall N a, armed N a w k c ->
             armed N 0 w' k (with_phase (Reading new_reader) c)).
Proof.
  split; [|split].
  - intros w k c e Hk Hab He. cbv zeta.
    destruct (failure_step w k c e Hk He) as (f & ->).
    assert (Hdec : retry_allowed c (reconnectAttempts w)
                   \/ ~ retry_allowed c (reconnectAttempts w)).
    { rewrite retry_allowed_test. destruct (_ && _); [left|right]; congruence. }
    destruct Hdec as [Hyes|Hno].
    + destruct (on_catch_retry w k c f Hab Hyes) as (Htr & Htm & Hrt & Hat & _).
      rewrite (emitted_app _ _ _ Htr). split; [|split].
      * split; [intros _; exact Hyes|]. intros _.
        exists (timer_count w), (c_reconnectDelay c). set_solver.
      * intros _. exists f. repeat split; assumption.
      * intros Hn. contradiction.
    + destruct (on_catch_stop w k c f Hab Hno) as (Htr & Htm & Hrt & Hat & _).
      rewrite (emitted_app _ _ _ Htr). split; [|split].
      * split; [|intros Hy; contradiction].
        intros (t & d & H). apply list_elem_of_singleton in H. discriminate.
      * intros Hy. contradiction.
      * intros _. exists f. repeat split; assumption.
  - intros N w k c f0 fs HN Harmed Hf0 Hfs Hlen. cbv zeta.
    destruct (retry_rounds N fs 0 w k c f0 Harmed Hf0 Hfs ltac:(simpl in *; lia))
      as (Hop & (k' & Ha) & es & Htr & Hes).
    replace (0 + S (length fs)) with N in Ha by (simpl in *; lia).
    exists k'. split; [exact Ha|]. split.
    { exists es. split; [exact Htr|]. simpl in Hlen. lia. }
    intros f Hf.
    destruct Ha as [_ _ Hac Hk' Hlive Hauto Hmax Htm Hrt Hat].
    destruct (failure_step _ k' _ _ Hk' (fault_is_failure _ k' _ Hf)) as (fl & ->).
    assert (Hno : ~ retry_allowed (fresh_conn (options w))
                    (reconnectAttempts (fail_repeatedly (f0 :: fs) w))).
    { intros [_ [H0|Hroom]]; rewrite Hmax in *; rewrite ?Hat in *; lia. }
    destruct (on_catch_stop _ k' _ fl Hlive Hno) as (Htr' & Htm' & Hrt' & Hat' & _).
    split; [exists fl; apply emitted_app, Htr'|].
    split; [congruence|]. split; congruence.
  - intros w k c resp Hk Hph Hok Hbody. cbv zeta.
    rewrite (step_fetch _ _ _ _ Hk Hph). unfold on_fetch. rewrite Hok, Hbody.
    cbn [negb]. split; [reflexivity|]. split; [apply emitted_app; reflexivity|].
    intros N a [Hoa Hom Hac Hk' Hlive Hauto Hmax Htm Hrt Hat].
    split; cbn; try assumption; try reflexivity.
    rewrite lookup_alter_eq, Hk. reflexivity.
Qed.

End ClientFacts.

(** ** The properties at sample inputs *)

Section Samples.

#[local] Abbreviation parseLine := (parseLine sample_parse sample_clock).
#[local] Abbreviation dispatchMessage := (dispatchMessage sample_parse sample_clock).
#[local] Abbreviation read_chunk := (read_chunk sample_parse sample_clock).
#[local] Abbreviation read_chunks := (read_chunks sample_parse sample_clock).
#[local] Abbreviation step := (step sample_parse sample_stringify sample_clock).
#[local] Abbreviation run := (run sample_parse sample_stringify sample_clock).
#[local] Abbreviation connect := (connect sample_stringify).
#[local] Abbreviation build_request := (build_request sample_stringify).
#[local] Abbreviation fail_repeatedly :=
(fail_repeatedly sample_parse sample_stringify sample_clock).

(** [data: {"a":1}], blank line: one message with the structured payload,
  event [message] and kind [message]. *)
Example frame_structured_payload :
(read_chunk ("data: " +:+ doc_a1 +:+ eol_LF +:+ eol_LF) new_reader 0).2 =
[mkMessage "message" (JStr "message") (JObj [("a", JNum 1%float)])
   (JStr (sample_clock 0))].
Proof. reflexivity. Qed.

(** [data: {"type":"x","timestamp":"T"}], blank line: kind [x] and
  timestamp [T]. *)
Example frame_declared_kind_and_timestamp :
(read_chunk ("data: " +:+ doc_typed +:+ eol_LF +:+ eol_LF) new_reader 0).2 =
[mkMessage "message" (JStr "x")
   (JObj [("type", JStr "x"); ("timestamp", JStr "T")]) (JStr "T")].
Proof. reflexivity. Qed.

(** [data: not-json], blank line: the raw text, kind [message], a generated
  timestamp. *)
Example frame_raw_payload :
(read_chunk ("data: not-json" +:+ eol_LF +:+ eol_LF) new_reader 0).2 =
[mkMessage "message" (JStr "message") (JStr "not-json") (JStr (sample_clock 0))].
Proof. reflexivity. Qed.

(** A comment line alone changes nothing and emits nothing. *)
Example comment_line_is_inert :
read_chunk (": comment" +:+ eol_LF) new_reader 0 = (new_reader, 0, []).
Proof. reflexivity. Qed.

(** A frame cut in the middle of a line and of its terminator. *)
Example chunked_frame :
read_chunks ["event: tick" +:+ eol_LF +:+ "da"; "ta: A" +:+ String CR "";
             eol_LF +:+ "data:B" +:+ eol_CRLF +:+ eol_CRLF] new_reader 0 =
(new_reader, 1,
 [mkMessage "tick" (JStr "message") (JStr ("A" +:+ String LF "B"))
    (JStr (sample_clock 0))]).
Proof. reflexivity. Qed.

Lemma blank_line_finalizes_witness :
strip_cr "" = ""
/\ buf_data frame_AB <> []
/\ exists m tick',
     parseLine "" frame_AB 0 = (empty_buffer, tick', [m])
     /\ msg_data m =
        match sample_parse (join_lf (buf_data frame_AB)) with
        | Some v => v
        | None => JStr (join_lf (buf_data frame_AB))
        end.
Proof.
split; [reflexivity|]. split; [discriminate|].
destruct (blank_line_finalizes sample_parse sample_clock "" frame_AB 0 eq_refl)
  as (_ & Hfinal & _).
apply Hfinal. discriminate.
Defined.

Lemma finalize_message_witness :
sample_parse (join_lf [doc_typed]) = Some (JObj typed_props)
/\ exists kind stamp tick',
     dispatchMessage (mkBuffer "message" [doc_typed] None) 0 =
     (mkMessage "message" kind (JObj typed_props) stamp, empty_buffer, tick')
     /\ kind = JStr "x" /\ stamp = JStr "T" /\ tick' = 0.
Proof.
split; [reflexivity|].
destruct (finalize_message sample_parse sample_clock
            (mkBuffer "message" [doc_typed] None) 0) as (_ & _ & Hobj & _).
destruct (Hobj typed_props eq_refl) as (kind & stamp & tick' & Heq & Hkind & _ & Hstamp & _).
exists kind, stamp, tick'. split; [exact Heq|].
split; [exact (Hkind (JStr "x") eq_refl eq_refl)|].
exact (Hstamp (JStr "T") eq_refl eq_refl).
Defined.

(** The payload declares a type and a timestamp, both the empty string,
  and the message carries neither: its kind is [message] and its
  timestamp a clock reading. *)
Lemma falsy_declared_fields_replaced :
let m := (dispatchMessage (mkBuffer "message" [doc_empty_fields] None) 0).1.1 in
msg_data m = JObj [("type", JStr ""); ("timestamp", JStr "")]
/\ get_prop (msg_data m) "type" = Some (JStr "")
/\ get_prop (msg_data m) "timestamp" = Some (JStr "")
/\ msg_type m = JStr "message" /\ msg_type m <> JStr ""
/\ msg_timestamp m = JStr (sample_clock 0) /\ msg_timestamp m <> JStr "".
Proof. cbv zeta. vm_compute. repeat split; discriminate. Qed.

Lemma field_line_updates_frame_witness :
strip_cr "data: A" <> ""
/\ exists value,
     ((exists v, " A" = String " " v /\ value = v)
      \/ (startsWith " A" " " = false /\ value = " A"))
     /\ parseLine "data: A" empty_buffer 0 =
        (mkBuffer "message" ([] ++ [value]) None, 0, []).
Proof.
split; [discriminate|].
destruct (field_line_updates_frame sample_parse sample_clock "data: A" empty_buffer 0)
  as (_ & _ & Hfield & _); [discriminate|].
destruct (Hfield "data" " A" eq_refl ltac:(discriminate) eq_refl)
  as (value & Hvalue & _ & Hdata & _).
exists value. split; [exact Hvalue|]. exact (Hdata eq_refl).
Defined.

Lemma crlf_decodes_as_lf_witness :
Forall (fun l => lacks LF l = true /\ endsWith l CR = false) ["data: A"; ""]
/\ read_chunk (terminate_lines eol_CRLF ["data: A"; ""]) (mkReader empty_buffer "") 0 =
   read_chunk (terminate_lines eol_LF ["data: A"; ""]) (mkReader empty_buffer "") 0.
Proof.
assert (H : Forall (fun l => lacks LF l = true /\ endsWith l CR = false) ["data: A"; ""]).
{ repeat constructor. }
split; [exact H|].
exact (proj2 (proj2 (crlf_decodes_as_lf sample_parse sample_clock)) _ empty_buffer 0 H).
Defined.

Lemma request_construction_witness :
  ri_headers (build_request post_options) !! "X-Token" = Some "t"
  /\ ri_headers (build_request post_options) !! "Accept" = Some "text/event-stream"
  /\ ri_headers (build_request post_options) !! "Cache-Control" = Some "no-cache"
  /\ ri_body (build_request post_options) = Some (sample_stringify (JObj []))
  /\ ri_headers (build_request post_options) !! "Content-Type" = Some "application/json".
Proof.
  assert (Htoken : ({["X-Token" := "t"]} : gmap string string) !! "X-Token" = Some "t").
  { vm_compute. reflexivity. }
  assert (Haccept0 : default ∅ (headers post_options) !! "Accept" = None).
  { vm_compute. reflexivity. }
  assert (Hcache0 : default ∅ (headers post_options) !! "Cache-Control" = None).
  { vm_compute. reflexivity. }
  assert (Hname : "X-Token" <> "Content-Type") by discriminate.
  destruct (request_construction sample_stringify (new_client post_options))
    as (_ & Hcaller & Haccept & Hcache & Hpost).
  split; [exact (Hcaller _ "X-Token" "t" eq_refl Htoken (or_introl Hname))|].
  split; [exact (Haccept Haccept0)|]. split; [exact (Hcache Hcache0)|].
  exact (proj2 (Hpost eq_refl) (JObj []) eq_refl).
Defined.

(** The caller supplies its own [Accept] header: the request carries the
  caller's value and not [text/event-stream]. *)
Lemma caller_header_replaces_default :
let opts := mkOptions "/stream" None None
              (Some {["Accept" := "application/json"]}) None None None in
ri_headers (build_request opts) !! "Accept" = Some "application/json"
/\ ri_headers (build_request opts) !! "Accept" <> Some "text/event-stream".
Proof. cbv zeta. vm_compute. split; [reflexivity|discriminate]. Qed.

Lemma end_of_stream_closes_witness :
conns opened !! 0 = Some (with_phase (Reading new_reader) (fresh_conn post_options))
/\ emitted opened (step opened (ReadSettles 0 Done)) = [OnClose]
/\ timers (step opened (ReadSettles 0 Done)) = timers opened
/\ reconnectAttempts (step opened (ReadSettles 0 Done)) = reconnectAttempts opened.
Proof.
assert (H : conns opened !! 0 =
            Some (with_phase (Reading new_reader) (fresh_conn post_options))).
{ reflexivity. }
split; [exact H|].
destruct (end_of_stream_closes sample_parse sample_stringify sample_clock
            opened 0 _ new_reader H eq_refl) as (He & _ & Ht & _ & Ha & _).
split; [exact He|]. split; [exact Ht|exact Ha].
Defined.

Lemma connecting_in_flight : in_flight connecting 0.
Proof.
exists (fresh_conn post_options). split; [reflexivity|]. split; [reflexivity|discriminate].
Defined.


Lemma opened_in_flight : in_flight opened 0.
Proof.
  exists (with_phase (Reading new_reader) (fresh_conn post_options)).
  split; [reflexivity|]. split; [reflexivity|discriminate].
Defined.


Lemma single_request_single_timer_witness :
in_flight connecting 0 /\ abortController connecting = Some 0.
Proof.
split; [exact connecting_in_flight|].
destruct (single_request_single_timer sample_parse sample_stringify sample_clock
            post_options [Connect]) as (_ & Hctl & _).
exact (Hctl 0 connecting_in_flight).
Defined.

Lemma connecting_armed : armed 2 0 connecting 0 (fresh_conn post_options).
Proof. split; reflexivity. Defined.

Lemma reconnection_policy_witness :
armed 2 0 connecting 0 (fresh_conn post_options)
/\ exists k',
     let w' := fail_repeatedly
                 [FetchFault (Rejected "offline"); FetchFault (Resolved bad_response)]
                 connecting in
     armed 2 2 w' k' (fresh_conn (options connecting))
     /\ (exists es, trace w' = trace connecting ++ es /\ retries es = 2)
     /\ forall f, fault_at Fetching f = true ->
          let w'' := step w' (fault_event k' f) in
          (exists failure, emitted w' w'' = [OnError failure])
          /\ timers w'' = ∅
          /\ reconnectTimeout w'' = None
          /\ reconnectAttempts w'' = 2.
Proof.
split; [exact connecting_armed|].
destruct (reconnection_policy sample_parse sample_stringify sample_clock)
  as (_ & Hceiling & _).
apply (Hceiling 2 connecting 0 (fresh_conn post_options)
         (FetchFault (Rejected "offline")) [FetchFault (Resolved bad_response)]).
- lia.
- exact connecting_armed.
- reflexivity.
- repeat constructor.
- reflexivity.
Defined.

End Samples.

(** * Further properties *)

(** ** The decoder on whole frames *)

Section DecoderMore.

Variable JSON_parse : string -> option JSValue.
Variable clock : nat -> string.

#[local] Abbreviation dispatchMessage := (dispatchMessage JSON_parse clock).
#[local] Abbreviation parseLine := (parseLine JSON_parse clock).
#[local] Abbreviation parseLines := (parseLines JSON_parse clock).
#[local] Abbreviation read_chunk := (read_chunk JSON_parse clock).
#[local] Abbreviation read_chunks := (read_chunks JSON_parse clock).

Lemma strip_cr_prefixed c p d :
  endsWith (String c p) CR = false -> endsWith d CR = false ->
  strip_cr (String c p +:+ d) = String c p +:+ d.
Proof.
  intros Hp Hd. apply strip_cr_id.
  revert c Hp. induction p as [|c' p IH]; intros c Hp.
  - simpl in *. destruct d as [|e d]; [exact Hp|exact Hd].
  - change (String c (String c' p) +:+ d) with (String c (String c' p +:+ d)).
    change (endsWith (String c (String c' p)) CR) with (endsWith (String c' p) CR) in Hp.
    specialize (IH c' Hp). simpl in IH |- *. exact IH.
Qed.

Lemma parseLine_data_line d ev data i tick :
  endsWith d CR = false ->
  parseLine ("data: " +:+ d) (mkBuffer ev data i) tick =
  (mkBuffer ev (data ++ [d]) i, tick, []).
Proof.
  intros Hd.
  rewrite (parseLine_field JSON_parse clock ("data: " +:+ d) "data" (String " " d));
    [reflexivity| |discriminate|reflexivity].
  apply (strip_cr_prefixed "d" "ata: " d); [reflexivity|exact Hd].
Qed.

Lemma parseLine_event_line ev e0 data i tick :
  endsWith ev CR = false ->
  parseLine ("event: " +:+ ev) (mkBuffer e0 data i) tick =
  (mkBuffer ev data i, tick, []).
Proof.
  intros Hev.
  rewrite (parseLine_field JSON_parse clock ("event: " +:+ ev) "event" (String " " ev));
    [reflexivity| |discriminate|reflexivity].
  apply (strip_cr_prefixed "e" "vent: " ev); [reflexivity|exact Hev].
Qed.

Lemma parseLines_data_lines ds ev data i tick :
  Forall line_safe ds ->
  parseLines (map (fun d => "data: " +:+ d) ds) (mkBuffer ev data i) tick =
  (mkBuffer ev (data ++ ds) i, tick, []).
Proof.
  intros H. revert data. induction H as [|d ds [_ Hd] _ IH]; intros data.
  - simpl. rewrite app_nil_r. reflexivity.
  - cbn [map Decoder.parseLines]. rewrite (parseLine_data_line _ _ _ _ _ Hd), IH.
    rewrite <- app_assoc. reflexivity.
Qed.

Lemma frame_lines_lack_LF ev ds :
  line_safe ev -> Forall line_safe ds ->
  Forall (fun l => lacks LF l = true) (frame_lines ev ds).
Proof.
  intros [Hev _] Hds. unfold frame_lines. constructor.
  - simpl. exact Hev.
  - apply Forall_app. split; [|repeat constructor].
    apply Forall_fmap. eapply Forall_impl; [exact Hds|].
    intros d [Hd _]. simpl. exact Hd.
Qed.

(** What the lines of one frame do to an empty frame buffer. *)
Lemma parseLines_frame ev ds tick :
  line_safe ev -> Forall line_safe ds ->
  parseLines (frame_lines ev ds) empty_buffer tick =
  match ds with
  | [] => (mkBuffer ev [] None, tick, [])
  | _ :: _ =>
      let '(m, _, tick') := dispatchMessage (mkBuffer ev ds None) tick in
      (empty_buffer, tick', [m])
  end.
Proof.
  intros [_ Hev] Hds. unfold frame_lines, empty_buffer at 1.
  cbn [Decoder.parseLines]. rewrite (parseLine_event_line _ _ _ _ _ Hev).
  rewrite parseLines_app, (parseLines_data_lines _ _ _ _ _ Hds).
  cbn [Decoder.parseLines app].
  rewrite (parseLine_blank JSON_parse clock "" _ _ eq_refl). cbn [buf_data].
  destruct ds as [|d ds]; [reflexivity|]. cbn [length Nat.ltb Nat.leb].
  pose proof (dispatchMessage_resets JSON_parse clock (mkBuffer ev (d :: ds) None) tick) as Hr.
  destruct (dispatchMessage (mkBuffer ev (d :: ds) None) tick) as [[m b] t'].
  simpl in Hr. subst b. reflexivity.
Qed.

Lemma frame_text_decodes (ev : string) (ds : list string) (tick : nat) :
  line_safe ev -> Forall line_safe ds ->
  read_chunk (frame_text ev ds) (mkReader empty_buffer "") tick =
  match ds with
  | [] => (mkReader (mkBuffer ev [] None) "", tick, [])
  | _ :: _ =>
      let '(m, _, tick') := dispatchMessage (mkBuffer ev ds None) tick in
      (new_reader, tick', [m])
  end.
Proof.
  intros Hev Hds. unfold Decoder.read_chunk, frame_text.
  cbn [rd_partial rd_buffer String.append].
  rewrite (split_terminated_LF _ (frame_lines_lack_LF ev ds Hev Hds)).
  rewrite removelast_last, last_last, (parseLines_frame ev ds tick Hev Hds).
  destruct ds as [|d ds]; [reflexivity|].
  destruct (dispatchMessage (mkBuffer ev (d :: ds) None) tick) as [[m b] t']. reflexivity.
Qed.

(** X1: the wire text of one frame (an event line, data lines, an empty
    line), read in one chunk by a reader with an empty frame and carry-over,
    gives exactly the message that [dispatchMessage] builds from the event
    name and the data lines, and leaves the reader as new.  Without data
    lines it gives no message and the event name stays in the frame. *)
Theorem frame_decodes (ev : string) (ds : list string) (tick : nat) :
  line_safe ev -> Forall line_safe ds ->
  read_chunk (frame_text ev ds) (mkReader empty_buffer "") tick =
  match ds with
  | [] => (mkReader (mkBuffer ev [] None) "", tick, [])
  | _ :: _ =>
      let '(m, _, tick') := dispatchMessage (mkBuffer ev ds None) tick in
      (new_reader, tick', [m])
  end.
Proof. exact (frame_text_decodes ev ds tick). Qed.

Lemma frames_decode_one_chunk frames tick :
  Forall (fun f => line_safe f.1 /\ Forall line_safe f.2 /\ f.2 <> []) frames ->
  read_chunk (frames_text frames) new_reader tick =
  let '(tick', out) := dispatch_frames JSON_parse clock frames tick in
  (new_reader, tick', out).
Proof.
  intros H. revert tick. induction H as [|[ev ds] frames (Hev & Hds & Hne) _ IH]; intros tick.
  - reflexivity.
  - cbn [frames_text].
    rewrite read_chunk_app. change new_reader with (mkReader empty_buffer "") at 1.
    rewrite (frame_text_decodes ev ds tick Hev Hds). simpl in Hne.
    destruct ds as [|d ds]; [contradiction|].
    cbn [dispatch_frames].
    destruct (dispatchMessage (mkBuffer ev (d :: ds) None) tick) as [[m b] t1].
    rewrite IH. destruct (dispatch_frames JSON_parse clock frames t1) as [t2 out].
    reflexivity.
Qed.

(** X2: however the wire text of a list of frames, each with at least one
    data line, is cut into chunks, a new reader delivers exactly one message
    per frame, in the order of the frames, each the message of its event
    name and data lines, and ends as a new reader. *)
Theorem frames_decode_in_chunks
    (frames : list (string * list string)) (chunks : list string) (tick : nat) :
  Forall (fun f => line_safe f.1 /\ Forall line_safe f.2 /\ f.2 <> []) frames ->
  concat_chunks chunks = frames_text frames ->
  read_chunks chunks new_reader tick =
  (new_reader, (dispatch_frames JSON_parse clock frames tick).1,
   (dispatch_frames JSON_parse clock frames tick).2)
  /\ length (read_chunks chunks new_reader tick).2 = length frames.
Proof.
  intros Hframes Hcut.
  assert (Hlen : forall fs t, length (dispatch_frames JSON_parse clock fs t).2 = length fs).
  { induction fs as [|[ev ds] fs IH]; intros t; [reflexivity|].
    cbn [dispatch_frames].
    destruct (dispatchMessage (mkBuffer ev ds None) t) as [[m b] t1].
    specialize (IH t1). destruct (dispatch_frames JSON_parse clock fs t1) as [t2 out].
    simpl in *. rewrite IH. reflexivity. }
  assert (Heq : read_chunks chunks new_reader tick =
                (new_reader, (dispatch_frames JSON_parse clock frames tick).1,
                 (dispatch_frames JSON_parse clock frames tick).2)).
  { change new_reader with (mkReader empty_buffer "") at 1.
    rewrite (read_chunks_concat JSON_parse clock chunks (mkReader empty_buffer "") tick eq_refl), Hcut.
    change (mkReader empty_buffer "") with new_reader.
    rewrite (frames_decode_one_chunk frames tick Hframes).
    destruct (dispatch_frames JSON_parse clock frames tick). reflexivity. }
  split; [exact Heq|]. rewrite Heq. apply Hlen.
Qed.

Lemma dispatchMessage_well_formed buffer tick :
  well_formed clock (dispatchMessage buffer tick).1.1.
Proof.
  unfold Decoder.dispatchMessage.
  set (parsed := match JSON_parse _ with Some v => v | None => JStr _ end).
  assert (Hev : (if String.eqb (buf_event buffer) "" then "message" else buf_event buffer) <> "").
  { destruct (String.eqb_spec (buf_event buffer) ""); [discriminate|assumption]. }
  assert (Hty : truthy (if typeof_object parsed
                        then or_default (get_prop parsed "type") (JStr "message")
                        else JStr "message") = true).
  { destruct (typeof_object parsed); [|reflexivity].
    destruct (get_prop parsed "type") as [v|]; [|reflexivity].
    simpl. destruct (truthy v) eqn:Hv; [exact Hv|reflexivity]. }
  assert (Hclock : forall t, (forall n, clock n <> "") -> truthy (JStr (clock t)) = true).
  { intros t Hc. simpl. apply negb_true_iff, String.eqb_neq, Hc. }
  destruct (if typeof_object parsed then get_prop parsed "timestamp" else None) as [t|];
    [destruct (truthy t) eqn:Ht|]; simpl; repeat split; auto;
    intros Hc; apply (Hclock tick Hc).
Qed.

Lemma parseLine_well_formed line buffer tick :
  Forall (well_formed clock) (parseLine line buffer tick).2.
Proof.
  unfold Decoder.parseLine.
  destruct (String.eqb (strip_cr line) "").
  - destruct (0 <? length (buf_data buffer)); [|constructor].
    pose proof (dispatchMessage_well_formed buffer tick) as H.
    destruct (dispatchMessage buffer tick) as [[m b] t].
    constructor; [exact H|constructor].
  - destruct (startsWith (strip_cr line) ":"); [constructor|].
    destruct (indexOf (strip_cr line) ":"); [|constructor].
    repeat (match goal with |- context [if ?b then _ else _] => destruct b end);
      constructor.
Qed.

Lemma parseLines_well_formed lines buffer tick :
  Forall (well_formed clock) (parseLines lines buffer tick).2.
Proof.
  revert buffer tick. induction lines as [|l ls IH]; intros buffer tick; [constructor|].
  cbn [Decoder.parseLines]. pose proof (parseLine_well_formed l buffer tick) as H1.
  destruct (parseLine l buffer tick) as [[b1 t1] o1]. specialize (IH b1 t1).
  destruct (parseLines ls b1 t1) as [[b2 t2] o2]. apply Forall_app. split; assumption.
Qed.

(** X3: whatever text the reader is fed, in whatever chunks and from
    whatever state, every message it delivers has a non-empty event name
    and a truthy kind, and a truthy timestamp as long as the clock never
    reads as the empty text. *)
Theorem delivered_messages_well_formed (chunks : list string) (r : Reader) (tick : nat) :
  Forall (well_formed clock) (read_chunks chunks r tick).2.
Proof.
  revert r tick. induction chunks as [|c cs IH]; intros r tick; [constructor|].
  cbn [Decoder.read_chunks].
  assert (H1 : Forall (well_formed clock) (read_chunk c r tick).2).
  { unfold Decoder.read_chunk.
    pose proof (parseLines_well_formed
                  (removelast (split_lf (rd_partial r +:+ c))) (rd_buffer r) tick) as H.
    destruct (parseLines _ _ _) as [[b t] o]. exact H. }
  destruct (read_chunk c r tick) as [[r1 t1] o1]. specialize (IH r1 t1).
  destruct (read_chunks cs r1 t1) as [[r2 t2] o2]. apply Forall_app. split; assumption.
Qed.

Lemma parseLine_same_frame line b b' tick :
  same_frame b b' ->
  (parseLine line b tick).2 = (parseLine line b' tick).2
  /\ (parseLine line b tick).1.2 = (parseLine line b' tick).1.2
  /\ same_frame (parseLine line b tick).1.1 (parseLine line b' tick).1.1.
Proof.
  destruct b as [e d i], b' as [e' d' i']. intros [He Hd]. simpl in He, Hd. subst e' d'.
  unfold Decoder.parseLine. cbn [buf_data buf_event buf_id].
  destruct (String.eqb (strip_cr line) "").
  - destruct (0 <? length d); [|repeat split].
    change (dispatchMessage (mkBuffer e d i') tick)
      with (dispatchMessage (mkBuffer e d i) tick).
    destruct (dispatchMessage (mkBuffer e d i) tick) as [[m b] t]. repeat split.
  - destruct (startsWith (strip_cr line) ":"); [repeat split|].
    destruct (indexOf (strip_cr line) ":"); [|repeat split].
    repeat (match goal with |- context [if String.eqb ?x ?y then _ else _] =>
                              destruct (String.eqb x y) end);
      repeat split.
Qed.

Lemma parseLine_id_line line b tick :
  is_id_line line = true ->
  (parseLine line b tick).2 = []
  /\ (parseLine line b tick).1.2 = tick
  /\ same_frame (parseLine line b tick).1.1 b.
Proof.
  unfold is_id_line, Decoder.parseLine. intros H.
  destruct (indexOf (strip_cr line) ":") as [i|] eqn:Hi; [|discriminate].
  destruct (String.eqb_spec (strip_cr line) "") as [He|_].
  { rewrite He in Hi. discriminate. }
  destruct (startsWith (strip_cr line) ":") eqn:Hs.
  { destruct (strip_cr line) as [|c s]; [discriminate|]. simpl in Hs, Hi.
    rewrite Hs in Hi. injection Hi as <-. discriminate. }
  apply String.eqb_eq in H. rewrite H. repeat split.
Qed.

(** X4: the [id] field is never surfaced: deleting every [id] line from the
    lines the reader processes changes no delivered message and no clock
    reading, and leaves the same event name and data lines pending. *)
Theorem id_lines_are_inert (lines : list string) (buffer : SSEEventBuffer) (tick : nat) :
  let kept := List.filter (fun l => negb (is_id_line l)) lines in
  (parseLines lines buffer tick).2 = (parseLines kept buffer tick).2
  /\ (parseLines lines buffer tick).1.2 = (parseLines kept buffer tick).1.2
  /\ same_frame (parseLines lines buffer tick).1.1 (parseLines kept buffer tick).1.1.
Proof.
  cbv zeta.
  assert (Hgen : forall b b', same_frame b b' ->
            (parseLines lines b tick).2 =
            (parseLines (List.filter (fun l => negb (is_id_line l)) lines) b' tick).2
            /\ (parseLines lines b tick).1.2 =
               (parseLines (List.filter (fun l => negb (is_id_line l)) lines) b' tick).1.2
            /\ same_frame (parseLines lines b tick).1.1
                 (parseLines (List.filter (fun l => negb (is_id_line l)) lines) b' tick).1.1).
  { revert tick. induction lines as [|l ls IH]; intros tick b b' Hb.
    - simpl. repeat split; apply Hb.
    - cbn [List.filter Decoder.parseLines]. destruct (is_id_line l) eqn:Hid; cbn [negb].
      + destruct (parseLine_id_line l b tick Hid) as (Ho & Ht & Hf).
        destruct (parseLine l b tick) as [[b1 t1] o1]. simpl in Ho, Ht, Hf. subst o1 t1.
        assert (Hb1 : same_frame b1 b').
        { destruct Hf as [H1 H2], Hb as [H3 H4]. split; congruence. }
        specialize (IH tick b1 b' Hb1).
        destruct (parseLines ls b1 tick) as [[b2 t2] o2]. exact IH.
      + cbn [Decoder.parseLines].
        destruct (parseLine_same_frame l b b' tick Hb) as (Ho & Ht & Hf).
        destruct (parseLine l b tick) as [[b1 t1] o1].
        destruct (parseLine l b' tick) as [[b1' t1'] o1'].
        simpl in Ho, Ht, Hf. subst o1' t1'.
        specialize (IH t1 b1 b1' Hf).
        destruct (parseLines ls b1 t1) as [[b2 t2] o2].
        destruct (parseLines _ b1' t1) as [[b2' t2'] o2'].
        simpl in *. destruct IH as (-> & -> & Hf2). repeat split; apply Hf2. }
  apply Hgen. split; reflexivity.
Qed.

Lemma parseLine_not_blank line buffer tick :
  is_blank line = false ->
  (parseLine line buffer tick).2 = [] /\ (parseLine line buffer tick).1.2 = tick.
Proof.
  unfold is_blank, Decoder.parseLine. intros ->.
  destruct (startsWith (strip_cr line) ":"); [split; reflexivity|].
  destruct (indexOf (strip_cr line) ":"); [|split; reflexivity].
  repeat (match goal with |- context [if String.eqb ?x ?y then _ else _] =>
                            destruct (String.eqb x y) end);
    split; reflexivity.
Qed.

Lemma parseLine_at_most_one line buffer tick :
  length (parseLine line buffer tick).2 <= 1.
Proof.
  unfold Decoder.parseLine.
  destruct (String.eqb (strip_cr line) "").
  - destruct (0 <? length (buf_data buffer)); [|simpl; lia].
    destruct (dispatchMessage buffer tick) as [[m b] t]. simpl. lia.
  - destruct (startsWith (strip_cr line) ":"); [simpl; lia|].
    destruct (indexOf (strip_cr line) ":"); [|simpl; lia].
    repeat (match goal with |- context [if String.eqb ?x ?y then _ else _] =>
                              destruct (String.eqb x y) end);
      simpl; lia.
Qed.

(** X5: messages are delivered by empty lines only: the lines processed
    deliver at most as many messages as there are empty lines among them,
    so a frame that is not followed by an empty line is not delivered; and
    a chunk without a line feed is only added to the carry-over. *)
Theorem messages_need_blank_lines :
  (forall lines buffer tick,
     length (parseLines lines buffer tick).2 <= length (List.filter is_blank lines))
  /\ (forall text r tick,
        lacks LF (rd_partial r) = true -> lacks LF text = true ->
        read_chunk text r tick =
        (mkReader (rd_buffer r) (rd_partial r +:+ text), tick, [])).
Proof.
  split.
  - induction lines as [|l ls IH]; intros buffer tick; [simpl; lia|].
    cbn [Decoder.parseLines List.filter].
    pose proof (parseLine_at_most_one l buffer tick) as H1.
    pose proof (parseLine_not_blank l buffer tick) as H0.
    destruct (parseLine l buffer tick) as [[b1 t1] o1]. specialize (IH b1 t1).
    destruct (parseLines ls b1 t1) as [[b2 t2] o2]. simpl in *.
    rewrite length_app. destruct (is_blank l).
    + simpl. lia.
    + destruct (H0 eq_refl) as [-> _]. simpl. lia.
  - intros text r tick Hp Ht. unfold Decoder.read_chunk.
    rewrite split_lf_lacks by (rewrite lacks_app, Hp, Ht; reflexivity).
    reflexivity.
Qed.

End DecoderMore.

(** ** More of the life cycle *)

Section ClientMore.

Variable JSON_parse : string -> option JSValue.
Variable JSON_stringify : JSValue -> string.
Variable clock : nat -> string.

#[local] Abbreviation build_request := (build_request JSON_stringify).
#[local] Abbreviation connect := (connect JSON_stringify).
#[local] Abbreviation step := (step JSON_parse JSON_stringify clock).
#[local] Abbreviation run := (run JSON_parse JSON_stringify clock).

(** X6: the request uses the configured method, GET by default; it has a
    body exactly when the method is POST and the body is truthy; otherwise
    its headers are the two fixed ones with the caller's spread over them
    and nothing else; and it always has an [Accept] and a [Cache-Control]
    header. *)
Theorem request_body_and_method (opts : SSEClientOptions) :
  let req := build_request opts in
  ri_method req = default GET (method opts)
  /\ (is_Some (ri_body req) <->
      method opts = Some POST /\ body_truthy (body opts) = true)
  /\ (ri_body req = None -> ri_headers req = spread_headers (headers opts))
  /\ is_Some (ri_headers req !! "Accept")
  /\ is_Some (ri_headers req !! "Cache-Control").
Proof.
  cbv zeta. unfold Client.build_request.
  assert (Hfixed : forall name,
            name = "Accept" \/ name = "Cache-Control" ->
            is_Some (spread_headers (headers opts) !! name)).
  { intros name Hname. unfold spread_headers. apply lookup_union_is_Some. right.
    destruct Hname as [-> | ->].
    - rewrite lookup_insert_eq. eauto.
    - rewrite lookup_insert_ne by discriminate. rewrite lookup_insert_eq. eauto. }
  destruct (method opts) as [[|]|] eqn:Hm; cbn [default from_option id is_POST andb].
  1,3: (split; [reflexivity|]; split;
        [split; [intros [x Hx]; discriminate|intros [Hp _]; discriminate]|];
        split; [reflexivity|]; split; apply Hfixed; auto).
  destruct (body opts) as [[s|v]|] eqn:Hb; cbn [body_truthy].
  - destruct (String.eqb s "") eqn:Hs; cbn [negb ri_method ri_body ri_headers].
    + split; [reflexivity|]. split.
      { split; [intros [x Hx]; discriminate|intros [_ Hp]; discriminate]. }
      split; [reflexivity|]. split; apply Hfixed; auto.
    + split; [reflexivity|]. split; [split; eauto|].
      split; [discriminate|].
      split; (rewrite lookup_insert_ne by discriminate); apply Hfixed; auto.
  - cbn [ri_method ri_body ri_headers]. split; [reflexivity|]. split; [split; eauto|].
    split; [discriminate|].
    split; (rewrite lookup_insert_ne by discriminate); apply Hfixed; auto.
  - cbn [ri_method ri_body ri_headers]. split; [reflexivity|]. split.
    { split; [intros [x Hx]; discriminate|intros [_ Hp]; discriminate]. }
    split; [reflexivity|]. split; apply Hfixed; auto.
Qed.

Lemma disconnect_justified b w e :
  addressee e = None ->
  exists es, trace (disconnect b w) = trace w ++ es /\ Forall (justified JSON_stringify w e) es.
Proof.
  intros He. destruct (disconnect_spec b w) as (_ & _ & _ & _ & _ & _ & _ & _ & _ & Htr).
  eexists. split; [exact Htr|]. apply Forall_app. split.
  - destruct (abortController w) as [k|] eqn:Hac; repeat constructor; assumption.
  - destruct (reconnectTimeout w) as [t|] eqn:Hrt; repeat constructor; assumption.
Qed.

Lemma connect_justified w e :
  addressee e = None -> reads_options e = true ->
  exists es, trace (connect w) = trace w ++ es /\ Forall (justified JSON_stringify w e) es.
Proof.
  intros He Hr. destruct (disconnect_justified false w e He) as (es & Htr & Hes).
  exists (es ++ [Fetch (conn_count w) (url (options w)) (build_request (options w))]).
  split.
  - rewrite connect_trace, Htr, app_assoc. reflexivity.
  - apply Forall_app. split; [exact Hes|]. repeat constructor. exact Hr.
Qed.

Lemma on_catch_justified w k c f e :
  addressee e = Some k -> conns w !! k = Some c -> c_phase c <> Settled ->
  exists es, trace (on_catch k c f w) = trace w ++ es /\ Forall (justified JSON_stringify w e) es.
Proof.
  intros He Hk Hph. destruct (c_aborted c) eqn:Hab.
  - exists []. unfold on_catch. rewrite Hab, app_nil_r. split; [reflexivity|constructor].
  - assert (Hdec : retry_allowed c (reconnectAttempts w)
                   \/ ~ retry_allowed c (reconnectAttempts w)).
    { rewrite retry_allowed_test. destruct (_ && _); [left|right]; congruence. }
    destruct Hdec as [Hyes|Hno].
    + destruct (on_catch_retry w k c f Hab Hyes) as (Htr & _).
      eexists. split; [exact Htr|]. repeat constructor.
      * exists k, c. repeat split; assumption.
      * exists k, c. repeat split; try assumption; apply Hyes.
    + destruct (on_catch_stop w k c f Hab Hno) as (Htr & _).
      eexists. split; [exact Htr|]. repeat constructor.
      exists k, c. repeat split; assumption.
Qed.

Lemma step_justified (w : World) (e : Event) :
  exists es, trace (step w e) = trace w ++ es /\ Forall (justified JSON_stringify w e) es.
Proof.
  destruct e as [|b|t|k o|k o]; cbn [Client.step].
  - apply connect_justified; reflexivity.
  - apply disconnect_justified; reflexivity.
  - destruct (timers w !! t) as [d|] eqn:Ht.
    + apply (connect_justified (set_timers (delete t (timers w)) w) (TimerFires t));
        reflexivity.
    + exists []. rewrite app_nil_r. split; [reflexivity|constructor].
  - destruct (conns w !! k) as [c|] eqn:Hk.
    2:{ exists []. rewrite app_nil_r. split; [reflexivity|constructor]. }
    destruct (c_phase c) eqn:Hph.
    2,3: exists []; rewrite app_nil_r; split; [reflexivity|constructor].
    assert (Hns : c_phase c <> Settled) by congruence.
    unfold on_fetch. destruct o as [resp|reason].
    + destruct (negb (ok resp)); [apply on_catch_justified; auto|].
      destruct (negb (has_body resp)); [apply on_catch_justified; auto|].
      exists [OnOpen]. split; [reflexivity|]. repeat constructor.
      exists k, c. repeat split; assumption.
    + apply on_catch_justified; auto.
  - destruct (conns w !! k) as [c|] eqn:Hk.
    2:{ exists []. rewrite app_nil_r. split; [reflexivity|constructor]. }
    destruct (c_phase c) as [|r|] eqn:Hph.
    1,3: exists []; rewrite app_nil_r; split; [reflexivity|constructor].
    assert (Hns : c_phase c <> Settled) by congruence.
    unfold on_read. destruct o as [text| |reason].
    + destruct (read_chunk _ _ _ _ _) as [[r' tick'] out].
      exists (map OnMessage out). split; [reflexivity|].
      apply Forall_fmap, Forall_forall. intros m _. exists k, c, r. repeat split; assumption.
    + exists [OnClose]. split; [reflexivity|]. repeat constructor.
      exists k, c, r. repeat split; assumption.
    + apply on_catch_justified; auto.
Qed.

(** X7: every effect has its cause.  Handling an event only adds to the
    trace, and what it adds is justified by the state before: a callback
    comes from the connection the event is addressed to ([onOpen] from one
    awaiting its response, [onMessage] and [onClose] from one in its read
    loop, [onError] and a retry timeout from one that is neither cancelled
    nor finished, the timeout with that connection's delay and only when
    the retry rule allows it); a request is only issued by [connect], with
    the client's url and options; only the client's own controller and
    timeout are aborted and cleared. *)
Theorem effects_have_causes (w : World) (e : Event) :
  exists es, trace (step w e) = trace w ++ es /\ Forall (justified JSON_stringify w e) es.
Proof. exact (step_justified w e). Qed.

Lemma run_snoc es e w : run (es ++ [e]) w = step (run es w) e.
Proof. unfold Client.run. rewrite fold_left_app. reflexivity. Qed.

Lemma run_app es1 es2 w : run (es1 ++ es2) w = run es2 (run es1 w).
Proof. unfold Client.run. apply fold_left_app. Qed.

(** How a connection found after an event relates to the state before. *)
Lemma step_conn w e k c' :
  conns (step w e) !! k = Some c' ->
  (reads_options e = true /\ k = conn_count w /\ c' = fresh_conn (options w))
  \/ exists c, conns w !! k = Some c
       /\ conn_options c' = conn_options c
       /\ (c_aborted c = true -> c_aborted c' = true)
       /\ (c_phase c' = c_phase c
           \/ c_phase c' = Settled
           \/ (exists r r', c_phase c = Reading r /\ c_phase c' = Reading r')
           \/ (c_phase c = Fetching /\ trace (step w e) = trace w ++ [OnOpen])).
Proof.
  assert (Hsame : forall c, conns w !! k = Some c ->
            exists c0, conns w !! k = Some c0
              /\ conn_options c = conn_options c0
              /\ (c_aborted c0 = true -> c_aborted c = true)
              /\ (c_phase c = c_phase c0
                  \/ c_phase c = Settled
                  \/ (exists r r', c_phase c0 = Reading r /\ c_phase c = Reading r')
                  \/ (c_phase c0 = Fetching /\ trace (step w e) = trace w ++ [OnOpen]))).
  { intros c H. exists c. repeat split; auto. }
  assert (Hdis : forall b w0 c1, conns (disconnect b w0) !! k = Some c1 ->
            exists c0, conns w0 !! k = Some c0
              /\ conn_options c1 = conn_options c0
              /\ (c_aborted c0 = true -> c_aborted c1 = true)
              /\ c_phase c1 = c_phase c0).
  { intros b w0 c1 H.
    destruct (disconnect_spec b w0) as (_ & _ & _ & _ & _ & _ & _ & Hc & _).
    rewrite Hc in H. destruct (abortController w0) as [k0|].
    - apply lookup_alter_inv in H as (c0 & H0 & [(-> & ->)|(Hne & ->)]);
        exists c0; repeat split; auto.
    - exists c1. repeat split; auto. }
  assert (Hcon : forall w0 c1, conns (connect w0) !! k = Some c1 ->
            (k = conn_count w0 /\ c1 = fresh_conn (options w0))
            \/ exists c0, conns w0 !! k = Some c0
                 /\ conn_options c1 = conn_options c0
                 /\ (c_aborted c0 = true -> c_aborted c1 = true)
                 /\ c_phase c1 = c_phase c0).
  { intros w0 c1 H.
    destruct (connect_spec JSON_stringify w0) as (_ & _ & _ & _ & _ & _ & Hc & _).
    rewrite Hc in H. apply lookup_insert_Some in H as [[<- <-]|[_ H]]; [left; auto|].
    right. eapply Hdis, H. }
  assert (Hphase : forall k0 ph w0 c1,
            conns w0 = conns w -> conns (set_phase k0 ph w0) !! k = Some c1 ->
            exists c0, conns w !! k = Some c0
              /\ conn_options c1 = conn_options c0
              /\ (c_aborted c0 = true -> c_aborted c1 = true)
              /\ ((k = k0 /\ c_phase c1 = ph) \/ c_phase c1 = c_phase c0)).
  { intros k0 ph w0 c1 Hw0 H. simpl in H. rewrite Hw0 in H.
    apply lookup_alter_inv in H as (c0 & H0 & [(-> & ->)|(Hne & ->)]);
      exists c0; repeat split; auto. }
  assert (Hcatch : forall k0 c0 f c1,
            conns (on_catch k0 c0 f w) !! k = Some c1 ->
            exists c, conns w !! k = Some c
              /\ conn_options c1 = conn_options c
              /\ (c_aborted c = true -> c_aborted c1 = true)
              /\ (c_phase c1 = c_phase c \/ c_phase c1 = Settled)).
  { intros k0 c0 f c1 H.
    assert (Hc : conns (on_catch k0 c0 f w) = conns (set_phase k0 Settled w)).
    { unfold on_catch. destruct (c_aborted c0); [reflexivity|].
      destruct (c_autoReconnect c0); [|reflexivity]. destruct (_ || _); reflexivity. }
    rewrite Hc in H. destruct (Hphase k0 Settled w c1 eq_refl H) as (c & H0 & Ho & Ha & Hp).
    exists c. repeat split; auto. destruct Hp as [[_ Hp]|Hp]; auto. }
  intros H. destruct e as [|b|t|k0 o|k0 o]; cbn [Client.step] in *.
  - destruct (Hcon w c' H) as [[-> ->]|(c0 & H0 & Ho & Ha & Hp)]; [left; auto|].
    right. exists c0. repeat split; auto.
  - destruct (Hdis b w c' H) as (c0 & H0 & Ho & Ha & Hp).
    right. exists c0. repeat split; auto.
  - destruct (timers w !! t) as [d|].
    + destruct (Hcon _ c' H) as [[-> ->]|(c0 & H0 & Ho & Ha & Hp)]; [left; auto|].
      right. exists c0. repeat split; auto.
    + right. destruct (Hsame c' H) as (c0 & Hx). exists c0. exact Hx.
  - right. destruct (conns w !! k0) as [c0|] eqn:Hk0; [|apply Hsame, H].
    destruct (c_phase c0) eqn:Hph0; try (apply Hsame, H).
    unfold on_fetch in *. destruct o as [resp|reason].
    + destruct (negb (ok resp)).
      { destruct (Hcatch _ _ _ _ H) as (c & H0 & Ho & Ha & Hp).
        exists c. repeat split; auto. destruct Hp; auto. }
      destruct (negb (has_body resp)).
      { destruct (Hcatch _ _ _ _ H) as (c & H0 & Ho & Ha & Hp).
        exists c. repeat split; auto. destruct Hp; auto. }
      destruct (Hphase k0 (Reading new_reader) (set_reconnectAttempts 0 w) c' eq_refl H)
        as (c & H0 & Ho & Ha & Hp).
      exists c. repeat split; auto. destruct Hp as [[-> Hp]|Hp]; auto.
      right. right. right. split; [|reflexivity]. congruence.
    + destruct (Hcatch _ _ _ _ H) as (c & H0 & Ho & Ha & Hp).
      exists c. repeat split; auto. destruct Hp; auto.
  - right. destruct (conns w !! k0) as [c0|] eqn:Hk0; [|apply Hsame, H].
    destruct (c_phase c0) as [|r|] eqn:Hph0; try (apply Hsame, H).
    unfold on_read in *. destruct o as [text| |reason].
    + destruct (read_chunk _ _ _ _ _) as [[r' tick'] out].
      destruct (Hphase k0 (Reading r') _ c' eq_refl H) as (c & H0 & Ho & Ha & Hp).
      exists c. repeat split; auto. destruct Hp as [[-> Hp]|Hp]; auto.
      right. right. left. exists r, r'. split; congruence.
    + destruct (Hphase k0 Settled _ c' eq_refl H) as (c & H0 & Ho & Ha & Hp).
      exists c. repeat split; auto. destruct Hp as [[-> Hp]|Hp]; auto.
    + destruct (Hcatch _ _ _ _ H) as (c & H0 & Ho & Ha & Hp).
      exists c. repeat split; auto. destruct Hp; auto.
Qed.

Lemma step_options w e : options (step w e) = options w.
Proof.
  assert (Hcatch : forall k c f, options (on_catch k c f w) = options w).
  { intros k c f. unfold on_catch. destruct (c_aborted c); [reflexivity|].
    destruct (c_autoReconnect c); [|reflexivity]. destruct (_ || _); reflexivity. }
  destruct e as [|b|t|k o|k o]; cbn [Client.step].
  - apply connect_spec.
  - apply disconnect_spec.
  - destruct (timers w !! t); [|reflexivity].
    destruct (connect_spec JSON_stringify (set_timers (delete t (timers w)) w))
      as (_ & _ & _ & Ho & _). exact Ho.
  - destruct (conns w !! k) as [c|]; [|reflexivity].
    destruct (c_phase c); try reflexivity.
    unfold on_fetch. destruct o as [resp|reason]; [|apply Hcatch].
    destruct (negb (ok resp)); [apply Hcatch|].
    destruct (negb (has_body resp)); [apply Hcatch|reflexivity].
  - destruct (conns w !! k) as [c|]; [|reflexivity].
    destruct (c_phase c) as [|r|]; try reflexivity.
    unfold on_read. destruct o as [text| |reason]; [| reflexivity |apply Hcatch].
    destruct (read_chunk _ _ _ _ _) as [[r' tick'] out]. reflexivity.
Qed.

(** The attempt count after an event: unchanged, reset, or one more when
    the retry rule allowed it for some connection. *)
Lemma step_attempts w e :
  reconnectAttempts (step w e) = reconnectAttempts w
  \/ reconnectAttempts (step w e) = 0
  \/ exists k c, conns w !! k = Some c
       /\ retry_allowed c (reconnectAttempts w)
       /\ reconnectAttempts (step w e) = S (reconnectAttempts w).
Proof.
  assert (Hcatch : forall k c f, conns w !! k = Some c ->
            reconnectAttempts (on_catch k c f w) = reconnectAttempts w
            \/ reconnectAttempts (on_catch k c f w) = 0
            \/ exists k' c', conns w !! k' = Some c'
                 /\ retry_allowed c' (reconnectAttempts w)
                 /\ reconnectAttempts (on_catch k c f w) = S (reconnectAttempts w)).
  { intros k c f Hk. destruct (c_aborted c) eqn:Hab.
    - left. unfold on_catch. rewrite Hab. reflexivity.
    - assert (Hdec : retry_allowed c (reconnectAttempts w)
                     \/ ~ retry_allowed c (reconnectAttempts w)).
      { rewrite retry_allowed_test. destruct (_ && _); [left|right]; congruence. }
      destruct Hdec as [Hyes|Hno].
      + destruct (on_catch_retry w k c f Hab Hyes) as (_ & _ & _ & Hat & _).
        right. right. exists k, c. split; [exact Hk|]. split; [exact Hyes|exact Hat].
      + destruct (on_catch_stop w k c f Hab Hno) as (_ & _ & _ & Hat & _).
        left. exact Hat. }
  destruct e as [|b|t|k o|k o]; cbn [Client.step].
  - left. destruct (connect_spec JSON_stringify w) as (_ & _ & Hat & _). exact Hat.
  - destruct (disconnect_spec b w) as (_ & _ & Hat & _). rewrite Hat.
    destruct b; auto.
  - destruct (timers w !! t); [|auto]. left.
    destruct (connect_spec JSON_stringify (set_timers (delete t (timers w)) w))
      as (_ & _ & Hat & _). exact Hat.
  - destruct (conns w !! k) as [c|] eqn:Hk; [|auto].
    destruct (c_phase c); auto.
    unfold on_fetch. destruct o as [resp|reason]; [|apply Hcatch, Hk].
    destruct (negb (ok resp)); [apply Hcatch, Hk|].
    destruct (negb (has_body resp)); [apply Hcatch, Hk|]. right. left. reflexivity.
  - destruct (conns w !! k) as [c|] eqn:Hk; [|auto].
    destruct (c_phase c) as [|r|]; auto.
    unfold on_read. destruct o as [text| |reason]; [| auto |apply Hcatch, Hk].
    destruct (read_chunk _ _ _ _ _) as [[r' tick'] out]. left. reflexivity.
Qed.

Lemma configured_new opts : configured JSON_stringify opts (new_client opts).
Proof.
  split; simpl.
  - reflexivity.
  - intros k c H. rewrite lookup_empty in H. discriminate.
  - lia.
  - intros eff H. inversion H.
Qed.

Lemma configured_step opts w e : configured JSON_stringify opts w -> configured JSON_stringify opts (step w e).
Proof.
  intros [Ho Hc Ha Ht]. split.
  - rewrite step_options. exact Ho.
  - intros k c' H. destruct (step_conn w e k c' H) as [(_ & _ & ->)|(c & Hk & Hopt & _)].
    + rewrite Ho. reflexivity.
    + rewrite Hopt. eauto.
  - intros HM. specialize (Ha HM).
    destruct (step_attempts w e) as [-> | [-> | (k & c & Hk & [_ Hroom] & ->)]]; [lia..|].
    specialize (Hc k c Hk). unfold conn_options in Hc. injection Hc as _ _ Hmax.
    cbn [fresh_conn c_maxReconnectAttempts] in Hmax. rewrite Hmax in Hroom. lia.
  - intros eff H. destruct (step_justified w e) as (es & Htr & Hes).
    rewrite Htr in H. apply elem_of_app in H as [H|H]; [apply Ht, H|].
    rewrite Forall_forall in Hes. specialize (Hes eff H).
    destruct eff as [| | | |k target init| |t d|]; try exact I.
    + destruct Hes as (_ & _ & -> & ->). rewrite Ho. split; reflexivity.
    + destruct Hes as (k & c & _ & Hk & _ & _ & _ & -> & _).
      specialize (Hc k c Hk). unfold conn_options in Hc. injection Hc as _ Hd _.
      exact Hd.
Qed.

Lemma configured_run opts es w : configured JSON_stringify opts w -> configured JSON_stringify opts (run es w).
Proof.
  revert w. induction es as [|e es IH]; intros w Hw; [exact Hw|].
  simpl. apply IH, configured_step, Hw.
Qed.

(** X8: with a non-zero ceiling (5 when none is configured) the attempt
    count never exceeds it, whatever happens to the client; under a
    negative ceiling it stays 0. *)
Theorem attempts_never_exceed_ceiling (opts : SSEClientOptions) (es : list Event) :
  (default 5 (maxReconnectAttempts opts) <> 0)%Z ->
  (Z.of_nat (reconnectAttempts (run es (new_client opts)))
   <= Z.max 0 (default 5 (maxReconnectAttempts opts)))%Z.
Proof.
  intros HM. exact (cfg_attempts _ _ _ (configured_run opts es _ (configured_new opts)) HM).
Qed.

(** X9: every request the client ever issues, first or retried, goes to the
    configured url with the request built from the configured options, and
    every retry timeout it sets has the configured delay, 3000 by default:
    the delay does not grow with the attempts. *)
Theorem requests_and_delays_are_uniform
    (opts : SSEClientOptions) (es : list Event) (eff : Effect) :
  eff ∈ trace (run es (new_client opts)) ->
  (forall k target init, eff = Fetch k target init ->
     target = url opts /\ init = build_request opts)
  /\ (forall t d, eff = SetTimeout t d -> d = default 3000%Z (reconnectDelay opts)).
Proof.
  intros H.
  pose proof (cfg_trace _ _ _ (configured_run opts es _ (configured_new opts)) eff H) as Hc.
  split.
  - intros k target init ->. exact Hc.
  - intros t d ->. exact Hc.
Qed.

(** *** Once the client has stopped *)

Lemma step_timers_idle w e :
  idle w -> is_Connect e = false -> timers (step w e) = ∅.
Proof.
  intros [Ht Hc] He.
  assert (Hcatch : forall k c f, conns w !! k = Some c -> c_phase c <> Settled ->
            timers (on_catch k c f w) = ∅).
  { intros k c f Hk Hph. unfold on_catch.
    destruct (Hc k c Hk) as [Hab|Hs]; [|contradiction]. rewrite Hab. exact Ht. }
  destruct e as [|b|t|k o|k o]; cbn [Client.step]; try discriminate.
  - destruct (disconnect_spec b w) as (_ & _ & _ & _ & _ & _ & _ & _ & Htm & _).
    rewrite Htm, Ht. destruct (reconnectTimeout w); [apply delete_empty|reflexivity].
  - rewrite Ht, lookup_empty. exact Ht.
  - destruct (conns w !! k) as [c|] eqn:Hk; [|exact Ht].
    destruct (c_phase c) eqn:Hph; try exact Ht.
    assert (Hns : c_phase c <> Settled) by congruence.
    unfold on_fetch. destruct o as [resp|reason]; [|apply Hcatch; auto].
    destruct (negb (ok resp)); [apply Hcatch; auto|].
    destruct (negb (has_body resp)); [apply Hcatch; auto|exact Ht].
  - destruct (conns w !! k) as [c|] eqn:Hk; [|exact Ht].
    destruct (c_phase c) as [|r|] eqn:Hph; try exact Ht.
    assert (Hns : c_phase c <> Settled) by congruence.
    unfold on_read. destruct o as [text| |reason]; [|exact Ht|apply Hcatch; auto].
    destruct (read_chunk _ _ _ _ _) as [[r' tick'] out]. exact Ht.
Qed.

Lemma idle_step w e :
  idle w -> is_Connect e = false ->
  idle (step w e)
  /\ exists es, trace (step w e) = trace w ++ es /\ Forall (fun eff => harmless eff = true) es.
Proof.
  intros Hw He. pose proof Hw as [Ht Hc].
  split; [split|].
  - apply step_timers_idle; assumption.
  - intros k c' H. destruct (step_conn w e k c' H) as [(Hr & _ & _)|(c & Hk & _ & Hab & Hp)].
    + destruct e; try discriminate. cbn [Client.step] in H.
      rewrite Ht, lookup_empty in H. destruct (Hc k c' H); auto.
    + destruct (Hc k c Hk) as [Ha|Hs]; [left; auto|]. right.
      destruct Hp as [Hp|[Hp|[(r & r' & Hp & _)|[Hp _]]]]; congruence.
  - assert (Hgen : forall e0, reads_options e0 = false ->
              exists es, trace (step w e0) = trace w ++ es
                         /\ Forall (fun eff => harmless eff = true) es).
    { intros e0 Hr. destruct (step_justified w e0) as (es & Htr & Hes).
      exists es. split; [exact Htr|].
      eapply Forall_impl; [exact Hes|]. intros eff Heff.
      destruct eff; try reflexivity; exfalso; cbn [justified] in Heff.
      - destruct Heff as (k' & c & _ & Hk & Hab & Hns).
        destruct (Hc k' c Hk); congruence.
      - destruct Heff as (Hr' & _). congruence.
      - destruct Heff as (k' & c & _ & Hk & Hab & Hns & _).
        destruct (Hc k' c Hk); congruence. }
    destruct e as [|b|t|k o|k o]; try discriminate; try (apply Hgen; reflexivity).
    exists []. cbn [Client.step]. rewrite Ht, lookup_empty, app_nil_r.
    split; [reflexivity|constructor].
Qed.

Lemma idle_run es w :
  idle w -> Forall (fun e => is_Connect e = false) es ->
  idle (run es w)
  /\ exists effs, trace (run es w) = trace w ++ effs
       /\ Forall (fun eff => harmless eff = true) effs.
Proof.
  intros Hw Hes. revert w Hw. induction Hes as [|e es He _ IH]; intros w Hw.
  - split; [exact Hw|]. exists []. rewrite app_nil_r. split; [reflexivity|constructor].
  - destruct (idle_step w e Hw He) as (Hw1 & es1 & Htr1 & Hes1).
    destruct (IH _ Hw1) as (Hw2 & es2 & Htr2 & Hes2).
    split; [exact Hw2|]. exists (es1 ++ es2). split.
    + change (run (e :: es) w) with (run es (step w e)).
      rewrite Htr2, Htr1, app_assoc. reflexivity.
    + apply Forall_app. split; assumption.
Qed.

Lemma quiet_idle w : quiet w -> idle w.
Proof.
  intros (_ & _ & Ht & Hq). split; [exact Ht|]. intros k c Hk.
  destruct (c_aborted c) eqn:Hab; [left; reflexivity|right; eauto].
Qed.

(** A connection in flight that finishes without scheduling a retry leaves
    the client idle. *)
Lemma finished_idle w w' k :
  consistent w -> in_flight w k ->
  timers w' = timers w -> conns w' = alter (with_phase Settled) k (conns w) ->
  idle w'.
Proof.
  intros [_ _ H3 H4] (c & Hk & Hab & Hph) Ht Hc. split.
  - rewrite Ht. apply map_empty. intros t.
    destruct (timers w !! t) as [d|] eqn:Hd; [|reflexivity].
    exfalso. apply Hph. eauto.
  - intros k' c' H. rewrite Hc in H.
    apply lookup_alter_inv in H as (c0 & H0 & [(-> & ->)|(Hne & ->)]); [right; reflexivity|].
    destruct (c_aborted c0) eqn:Hab0; [left; reflexivity|right].
    assert (Hcase : c_phase c0 = Settled \/ c_phase c0 <> Settled).
    { destruct (c_phase c0); [right|right|left]; congruence. }
    destruct Hcase as [Hs|Hns]; [exact Hs|].
    assert (abortController w = Some k') by eauto.
    assert (abortController w = Some k) by eauto. congruence.
Qed.

(** X10: closing cancels for good.  After [disconnect], whatever happens
    next short of a new call of [connect] (timeouts elapsing, promises of
    old connections settling, further calls of [disconnect]), the client
    issues no request, schedules no retry and reports no error, and no
    timeout is pending. *)
Theorem no_reopen_after_disconnect
    (opts : SSEClientOptions) (es : list Event) (b : bool) (later : list Event) :
  Forall (fun e => is_Connect e = false) later ->
  let w1 := disconnect b (run es (new_client opts)) in
  let w2 := run later w1 in
  timers w2 = ∅
  /\ exists effs, trace w2 = trace w1 ++ effs
       /\ Forall (fun eff => harmless eff = true) effs.
Proof.
  intros Hlater. cbv zeta.
  pose proof (reachable_consistent JSON_parse JSON_stringify clock opts es) as Hw.
  destruct (disconnect_quiet b _ Hw) as [_ Hq].
  destruct (idle_run later _ (quiet_idle _ Hq) Hlater) as ([Ht _] & Heffs).
  split; [exact Ht|exact Heffs].
Qed.

(** X11: a clean end of the stream ends the subscription.  When the
    connection in flight reports the end of its stream, the client is left
    with no pending timeout, and until [connect] is called again it issues
    no request, schedules no retry and reports no error. *)
Theorem no_reopen_after_end_of_stream
    (opts : SSEClientOptions) (es : list Event) (k : nat) (later : list Event) :
  let w := run es (new_client opts) in
  in_flight w k ->
  (exists c r, conns w !! k = Some c /\ c_phase c = Reading r) ->
  Forall (fun e => is_Connect e = false) later ->
  let w1 := step w (ReadSettles k Done) in
  let w2 := run later w1 in
  timers w2 = ∅
  /\ exists effs, trace w2 = trace w1 ++ effs
       /\ Forall (fun eff => harmless eff = true) effs.
Proof.
  cbv zeta. intros Hfl (c & r & Hk & Hph) Hlater.
  pose proof (reachable_consistent JSON_parse JSON_stringify clock opts es) as Hw.
  assert (Hidle : idle (step (run es (new_client opts)) (ReadSettles k Done))).
  { eapply finished_idle; [exact Hw|exact Hfl| |].
    - rewrite (step_read _ _ _ _ _ _ _ _ Hk Hph). reflexivity.
    - rewrite (step_read _ _ _ _ _ _ _ _ Hk Hph). reflexivity. }
  destruct (idle_run later _ Hidle Hlater) as ([Ht _] & Heffs).
  split; [exact Ht|exact Heffs].
Qed.

(** X12: giving up is final.  When the connection in flight fails and the
    retry rule does not allow a retry (automatic reconnection is off, or
    the ceiling is reached), the failure is reported once and, until
    [connect] is called again, the client issues no request, schedules no
    retry and reports no further error. *)
Theorem no_reopen_after_final_failure
    (opts : SSEClientOptions) (es : list Event) (k : nat) (c : Conn) (e : Event)
    (later : list Event) :
  let w := run es (new_client opts) in
  in_flight w k -> conns w !! k = Some c ->
  is_failure (c_phase c) k e = true ->
  ~ retry_allowed c (reconnectAttempts w) ->
  Forall (fun e => is_Connect e = false) later ->
  let w1 := step w e in
  let w2 := run later w1 in
  (exists f, trace w1 = trace w ++ [OnError f])
  /\ timers w2 = ∅
  /\ exists effs, trace w2 = trace w1 ++ effs
       /\ Forall (fun eff => harmless eff = true) effs.
Proof.
  cbv zeta. intros Hfl Hk He Hno Hlater.
  pose proof (reachable_consistent JSON_parse JSON_stringify clock opts es) as Hw.
  set (w := run es (new_client opts)) in *.
  destruct (failure_step JSON_parse JSON_stringify clock w k c e Hk He) as (f & Hstep).
  assert (Hab : c_aborted c = false).
  { destruct Hfl as (c0 & Hk0 & Hab0 & _). congruence. }
  destruct (on_catch_stop w k c f Hab Hno) as (Htr & Htm & _ & _ & _ & Hc).
  rewrite Hstep.
  assert (Hidle : idle (on_catch k c f w)).
  { eapply finished_idle; [exact Hw|exact Hfl|exact Htm|exact Hc]. }
  destruct (idle_run later _ Hidle Hlater) as ([Ht _] & Heffs).
  split; [exists f; exact Htr|]. split; [exact Ht|exact Heffs].
Qed.

Lemma opened_first_step w e :
  opened_first (trace w) /\ (some_reading w -> OnOpen ∈ trace w) ->
  opened_first (trace (step w e)) /\ (some_reading (step w e) -> OnOpen ∈ trace (step w e)).
Proof.
  intros [Hfirst Hread].
  destruct (step_justified w e) as (es & Htr & Hes). split.
  - intros pre eff post Heq Heff. rewrite Htr in Heq.
    assert (Hnew : eff ∈ es -> OnOpen ∈ trace w).
    { intros Hin. apply Hread. rewrite Forall_forall in Hes. specialize (Hes eff Hin).
      destruct Heff as [Hm| ->].
      - destruct eff; try discriminate. destruct Hes as (k & c & r & _ & Hk & Hph).
        exists k, c, r. split; assumption.
      - destruct Hes as (k & c & r & _ & Hk & Hph). exists k, c, r. split; assumption. }
    apply app_eq_app in Heq as [l [[Htrw Hpost]|[Hpre Hes']]].
    + destruct l as [|x l].
      * rewrite app_nil_r in Htrw. simpl in Hpost. subst pre. apply Hnew.
        rewrite <- Hpost. apply list_elem_of_here.
      * injection Hpost as -> Hpost. eapply Hfirst; [exact Htrw|exact Heff].
    + subst pre. rewrite elem_of_app. left. apply Hnew.
      rewrite Hes', elem_of_app. right. apply list_elem_of_here.
  - intros (k & c' & r' & Hk' & Hph').
    destruct (step_conn w e k c' Hk') as [(_ & _ & ->)|(c & Hk & _ & _ & Hp)];
      [discriminate|].
    destruct Hp as [Hp|[Hp|[(r & r2 & Hp & _)|[_ Hp]]]].
    + rewrite Htr, elem_of_app. left. apply Hread. exists k, c, r'. split; congruence.
    + congruence.
    + rewrite Htr, elem_of_app. left. apply Hread. exists k, c, r. split; assumption.
    + rewrite Hp, elem_of_app. right. apply list_elem_of_here.
Qed.

(** X13: nothing is delivered before the connection is reported open: in
    the trace of any run of the client, every [onMessage] and every
    [onClose] is preceded by an [onOpen]. *)
Theorem messages_follow_open
    (opts : SSEClientOptions) (es : list Event) (pre post : list Effect) (eff : Effect) :
  trace (run es (new_client opts)) = pre ++ eff :: post ->
  is_OnMessage eff = true \/ eff = OnClose ->
  OnOpen ∈ pre.
Proof.
  assert (Hinv : forall es w,
            opened_first (trace w) /\ (some_reading w -> OnOpen ∈ trace w) ->
            opened_first (trace (run es w))
            /\ (some_reading (run es w) -> OnOpen ∈ trace (run es w))).
  { induction es0 as [|e es0 IH]; intros w Hw; [exact Hw|].
    change (run (e :: es0) w) with (run es0 (step w e)). apply IH, opened_first_step, Hw. }
  assert (Hnew : opened_first (trace (new_client opts))
                 /\ (some_reading (new_client opts) -> OnOpen ∈ trace (new_client opts))).
  { split.
    - intros p x q Heq. destruct p; discriminate.
    - intros (k & c & r & Hk & _). simpl in Hk. rewrite lookup_empty in Hk. discriminate. }
  destruct (Hinv es _ Hnew) as [Hfirst _]. exact (Hfirst pre eff post).
Qed.

(** X14: an update of the request and retry options (url, method, body,
    headers, autoReconnect, reconnectDelay, maxReconnectAttempts) by
    [updateOptions] takes effect at the next [connect] and not before.  Any
    event that does not call [connect] (a call of [disconnect], the
    settling of a promise of a connection already started) is handled
    exactly as without the update, so a connection in flight keeps the
    retry options it was opened with; the next [connect] opens the
    connection with the merged options and builds its request from them. *)
Theorem updateOptions_applies_at_next_connect (p : OptionsPatch) (w : World) (e : Event) :
  (reads_options e = false ->
   step (updateOptions p w) e = updateOptions p (step w e))
  /\ conns (connect (updateOptions p w)) !! conn_count w =
     Some (fresh_conn (merge_options (options w) p))
  /\ exists pre,
       trace (connect (updateOptions p w)) =
       pre ++ [Fetch (conn_count w) (url (merge_options (options w) p))
                 (build_request (merge_options (options w) p))].
Proof.
  split; [|split].
  - intros Hr.
    assert (Hcatch : forall k c f,
              on_catch k c f (updateOptions p w) = updateOptions p (on_catch k c f w)).
    { intros k c f. unfold on_catch. destruct (c_aborted c); [reflexivity|].
      destruct (c_autoReconnect c); [|reflexivity]. cbn. destruct (_ || _); reflexivity. }
    destruct e as [|b|t|k o|k o]; try discriminate; cbn [Client.step].
    + destruct w as [[k|] [t|] ra op cs tm cc tc tk tr]; destruct b; reflexivity.
    + change (conns (updateOptions p w)) with (conns w).
      destruct (conns w !! k) as [c|]; [|reflexivity].
      destruct (c_phase c); try reflexivity.
      unfold on_fetch. destruct o as [resp|reason]; [|apply Hcatch].
      destruct (negb (ok resp)); [apply Hcatch|].
      destruct (negb (has_body resp)); [apply Hcatch|reflexivity].
    + change (conns (updateOptions p w)) with (conns w).
      destruct (conns w !! k) as [c|]; [|reflexivity].
      destruct (c_phase c) as [|r|]; try reflexivity.
      unfold on_read. destruct o as [text| |reason]; [|reflexivity|apply Hcatch].
      change (ticks (updateOptions p w)) with (ticks w).
      destruct (read_chunk _ _ _ _ _) as [[r' tick'] out]. reflexivity.
  - destruct (connect_spec JSON_stringify (updateOptions p w))
      as (_ & _ & _ & _ & _ & _ & Hc & _).
    rewrite Hc. apply lookup_insert_eq.
  - eexists. apply connect_trace.
Qed.

(** X15: the hook's [reconnect] is [disconnect()] followed, when the hook
    is enabled and has a url, by [connect()].  On any state the client can
    reach it sets the attempt count to 0 at once (before any new open has
    succeeded) and leaves no timeout pending; when it reconnects, the new
    connection is the only one in flight, otherwise none is. *)
Theorem hook_reconnect_starts_afresh
    (opts : SSEClientOptions) (es : list Event) (enabled : bool) :
  let w := run es (new_client opts) in
  let w' := hook_reconnect JSON_stringify enabled w in
  reconnectAttempts w' = 0
  /\ timers w' = ∅
  /\ (enabled = true -> url opts <> "" -> forall k, in_flight w' k <-> k = conn_count w)
  /\ (enabled = false \/ url opts = "" -> forall k, ~ in_flight w' k).
Proof.
  cbv zeta.
  pose proof (reachable_consistent JSON_parse JSON_stringify clock opts es) as Hw.
  pose proof (cfg_options _ _ _ (configured_run opts es _ (configured_new opts))) as Hopts.
  set (w := run es (new_client opts)) in *.
  destruct (disconnect_quiet true w Hw) as [Hw1 Hq].
  destruct (disconnect_spec true w) as (Hac & Hrt & Hat & Hop & Hcc & _).
  set (w1 := disconnect true w) in *.
  assert (Hurl : url (options w1) = url opts) by (rewrite Hop, Hopts; reflexivity).
  destruct (connect_spec JSON_stringify w1) as (_ & _ & Hat2 & _ & _ & _ & Hc2 & Ht2).
  destruct (disconnect_spec false w1) as (_ & _ & _ & _ & _ & _ & _ & Hc3 & Ht3 & _).
  rewrite Hac in Hc3. rewrite Hrt in Ht3. rewrite Hc3 in Hc2. rewrite Ht3 in Ht2.
  destruct Hq as (_ & _ & Htm & Hsettled).
  unfold hook_reconnect. fold w1. rewrite Hurl.
  destruct enabled; cbn [andb].
  - destruct (String.eqb_spec (url opts) "") as [He|Hne]; cbn [negb].
    + split; [exact Hat|]. split; [exact Htm|]. split; [intros _ Hn; contradiction|].
      intros _ k (c & Hk & Hab & Hph). apply Hph. eauto.
    + split; [rewrite Hat2; exact Hat|]. split; [rewrite Ht2; exact Htm|].
      split; [|intros [Hf|Hf]; [discriminate|contradiction]].
      intros _ _ k. rewrite <- Hcc. split.
      * intros (c & Hk & Hab & Hph). rewrite Hc2 in Hk.
        apply lookup_insert_Some in Hk as [[<- _]|[_ Hk]]; [reflexivity|].
        exfalso. apply Hph. eauto.
      * intros ->. exists (fresh_conn (options w1)). rewrite Hc2, lookup_insert_eq.
        repeat split. discriminate.
  - split; [exact Hat|]. split; [exact Htm|]. split; [discriminate|].
    intros _ k (c & Hk & Hab & Hph). apply Hph. eauto.
Qed.

End ClientMore.

(** ** The store, the hook and the cards *)

Section StoreFacts.

Import Store.

Lemma act_add st k m :
  act st (AddMessage k m) =
  if add_throws k st then st
  else mkState (<[k := messages_of k st ++ [m]]> (messages st)) (isConnected st) (errors st).
Proof.
  unfold act, addMessage, add_throws, read_messages, messages_of.
  destruct (messages st !! k); cbn; [reflexivity|].
  destruct (inherited k); reflexivity.
Qed.

Lemma act_other_key st a key :
  key_of a <> key ->
  messages (act st a) !! key = messages st !! key
  /\ isConnected (act st a) !! key = isConnected st !! key
  /\ errors (act st a) !! key = errors st !! key.
Proof.
  intros Hne. destruct a as [k m|k c|k e|k]; cbn [key_of] in Hne.
  - rewrite act_add. destruct (add_throws k st); cbn; [auto|].
    rewrite lookup_insert_ne by exact Hne. auto.
  - cbn. rewrite lookup_insert_ne by exact Hne. auto.
  - cbn. rewrite lookup_insert_ne by exact Hne. auto.
  - cbn. rewrite lookup_insert_ne by exact Hne. auto.
Qed.

Lemma add_throws_other_key st a key :
  key_of a <> key ->
  add_throws key (act st a) = add_throws key st
  /\ messages_of key (act st a) = messages_of key st.
Proof.
  intros Hne. destruct (act_other_key st a key Hne) as (Hm & _).
  unfold add_throws, read_messages, messages_of. rewrite Hm. auto.
Qed.

Lemma writable_not_throws key st : writable key st -> add_throws key st = false.
Proof.
  unfold writable, add_throws, read_messages. intros [Hi|[l Hl]].
  - rewrite Hi. destruct (messages st !! key); reflexivity.
  - rewrite Hl. reflexivity.
Qed.

Lemma addMessage_writable key m st :
  writable key st ->
  addMessage key m st =
  Some (mkState (<[key := messages_of key st ++ [m]]> (messages st))
          (isConnected st) (errors st)).
Proof.
  unfold writable, addMessage, read_messages, messages_of. intros [Hi|[l Hl]].
  - rewrite Hi. destruct (messages st !! key); reflexivity.
  - rewrite Hl. reflexivity.
Qed.

Lemma writable_act key st a : writable key st -> writable key (act st a).
Proof.
  intros [Hi|[l Hl]]; [left; exact Hi|]. right.
  destruct (decide (key_of a = key)) as [<-|Hne].
  - destruct a as [k m|k c|k e|k]; cbn [key_of] in *.
    + rewrite act_add. destruct (add_throws k st); cbn; [eauto|].
      rewrite lookup_insert_eq. eauto.
    + cbn. eauto.
    + cbn. eauto.
    + cbn. rewrite lookup_insert_eq. eauto.
  - destruct (act_other_key st a key Hne) as (-> & _). eauto.
Qed.

(** X16: subscriptions do not interfere in the store.  An action on one
    key changes nothing that is stored under another key, and two actions
    on different keys give the same store in either order. *)
Theorem store_keys_are_independent (st : StreamState) (a b : Action) (key : string) :
  (key_of a <> key ->
   messages_of key (act st a) = messages_of key st
   /\ isConnected (act st a) !! key = isConnected st !! key
   /\ errors (act st a) !! key = errors st !! key)
  /\ (key_of a <> key_of b -> act (act st a) b = act (act st b) a).
Proof.
  split.
  - intros Hne. destruct (act_other_key st a key Hne) as (Hm & Hc & He).
    unfold messages_of. rewrite Hm. auto.
  - intros Hne.
    assert (Hne' : key_of b <> key_of a) by congruence.
    destruct (add_throws_other_key st a (key_of b) Hne) as [Ta Ma].
    destruct (add_throws_other_key st b (key_of a) Hne') as [Tb Mb].
    destruct a as [k m|k c|k e|k], b as [k' m'|k' c'|k' e'|k']; cbn [key_of] in *;
      rewrite ?(act_add (act st _)); rewrite ?Ta, ?Tb, ?Ma, ?Mb; rewrite ?act_add;
      repeat match goal with
        | |- context [add_throws ?x st] => destruct (add_throws x st)
        end;
      cbn; unfold setConnected, setError, clearMessages; cbn;
      try reflexivity; f_equal; apply insert_insert_ne; congruence.
Qed.

(** X17: a key that names no member of [Object.prototype], or is an own
    property already, holds exactly the messages added to it since it was
    last cleared, in the order they were added, whatever was done to other
    keys and to the flags in between.  A key that names such a member and
    is no own property cannot be added to: [addMessage] throws and the
    store stays as it was. *)
Theorem store_keeps_history (acts : list Action) (st : StreamState) (key : string) :
  (writable key st ->
   messages_of key (fold_left act acts st) = history key acts (messages_of key st))
  /\ (inherited key = true -> messages st !! key = None ->
      forall m, addMessage key m st = None /\ act st (AddMessage key m) = st).
Proof.
  split.
  - revert st. induction acts as [|a acts IH]; intros st Hw; [reflexivity|].
    cbn [fold_left]. rewrite (IH _ (writable_act key st a Hw)).
    destruct a as [k m|k c|k e|k]; cbn [history].
    + f_equal. destruct (String.eqb_spec k key) as [->|Hne].
      * rewrite act_add, (writable_not_throws key st Hw).
        unfold messages_of at 1. cbn. rewrite lookup_insert_eq. reflexivity.
      * apply (add_throws_other_key st (AddMessage k m) key Hne).
    + reflexivity.
    + reflexivity.
    + f_equal. unfold clearMessages, messages_of. cbn.
      destruct (String.eqb_spec k key) as [->|Hne].
      * rewrite lookup_insert_eq. reflexivity.
      * rewrite lookup_insert_ne by exact Hne. reflexivity.
  - intros Hi Hn m. unfold act, addMessage, read_messages. rewrite Hn, Hi. split; reflexivity.
Qed.

End StoreFacts.

Section HookFacts.

Import Hook.

Lemma last_n_push {A} (n : nat) (l : list A) (x : A) :
  1 <= n -> drop (length (last_n n l ++ [x]) - n) (last_n n l ++ [x]) = last_n n (l ++ [x]).
Proof.
  intros Hn. unfold last_n. rewrite !length_app, length_drop. cbn [length].
  destruct (decide (length l <= n)) as [Hle|Hgt].
  - replace (length l - n) with 0 by lia. rewrite drop_0.
    replace (length l - 0 + 1 - n) with (length l + 1 - n) by lia.
    reflexivity.
  - replace (length l - (length l - n) + 1 - n) with 1 by lia.
    rewrite (drop_app_le (drop (length l - n) l) [x] 1) by (rewrite length_drop; lia).
    rewrite drop_drop.
    rewrite (drop_app_le l [x] (length l + 1 - n)) by lia.
    f_equal. f_equal. lia.
Qed.

(** With a positive cap, pushing onto the last [n] of a history gives the
    last [n] of the longer history. *)
Lemma push_local_last_n maxMessages l m :
  (1 <= maxMessages)%Z ->
  push_local maxMessages (last_n (Z.to_nat maxMessages) l) m =
  last_n (Z.to_nat maxMessages) (l ++ [m]).
Proof.
  intros Hmax. unfold push_local, slice.
  set (n := Z.to_nat maxMessages).
  set (updated := last_n n l ++ [m]).
  assert (Hn : 1 <= n) by (unfold n; lia).
  destruct (maxMessages <? Z.of_nat (length updated))%Z eqn:Hcmp.
  - apply Z.ltb_lt in Hcmp.
    replace (- maxMessages <? 0)%Z with true by (symmetry; apply Z.ltb_lt; lia).
    replace (Z.to_nat (Z.max (Z.of_nat (length updated) + - maxMessages) 0))
      with (length updated - n) by (unfold n; lia).
    apply last_n_push, Hn.
  - apply Z.ltb_ge in Hcmp.
    assert (Hlen : length updated <= n) by (unfold n; lia).
    rewrite <- (last_n_push n l m Hn). fold updated.
    replace (length updated - n) with 0 by lia. rewrite drop_0. reflexivity.
Qed.

Lemma observe_all_snoc cfg tr e st :
  observe_all cfg (tr ++ [e]) st = observe cfg (observe_all cfg tr st) e.
Proof. unfold observe_all. rewrite fold_left_app. reflexivity. Qed.

Lemma delivered_app tr1 tr2 : delivered (tr1 ++ tr2) = delivered tr1 ++ delivered tr2.
Proof.
  induction tr1 as [|e tr1 IH]; [reflexivity|].
  destruct e; cbn [app delivered]; rewrite IH; reflexivity.
Qed.

Lemma pushMessage_unblocked cfg m st :
  blocked cfg = false -> storeMessages cfg = true ->
  exists store',
    pushMessage cfg m st =
    Some (mkHook store' (push_local (maxMessages cfg) (localMessages st) m)
            (localIsConnected st) (localError st)).
Proof.
  intros Hb Hstore. unfold pushMessage, blocked in *. rewrite Hstore. cbn [negb].
  destruct (store_key cfg) as [key|]; [|eauto].
  rewrite (addMessage_writable key m (store st) (or_introl Hb)). eauto.
Qed.

Lemma observe_local_unblocked cfg st e :
  blocked cfg = false -> storeMessages cfg = true ->
  localMessages (observe cfg st e) =
  match e with
  | OnMessage m => push_local (maxMessages cfg) (localMessages st) m
  | _ => localMessages st
  end.
Proof.
  intros Hb Hstore. destruct e; try reflexivity. cbn [observe].
  destruct (pushMessage_unblocked cfg m st Hb Hstore) as (store' & ->). reflexivity.
Qed.

(** With a store key that names a member of [Object.prototype] and is no
    own property, no callback records anything. *)
Lemma observe_blocked cfg key st e :
  store_key cfg = Some key -> Store.inherited key = true ->
  Store.messages (store st) !! key = None ->
  Store.messages (store (observe cfg st e)) = Store.messages (store st)
  /\ localMessages (observe cfg st e) = localMessages st.
Proof.
  intros Hkey Hi Hn.
  destruct e; cbn [observe]; unfold updateError, updateConnected; rewrite ?Hkey;
    cbn; auto.
  unfold pushMessage. destruct (negb (storeMessages cfg)); [cbn; auto|].
  rewrite Hkey. unfold Store.addMessage, Store.read_messages. rewrite Hn, Hi.
  cbn. auto.
Qed.

Lemma observe_all_blocked cfg key tr st :
  store_key cfg = Some key -> Store.inherited key = true ->
  Store.messages (store st) !! key = None ->
  Store.messages (store (observe_all cfg tr st)) = Store.messages (store st)
  /\ localMessages (observe_all cfg tr st) = localMessages st.
Proof.
  intros Hkey Hi Hn. induction tr as [|e tr [IHs IHl]] using rev_ind; [auto|].
  rewrite observe_all_snoc.
  destruct (observe_blocked cfg key (observe_all cfg tr st) e Hkey Hi) as [Hs Hl].
  { rewrite IHs. exact Hn. }
  rewrite Hs, Hl. auto.
Qed.

(** X18: with a cap of at least 1 the local history of the hook is at all
    times the last [maxMessages] messages the client has delivered, in
    order; so it never holds more than [maxMessages] and always ends with
    the latest one.  The one exception is a store key that names a member
    of [Object.prototype]: [addMessage] then throws before the local
    history is touched, which stays empty. *)
Theorem local_history_is_last_messages (cfg : Config) (tr : list Effect) :
  (1 <= maxMessages cfg)%Z -> storeMessages cfg = true ->
  localMessages (observe_all cfg tr initial) =
  (if blocked cfg then [] else last_n (Z.to_nat (maxMessages cfg)) (delivered tr))
  /\ (Z.of_nat (length (localMessages (observe_all cfg tr initial))) <= maxMessages cfg)%Z.
Proof.
  intros Hmax Hstore.
  assert (Heq : localMessages (observe_all cfg tr initial) =
                if blocked cfg then []
                else last_n (Z.to_nat (maxMessages cfg)) (delivered tr)).
  { destruct (blocked cfg) eqn:Hb.
    - unfold blocked in Hb. destruct (store_key cfg) as [key|] eqn:Hkey; [|discriminate].
      apply (observe_all_blocked cfg key tr initial Hkey Hb). apply lookup_empty.
    - induction tr as [|e tr IH] using rev_ind; [reflexivity|].
      rewrite observe_all_snoc, delivered_app, (observe_local_unblocked _ _ _ Hb Hstore).
      destruct e; cbn [delivered]; rewrite ?app_nil_r; try exact IH.
      rewrite IH. apply push_local_last_n, Hmax. }
  split; [exact Heq|]. rewrite Heq.
  destruct (blocked cfg); [simpl; lia|]. unfold last_n. rewrite length_drop. lia.
Qed.

(** X19: a cap of zero or less does not cap.  With [maxMessages = 0]
    nothing is ever dropped from the local history, which then holds every
    message delivered (none, when the store key names a member of
    [Object.prototype] and [addMessage] throws); with a negative cap [-n]
    each push drops the [n] oldest entries instead of keeping the
    newest. *)
Theorem nonpositive_cap_edge (cfg : Config) :
  (forall prev m,
     (maxMessages cfg <= 0)%Z ->
     push_local (maxMessages cfg) prev m =
     drop (Z.to_nat (- maxMessages cfg)) (prev ++ [m]))
  /\ (forall tr,
        maxMessages cfg = 0%Z -> storeMessages cfg = true ->
        localMessages (observe_all cfg tr initial) =
        if blocked cfg then [] else delivered tr).
Proof.
  assert (Hpush : forall prev m, (maxMessages cfg <= 0)%Z ->
            push_local (maxMessages cfg) prev m =
            drop (Z.to_nat (- maxMessages cfg)) (prev ++ [m])).
  { intros prev m Hmax. unfold push_local, slice.
    replace (maxMessages cfg <? Z.of_nat (length (prev ++ [m])))%Z with true.
    2:{ symmetry. apply Z.ltb_lt. rewrite length_app. simpl. lia. }
    replace (- maxMessages cfg <? 0)%Z with false by (symmetry; apply Z.ltb_ge; lia).
    destruct (decide (- maxMessages cfg <= Z.of_nat (length (prev ++ [m])))%Z) as [Hle|Hgt].
    - rewrite Z.min_l by exact Hle. reflexivity.
    - rewrite Z.min_r by lia. rewrite Nat2Z.id.
      rewrite drop_all. symmetry. apply drop_ge. lia. }
  split; [exact Hpush|].
  intros tr Hzero Hstore. destruct (blocked cfg) eqn:Hb.
  - unfold blocked in Hb. destruct (store_key cfg) as [key|] eqn:Hkey; [|discriminate].
    apply (observe_all_blocked cfg key tr initial Hkey Hb). apply lookup_empty.
  - induction tr as [|e tr IH] using rev_ind; [reflexivity|].
    rewrite observe_all_snoc, delivered_app, (observe_local_unblocked _ _ _ Hb Hstore).
    destruct e; cbn [delivered]; rewrite ?app_nil_r; try exact IH.
    rewrite Hpush by lia. rewrite Hzero, IH. reflexivity.
Qed.

Lemma view_writable cfg key st :
  store_key cfg = Some key -> Store.writable key (store st) ->
  view_messages cfg st = Messages (Store.messages_of key (store st)).
Proof.
  intros Hkey Hw. unfold view_messages, Store.read_messages, Store.messages_of.
  rewrite Hkey. destruct Hw as [Hi|[l Hl]].
  - rewrite Hi. destruct (Store.messages (store st) !! key); reflexivity.
  - rewrite Hl. reflexivity.
Qed.

Lemma view_after_connected cfg st c :
  view_messages cfg (updateConnected cfg c st) = view_messages cfg st.
Proof. unfold view_messages, updateConnected. destruct (store_key cfg); auto. Qed.

Lemma view_after_error cfg st e :
  view_messages cfg (updateError cfg e st) = view_messages cfg st.
Proof. unfold view_messages, updateError. destruct (store_key cfg); auto. Qed.

(** A callback of a hook whose store key can be added to appends what it
    delivers to the messages under the key, which can still be added to. *)
Lemma observe_store_writable cfg key st e :
  store_key cfg = Some key -> storeMessages cfg = true ->
  Store.writable key (store st) ->
  Store.writable key (store (observe cfg st e))
  /\ Store.messages_of key (store (observe cfg st e)) =
     Store.messages_of key (store st) ++ delivered [e].
Proof.
  intros Hkey Hstore Hw.
  destruct e; cbn [observe delivered]; unfold updateError, updateConnected;
    rewrite ?Hkey; cbn [store]; rewrite ?app_nil_r; try (split; [exact Hw|reflexivity]).
  unfold pushMessage. rewrite Hstore, Hkey. cbn [negb].
  rewrite (addMessage_writable key m (store st) Hw). cbn [default from_option id store].
  split.
  - right. cbn [Store.messages]. rewrite lookup_insert_eq. eauto.
  - unfold Store.messages_of at 1. cbn [Store.messages].
    rewrite lookup_insert_eq. reflexivity.
Qed.

(** X20: with a store key that can be added to (one that names no member
    of [Object.prototype], or is an own property of the stored messages
    already) the cap is without effect on what the hook returns: the
    messages returned are those of the store, and each delivered message
    is appended to them, none ever dropped, whatever [maxMessages] is.
    With [storeMessages] off, delivered messages are not recorded at all.
    With a store key that names a member of [Object.prototype] and is no
    own property, nothing is ever stored and the hook returns the
    inherited member in the place of messages. *)
Theorem store_view_is_never_trimmed (cfg : Config) (tr : list Effect) (st : State) :
  (forall key, store_key cfg = Some key -> storeMessages cfg = true ->
     Store.writable key (store st) ->
     view_messages cfg st = Messages (Store.messages_of key (store st))
     /\ view_messages cfg (observe_all cfg tr st) =
        Messages (Store.messages_of key (store st) ++ delivered tr))
  /\ (storeMessages cfg = false ->
      view_messages cfg (observe_all cfg tr st) = view_messages cfg st)
  /\ (forall key, store_key cfg = Some key -> Store.inherited key = true ->
        Store.messages (store st) !! key = None ->
        view_messages cfg (observe_all cfg tr st) = InheritedMember
        /\ Store.messages (store (observe_all cfg tr st)) = Store.messages (store st)).
Proof.
  split; [|split].
  - intros key Hkey Hstore Hw. split; [apply view_writable; assumption|].
    assert (H : Store.writable key (store (observe_all cfg tr st))
                /\ Store.messages_of key (store (observe_all cfg tr st)) =
                   Store.messages_of key (store st) ++ delivered tr).
    { induction tr as [|e tr [IHw IHm]] using rev_ind.
      - rewrite app_nil_r. split; [exact Hw|reflexivity].
      - rewrite observe_all_snoc, delivered_app.
        destruct (observe_store_writable cfg key (observe_all cfg tr st) e Hkey Hstore IHw)
          as [Hw' Hm'].
        split; [exact Hw'|]. rewrite Hm', IHm, app_assoc. reflexivity. }
    destruct H as [Hw' Hm']. rewrite (view_writable cfg key _ Hkey Hw'), Hm'. reflexivity.
  - intros Hstore.
    induction tr as [|e tr IH] using rev_ind; [reflexivity|].
    rewrite observe_all_snoc.
    destruct e; cbn [observe];
      rewrite ?view_after_error, ?view_after_connected;
      try exact IH.
    unfold pushMessage. rewrite Hstore. exact IH.
  - intros key Hkey Hi Hn.
    destruct (observe_all_blocked cfg key tr st Hkey Hi Hn) as [Hs _].
    split; [|exact Hs].
    unfold view_messages, Store.read_messages. rewrite Hkey, Hs, Hn, Hi. reflexivity.
Qed.

End HookFacts.

Section CardFacts.

Import Cards.

Lemma replace_slashes_alike s t :
  replace_slashes s = replace_slashes t <-> alike s t = true.
Proof.
  revert t. induction s as [|c s IH]; intros [|d t]; cbn [replace_slashes alike];
    try (split; [discriminate|discriminate]); [split; reflexivity|].
  rewrite andb_true_iff, <- IH. split.
  - intros H. injection H as Hc Hs. split; [|exact Hs].
    destruct (Ascii.eqb c "/") eqn:Hc1; destruct (Ascii.eqb d "/") eqn:Hd1.
    + apply Ascii.eqb_eq in Hc1, Hd1. subst c d. reflexivity.
    + apply Ascii.eqb_eq in Hc1. subst c d. reflexivity.
    + apply Ascii.eqb_eq in Hd1. subst c d. reflexivity.
    + subst d. rewrite Ascii.eqb_refl. reflexivity.
  - intros [Hc Hs]. rewrite Hs. f_equal.
    destruct (Ascii.eqb_spec c d) as [->|Hcd]; [reflexivity|]. cbn [orb] in Hc.
    apply andb_true_iff in Hc as [Hc Hd].
    apply orb_true_iff in Hc as [Hc|Hc]; apply orb_true_iff in Hd as [Hd|Hd];
      apply Ascii.eqb_eq in Hc, Hd; subst c d; try contradiction; reflexivity.
Qed.

(** X21: the store key of a card contains no slash, and two endpoints get
    the same store key exactly when they agree up to slashes standing for
    dashes; so the endpoints [/a/b] and [/a-b] share one key, and with it
    one message history. *)
Theorem store_key_collisions (e1 e2 : string) :
  lacks "/" (storeKey e1) = true
  /\ (storeKey e1 = storeKey e2 <-> alike e1 e2 = true).
Proof.
  split.
  - unfold storeKey. rewrite lacks_app. cbn.
    induction e1 as [|c s IH]; [reflexivity|]. cbn.
    destruct (Ascii.eqb_spec c "/") as [->|Hc]; [exact IH|].
    apply Ascii.eqb_neq in Hc. rewrite Hc. exact IH.
  - rewrite <- replace_slashes_alike. unfold storeKey. split.
    + intros H. cbn in H. congruence.
    + intros ->. reflexivity.
Qed.

End CardFacts.

Section ChatFacts.

Import Chat.

Variable to_text : JSValue -> string.

Lemma concat_chunks_app l1 l2 :
  concat_chunks (l1 ++ l2) = concat_chunks l1 +:+ concat_chunks l2.
Proof.
  induction l1 as [|x l1 IH]; [reflexivity|].
  cbn [app concat_chunks]. rewrite IH, append_assoc. reflexivity.
Qed.

(** X22: the assistant text of the chat card is the concatenation of the
    deltas in arrival order: the text for two batches of messages is the
    text of the first followed by the text of the second, a message that
    is not a [chat_delta] adds nothing, and a [chat_delta] adds its delta
    at the end. *)
Theorem assistant_grows_by_deltas (ms ms' : list SSEMessage) (m : SSEMessage) :
  assistant to_text (ms ++ ms') = assistant to_text ms +:+ assistant to_text ms'
  /\ (has_type "chat_delta" m = false ->
      assistant to_text (ms ++ [m]) = assistant to_text ms)
  /\ (has_type "chat_delta" m = true ->
      assistant to_text (ms ++ [m]) = assistant to_text ms +:+ delta_text to_text m).
Proof.
  assert (Happ : forall l1 l2,
            assistant to_text (l1 ++ l2) = assistant to_text l1 +:+ assistant to_text l2).
  { intros l1 l2. unfold assistant.
    rewrite List.filter_app, map_app. apply concat_chunks_app. }
  split; [apply Happ|]. split; intros Hm; rewrite Happ; unfold assistant at 2;
    cbn [List.filter]; rewrite Hm; cbn [map concat_chunks]; rewrite append_nil_r;
    reflexivity.
Qed.

End ChatFacts.

(** ** The further properties at sample inputs *)

Section MoreSamples.

#[local] Abbreviation read_chunk := (read_chunk sample_parse sample_clock).
#[local] Abbreviation read_chunks := (read_chunks sample_parse sample_clock).
#[local] Abbreviation dispatchMessage := (dispatchMessage sample_parse sample_clock).
#[local] Abbreviation step := (step sample_parse sample_stringify sample_clock).
#[local] Abbreviation run := (run sample_parse sample_stringify sample_clock).
#[local] Abbreviation connect := (connect sample_stringify).
#[local] Abbreviation build_request := (build_request sample_stringify).

Lemma frame_decodes_witness :
  line_safe "tick" /\ Forall line_safe ["A"; "B"]
  /\ read_chunk (frame_text "tick" ["A"; "B"]) (mkReader empty_buffer "") 0 =
     (let '(m, _, tick') := dispatchMessage (mkBuffer "tick" ["A"; "B"] None) 0 in
      (new_reader, tick', [m])).
Proof.
  assert (H1 : line_safe "tick") by (split; reflexivity).
  assert (H2 : Forall line_safe ["A"; "B"]) by (repeat constructor).
  split; [exact H1|]. split; [exact H2|].
  exact (frame_decodes sample_parse sample_clock "tick" ["A"; "B"] 0 H1 H2).
Defined.

Lemma frames_decode_in_chunks_witness :
  length (read_chunks ["event: tick" +:+ eol_LF +:+ "da";
                       "ta: A" +:+ eol_LF +:+ eol_LF +:+ "event: message" +:+ eol_LF;
                       "data: " +:+ doc_a1 +:+ eol_LF +:+ eol_LF] new_reader 0).2 = 2.
Proof.
  assert (H : Forall (fun f : string * list string =>
                        line_safe f.1 /\ Forall line_safe f.2 /\ f.2 <> [])
                [("tick", ["A"]); ("message", [doc_a1])]).
  { repeat constructor; discriminate. }
  assert (Hcut : concat_chunks
                   ["event: tick" +:+ eol_LF +:+ "da";
                    "ta: A" +:+ eol_LF +:+ eol_LF +:+ "event: message" +:+ eol_LF;
                    "data: " +:+ doc_a1 +:+ eol_LF +:+ eol_LF] =
                 frames_text [("tick", ["A"]); ("message", [doc_a1])])
    by (vm_compute; reflexivity).
  exact (proj2 (frames_decode_in_chunks sample_parse sample_clock
                  [("tick", ["A"]); ("message", [doc_a1])] _ 0 H Hcut)).
Defined.

Lemma messages_need_blank_lines_witness :
  read_chunk "data: par" new_reader 0 =
  (mkReader empty_buffer ("" +:+ "data: par"), 0, []).
Proof.
  exact (proj2 (messages_need_blank_lines sample_parse sample_clock)
           "data: par" new_reader 0 eq_refl eq_refl).
Defined.

Lemma request_body_and_method_witness :
  is_Some (ri_body (build_request post_options))
  /\ ri_headers (build_request plain_options) = spread_headers (headers plain_options).
Proof.
  split.
  - destruct (request_body_and_method sample_stringify post_options) as (_ & Hbody & _).
    apply Hbody. split; reflexivity.
  - destruct (request_body_and_method sample_stringify plain_options) as (_ & _ & Hh & _).
    apply Hh. reflexivity.
Defined.

Lemma attempts_never_exceed_ceiling_witness :
  (Z.of_nat (reconnectAttempts
               (run [Connect; FetchSettles 0 (Rejected "offline"); TimerFires 1;
                     FetchSettles 1 (Rejected "offline"); TimerFires 2;
                     FetchSettles 2 (Rejected "offline")] (new_client post_options)))
   <= Z.max 0 (default 5 (maxReconnectAttempts post_options)))%Z.
Proof.
  apply (attempts_never_exceed_ceiling sample_parse sample_stringify sample_clock
           post_options). discriminate.
Defined.

Lemma connecting_trace :
  trace connecting = [Fetch 0 "/stream" (build_request post_options)].
Proof. reflexivity. Qed.

Lemma requests_and_delays_are_uniform_witness :
  Fetch 0 "/stream" (build_request post_options) ∈ trace connecting
  /\ "/stream" = url post_options
  /\ build_request post_options = build_request post_options.
Proof.
  assert (H : Fetch 0 "/stream" (build_request post_options) ∈ trace connecting).
  { rewrite connecting_trace. apply list_elem_of_here. }
  split; [exact H|].
  exact (proj1 (requests_and_delays_are_uniform sample_parse sample_stringify sample_clock
                  post_options [Connect] _ H) 0 _ _ eq_refl).
Defined.

Lemma no_reopen_after_disconnect_witness :
  Forall (fun e => is_Connect e = false)
    [TimerFires 1; FetchSettles 0 (Rejected "AbortError"); Disconnect false]
  /\ timers (run [TimerFires 1; FetchSettles 0 (Rejected "AbortError"); Disconnect false]
               (disconnect true connecting)) = ∅.
Proof.
  assert (H : Forall (fun e => is_Connect e = false)
                [TimerFires 1; FetchSettles 0 (Rejected "AbortError"); Disconnect false]).
  { repeat constructor. }
  split; [exact H|].
  exact (proj1 (no_reopen_after_disconnect sample_parse sample_stringify sample_clock
                  post_options [Connect] true _ H)).
Defined.

Lemma no_reopen_after_end_of_stream_witness :
  in_flight opened 0
  /\ timers (run [TimerFires 1; ReadSettles 0 Done] (step opened (ReadSettles 0 Done))) = ∅.
Proof.
  split; [exact opened_in_flight|].
  assert (H : Forall (fun e => is_Connect e = false) [TimerFires 1; ReadSettles 0 Done]).
  { repeat constructor. }
  refine (proj1 (no_reopen_after_end_of_stream sample_parse sample_stringify sample_clock
                   post_options [Connect; FetchSettles 0 (Resolved ok_response)] 0 _
                   opened_in_flight _ H)).
  exists (with_phase (Reading new_reader) (fresh_conn post_options)), new_reader.
  split; reflexivity.
Defined.

Lemma plain_connecting_in_flight : in_flight plain_connecting 0.
Proof.
  exists (fresh_conn plain_options). split; [reflexivity|]. split; [reflexivity|discriminate].
Defined.

Lemma no_reopen_after_final_failure_witness :
  in_flight plain_connecting 0
  /\ ~ retry_allowed (fresh_conn plain_options) (reconnectAttempts plain_connecting)
  /\ exists f, trace (step plain_connecting (FetchSettles 0 (Rejected "offline"))) =
               trace plain_connecting ++ [OnError f].
Proof.
  assert (Hno : ~ retry_allowed (fresh_conn plain_options)
                    (reconnectAttempts plain_connecting)).
  { intros [Hauto _]. discriminate. }
  assert (Hlater : Forall (fun e => is_Connect e = false) [TimerFires 1]).
  { repeat constructor. }
  split; [exact plain_connecting_in_flight|]. split; [exact Hno|].
  exact (proj1 (no_reopen_after_final_failure sample_parse sample_stringify sample_clock
                  plain_options [Connect] 0 (fresh_conn plain_options)
                  (FetchSettles 0 (Rejected "offline")) [TimerFires 1]
                  plain_connecting_in_flight eq_refl eq_refl Hno Hlater)).
Defined.

Lemma streamed_trace :
  trace streamed =
  [Fetch 0 "/stream" (build_request plain_options); OnOpen] ++ OnMessage hello_message :: [].
Proof. reflexivity. Qed.

Lemma messages_follow_open_witness :
  OnOpen ∈ [Fetch 0 "/stream" (build_request plain_options); OnOpen].
Proof.
  exact (messages_follow_open sample_parse sample_stringify sample_clock plain_options
           [Connect; FetchSettles 0 (Resolved ok_response);
            ReadSettles 0 (Chunk ("data: hello" +:+ eol_LF +:+ eol_LF))]
           _ [] (OnMessage hello_message) streamed_trace (or_introl eq_refl)).
Defined.

Lemma updateOptions_applies_at_next_connect_witness :
  step (updateOptions no_retry_patch connecting) (FetchSettles 0 (Rejected "offline")) =
  updateOptions no_retry_patch (step connecting (FetchSettles 0 (Rejected "offline")))
  /\ retries (trace (step (updateOptions no_retry_patch connecting)
                       (FetchSettles 0 (Rejected "offline")))) = 1.
Proof.
  split; [|reflexivity].
  exact (proj1 (updateOptions_applies_at_next_connect sample_parse sample_stringify
                  sample_clock no_retry_patch connecting
                  (FetchSettles 0 (Rejected "offline"))) eq_refl).
Defined.

Lemma hook_reconnect_starts_afresh_witness :
  in_flight (hook_reconnect sample_stringify true connecting) 1
  /\ ~ in_flight (hook_reconnect sample_stringify true connecting) 0.
Proof.
  destruct (hook_reconnect_starts_afresh sample_parse sample_stringify sample_clock
              post_options [Connect] true) as (_ & _ & Hyes & _).
  assert (Hurl : url post_options <> "") by discriminate.
  split.
  - apply (Hyes eq_refl Hurl 1). reflexivity.
  - intros H. apply (Hyes eq_refl Hurl 0) in H. discriminate H.
Defined.

Lemma store_keys_are_independent_witness :
  Store.messages_of "b" (Store.act Store.initial (Store.AddMessage "a" hello_message)) =
  Store.messages_of "b" Store.initial
  /\ Store.act (Store.act Store.initial (Store.AddMessage "a" hello_message))
       (Store.ClearMessages "b") =
     Store.act (Store.act Store.initial (Store.ClearMessages "b"))
       (Store.AddMessage "a" hello_message).
Proof.
  destruct (store_keys_are_independent Store.initial (Store.AddMessage "a" hello_message)
              (Store.ClearMessages "b") "b") as [Hsame Hcomm].
  split.
  - apply Hsame. discriminate.
  - apply Hcomm. discriminate.
Defined.

Lemma local_history_is_last_messages_witness :
  Hook.localMessages (Hook.observe_all local_config three_messages Hook.initial) =
  Hook.last_n 2 (delivered three_messages).
Proof.
  refine (proj1 (local_history_is_last_messages local_config three_messages _ eq_refl)).
  unfold local_config. simpl. lia.
Defined.

Lemma nonpositive_cap_edge_witness :
  Hook.localMessages (Hook.observe_all uncapped_config three_messages Hook.initial) =
  delivered three_messages.
Proof.
  exact (proj2 (nonpositive_cap_edge uncapped_config) three_messages eq_refl eq_refl).
Defined.

Lemma store_view_is_never_trimmed_witness :
  Store.writable "llm-chat" (Hook.store Hook.initial)
  /\ Hook.view_messages chat_config
       (Hook.observe_all chat_config three_messages Hook.initial) =
     Hook.Messages (Store.messages_of "llm-chat" (Hook.store Hook.initial)
                    ++ delivered three_messages).
Proof.
  assert (Hw : Store.writable "llm-chat" (Hook.store Hook.initial)).
  { left. reflexivity. }
  split; [exact Hw|].
  exact (proj2 (proj1 (store_view_is_never_trimmed chat_config three_messages Hook.initial)
                  "llm-chat" eq_refl eq_refl Hw)).
Defined.

Lemma store_keeps_history_witness :
  Store.writable "llm-chat" Store.initial
  /\ Store.messages_of "llm-chat"
       (fold_left Store.act
          [Store.AddMessage "llm-chat" (text_message "a");
           Store.ClearMessages "llm-chat";
           Store.AddMessage "constructor" (text_message "b");
           Store.AddMessage "llm-chat" (text_message "c")] Store.initial) =
     [text_message "c"].
Proof.
  assert (Hw : Store.writable "llm-chat" Store.initial).
  { left. reflexivity. }
  split; [exact Hw|].
  exact (proj1 (store_keeps_history
                  [Store.AddMessage "llm-chat" (text_message "a");
                   Store.ClearMessages "llm-chat";
                   Store.AddMessage "constructor" (text_message "b");
                   Store.AddMessage "llm-chat" (text_message "c")]
                  Store.initial "llm-chat") Hw).
Defined.

Lemma store_key_collisions_witness :
  Cards.storeKey "/a/b" = Cards.storeKey "/a-b".
Proof.
  exact (proj2 (proj2 (store_key_collisions "/a/b" "/a-b")) eq_refl).
Defined.

Lemma assistant_grows_by_deltas_witness :
  Chat.assistant (fun _ => "") ([delta_message "Hel"] ++ [delta_message "lo"]) =
  Chat.assistant (fun _ => "") [delta_message "Hel"]
  +:+ Chat.delta_text (fun _ => "") (delta_message "lo").
Proof.
  destruct (assistant_grows_by_deltas (fun _ => "") [delta_message "Hel"] []
              (delta_message "lo")) as (_ & _ & Hdelta).
  apply Hdelta. reflexivity.
Defined.

End MoreSamples.
